(** * ThreadWin: a Win32 thread wrapper with synchronized start

    A shallow embedding of the thread-lifecycle coordinator of
    [src/main.cpp]: the four [ThreadWin] member functions listed there
    ([CreateThread], [RunProcess], [StartAllThreads], [ExitThread]), the
    sample work loop [WorkerThread::Process] and the driver [main].

    The program is concurrent, so it is embedded as a labelled transition
    system.  Every Win32 call of the source is one atomic step of the thread
    that issues it; a label names the thread that moves and resolves what
    the source cannot decide by itself (which handle value the system hands
    out, whether a creation call fails, whether a bounded wait runs into its
    timeout).  The step function is executable, so schedules can be replayed
    by computation. *)

From Stdlib Require Import ZArith Lia.
From stdpp Require Import gmap strings list.

(** ** Win32 objects *)

Definition NULL : Z := 0%Z.
Definition INVALID_HANDLE_VALUE : Z := (-1)%Z.
Definition TRUE : bool := true.
Definition FALSE : bool := false.

(** What an open handle of the process designates. *)
Inductive KObj : Type :=
  | KEvent (e : nat)
  | KThread (t : nat).

(** A kernel event object.  All events of the source are created with
    [bManualReset = TRUE] and [bInitialState = FALSE]; the source never
    calls [ResetEvent].  [ev_open] counts the open handles: the system
    destroys the object when the last one is closed. *)
Record Event : Type := mkEvent {
  ev_name : string;
  ev_signaled : bool;
  ev_open : nat
}.

(** Message identifiers.  [UserMsgs.h] is not part of the sources; the two
    identifiers the code names are kept symbolic, and [WM_USER_OTHER k]
    stands for any other identifier inside [WM_USER_BEGIN .. WM_USER_END],
    the range [GetMessage] filters on. *)
Inductive MsgId : Type :=
  | WM_THREAD_MSG
  | WM_EXIT_THREAD
  | WM_USER_OTHER (k : Z).

Record MSG : Type := mkMSG {
  message : MsgId;
  wParam : Z
}.

(** The assertions of the source, named by their line in [src/main.cpp],
    and the one undefined behaviour the work loop can run into. *)
Inductive Fault : Type :=
  | AssertAt (line : nat)
  | DanglingPayload.

(** Program points of [ThreadWin::RunProcess] (lines 260-293). *)
Inductive RunPc : Type :=
  | RP_PeekMessage   (* lines 264-270 *)
  | RP_SetStarted    (* lines 273-277 *)
  | RP_WaitStart     (* lines 281-282 *)
  | RP_Process       (* line 286, [WorkerThread::Process] lines 26-51 *)
  | RP_SetExited     (* lines 289-290 *)
  | RP_Return        (* line 292 *)
  | RP_Exited.

(** An operating-system thread started by [::CreateThread].  [th_queue] is
    [None] until the system has created the message queue.  [th_posted] and
    [th_got] are history: the messages the queue has accepted and the ones
    [GetMessage] has handed to the work loop, both oldest first. *)
Record Thread : Type := mkThread {
  th_this : nat;
  th_pc : RunPc;
  th_alive : bool;
  th_queue : option (list MSG);
  th_posted : list MSG;
  th_got : list MSG
}.

(** The data members of a [ThreadWin] instance. *)
Record ThreadWin : Type := mkThreadWin {
  THREAD_NAME : string;
  SYNC_START : bool;
  m_hThreadStarted : Z;
  m_hThreadExited : Z;
  m_hThread : Z;
  m_threadId : nat
}.

(** ** Coordinator threads

    A coordinator is a thread that calls the public interface, as [main]
    does.  Its program is a list of calls. *)

Inductive Data : Type :=
  | DataNull
  | DataThreadMsg.   (* the local variable [threadMsg] of [main] *)

Inductive Call : Type :=
  | CallCreateThread (o : nat)
  | CallStartAllThreads
  | CallNewThreadMsg (text : string)               (* lines 74-75, 81-82 *)
  | CallPostThreadMessage (o : nat) (msg : MsgId) (data : Data)
  | CallSleep
  | CallExitThread (o : nat).

(** Program points of [ThreadWin::CreateThread] (lines 220-243). *)
Inductive CreatePc : Type :=
  | CT_Enter         (* line 223 *)
  | CT_CreateEvent   (* line 225 *)
  | CT_Spawn         (* lines 228-231 *)
  | CT_Wait          (* lines 234-235 *)
  | CT_Close         (* line 237 *)
  | CT_Invalidate    (* line 238 *)
  | CT_Return.       (* line 240 *)

(** Program points of [ThreadWin::ExitThread] (lines 307-325). *)
Inductive ExitPc : Type :=
  | ET_Enter         (* line 309 *)
  | ET_CreateEvent   (* line 311 *)
  | ET_Post          (* line 313 *)
  | ET_Wait          (* line 316 *)
  | ET_Terminate     (* line 317 *)
  | ET_CloseThread   (* line 319 *)
  | ET_InvalThread   (* line 320 *)
  | ET_CloseExited   (* line 322 *)
  | ET_InvalExited.  (* line 323 *)

(** Where a coordinator is: between two calls, or inside one of the two
    member functions that take more than one step. *)
Inductive CoordPc : Type :=
  | PC_Idle
  | InCreateThread (this : nat) (pc : CreatePc)
  | InExitThread (this : nat) (pc : ExitPc).

(** What a call gave back to its caller. *)
Inductive Ret : Type :=
  | RetCreateThread (o : nat) (b : bool)
  | RetPostThreadMessage (o : nat) (msg : MSG) (ok : bool)
  | RetExitThread (o : nat).

Record Coord : Type := mkCoord {
  c_pc : CoordPc;
  c_script : list Call;
  c_threadMsg : Z;
  c_rets : list Ret
}.

(** ** The state of the process *)

Record State : Type := mkState {
  handles : gmap Z KObj;          (* the handle table of the process *)
  events : list Event;            (* kernel event objects *)
  threads : list Thread;          (* threads started by [::CreateThread] *)
  objs : list ThreadWin;          (* the [ThreadWin] instances *)
  coords : list Coord;            (* coordinator threads *)
  heap : gmap Z string;           (* [ThreadMsg] objects made by [new] *)
  cout : list (string * string);  (* what the work loops printed *)
  fault : option Fault;           (* the fault handler was entered *)
  releases : nat;                 (* calls of [StartAllThreads] so far *)
  m_hStartAllThreads : Z          (* static member of [ThreadWin] *)
}.

Definition with_handles (f : gmap Z KObj → gmap Z KObj) (s : State) : State :=
  mkState (f (handles s)) (events s) (threads s) (objs s) (coords s)
          (heap s) (cout s) (fault s) (releases s) (m_hStartAllThreads s).
Definition with_events (f : list Event → list Event) (s : State) : State :=
  mkState (handles s) (f (events s)) (threads s) (objs s) (coords s)
          (heap s) (cout s) (fault s) (releases s) (m_hStartAllThreads s).
Definition with_threads (f : list Thread → list Thread) (s : State) : State :=
  mkState (handles s) (events s) (f (threads s)) (objs s) (coords s)
          (heap s) (cout s) (fault s) (releases s) (m_hStartAllThreads s).
Definition with_objs (f : list ThreadWin → list ThreadWin) (s : State) : State :=
  mkState (handles s) (events s) (threads s) (f (objs s)) (coords s)
          (heap s) (cout s) (fault s) (releases s) (m_hStartAllThreads s).
Definition with_coords (f : list Coord → list Coord) (s : State) : State :=
  mkState (handles s) (events s) (threads s) (objs s) (f (coords s))
          (heap s) (cout s) (fault s) (releases s) (m_hStartAllThreads s).
Definition with_heap (f : gmap Z string → gmap Z string) (s : State) : State :=
  mkState (handles s) (events s) (threads s) (objs s) (coords s)
          (f (heap s)) (cout s) (fault s) (releases s) (m_hStartAllThreads s).
Definition with_cout (f : list (string * string) → list (string * string))
    (s : State) : State :=
  mkState (handles s) (events s) (threads s) (objs s) (coords s)
          (heap s) (f (cout s)) (fault s) (releases s) (m_hStartAllThreads s).
Definition with_fault (x : option Fault) (s : State) : State :=
  mkState (handles s) (events s) (threads s) (objs s) (coords s)
          (heap s) (cout s) x (releases s) (m_hStartAllThreads s).
Definition with_releases (f : nat → nat) (s : State) : State :=
  mkState (handles s) (events s) (threads s) (objs s) (coords s)
          (heap s) (cout s) (fault s) (f (releases s)) (m_hStartAllThreads s).

(** ** The fault handler

    Modelled from the spec: [Fault.h] (the macros [ASSERT_TRUE] and
    [ASSERT]) is not part of the sources.  The spec describes the
    collaborator as "check condition, abort with diagnostic if false": a
    failed check enters the fault handler and the process goes no further. *)
Definition ASSERT_TRUE (line : nat) (cond : bool) (s : State) : State :=
  with_fault (if cond then fault s else Some (AssertAt line)) s.

Definition ASSERT (line : nat) (s : State) : State :=
  with_fault (Some (AssertAt line)) s.

(** What the environment decides in a step: nothing ([Go]); the handle
    value or address a creating call returns ([Fresh]); that a creating
    call fails ([Fail]); that a bounded wait ends by its timeout
    ([Timeout]). *)
Inductive Choice : Type :=
  | Go
  | Fresh (h : Z)
  | Fail
  | Timeout.

(** ** The Win32 calls the source makes *)

Module Win32.

Inductive WaitStatus : Type :=
  | WAIT_OBJECT_0
  | WAIT_TIMEOUT
  | WAIT_FAILED.

(** A handle value the system may hand out next: not one of the two
    reserved values and not open at the moment.  Closed handle values may
    be handed out again. *)
Definition fresh_handle (h : Z) (s : State) : bool :=
  bool_decide (h ≠ NULL) && bool_decide (h ≠ INVALID_HANDLE_VALUE)
  && bool_decide (handles s !! h = None).

Definition event_of (h : Z) (s : State) : option nat :=
  match handles s !! h with
  | Some (KEvent e) => Some e
  | _ => None
  end.

Definition thread_of (h : Z) (s : State) : option nat :=
  match handles s !! h with
  | Some (KThread t) => Some t
  | _ => None
  end.

(** The event object behind the handle [h], when there is one. *)
Definition event_behind (h : Z) (s : State) : option Event :=
  e ← event_of h s; events s !! e.

(** The event object a name designates: the first one of that name that
    still has an open handle. *)
Definition find_event (name : string) (evs : list Event)
    : option (nat * Event) :=
  list_find (λ ev, ev_name ev = name ∧ ev_open ev ≠ 0) evs.

(** [CreateEvent(NULL, TRUE, FALSE, name)]: the handle the call returns
    and the state after it.  When an event object of that name exists, the
    call opens a further handle to the existing object and leaves its
    state as it is; otherwise it creates a non-signaled object.  A call
    that fails returns [NULL]. *)
Definition CreateEvent (name : string) (ch : Choice) (s : State)
    : option (Z * State) :=
  match ch with
  | Fresh h =>
      if fresh_handle h s
      then match find_event name (events s) with
           | Some (e, ev) =>
               Some (h,
                     with_handles (<[h := KEvent e]>)
                       (with_events
                          (<[e := mkEvent (ev_name ev) (ev_signaled ev)
                                    (S (ev_open ev))]>) s))
           | None =>
               Some (h,
                     with_handles (<[h := KEvent (length (events s))]>)
                       (with_events (λ evs, evs ++ [mkEvent name false 1]) s))
           end
      else None
  | Fail => Some (NULL, s)
  | _ => None
  end.

Definition signal (ev : Event) : Event :=
  mkEvent (ev_name ev) true (ev_open ev).

(** [SetEvent(h)]: the result of the call and the state after it.  The
    call fails when [h] is not an open handle of an event. *)
Definition SetEvent (h : Z) (s : State) : bool * State :=
  (bool_decide (is_Some (event_behind h s)),
   with_events
     (match event_of h s with
      | Some e => alter signal e
      | None => id
      end) s).

(** The state of the object behind [h] as [WaitForSingleObject] sees it:
    [WAIT_OBJECT_0] when signaled, [WAIT_TIMEOUT] when the caller would
    have to wait, [WAIT_FAILED] when [h] is no open handle.  A thread
    object is signaled once the thread has ended. *)
Definition probe (h : Z) (s : State) : WaitStatus :=
  match handles s !! h with
  | Some (KEvent e) =>
      match events s !! e with
      | Some ev => if ev_signaled ev then WAIT_OBJECT_0 else WAIT_TIMEOUT
      | None => WAIT_FAILED
      end
  | Some (KThread t) =>
      match threads s !! t with
      | Some th => if th_alive th then WAIT_TIMEOUT else WAIT_OBJECT_0
      | None => WAIT_FAILED
      end
  | None => WAIT_FAILED
  end.

Definition release (ev : Event) : Event :=
  mkEvent (ev_name ev) (ev_signaled ev) (pred (ev_open ev)).

(** [CloseHandle(h)].  Closing the last handle of an event destroys it;
    closing a thread handle leaves the thread running; closing what is no
    open handle changes nothing. *)
Definition CloseHandle (h : Z) (s : State) : State :=
  with_handles (delete h)
    (with_events
       (match event_of h s with
        | Some e => alter release e
        | None => id
        end) s).

(** Thread identifiers: thread number [t] of the model has identifier
    [S t]; [0] is the identifier of no thread.  The model hands no
    identifier out twice.  Windows may: the identifier of a thread goes
    to a new thread once the thread object is gone, which is when the
    thread has ended and every handle of it is closed.  The model is
    therefore right about an identifier as long as its thread runs or a
    handle of its thread is open; what is stated below of the thread an
    identifier in [m_threadId] names is stated of such an identifier. *)
Definition thread_of_id (id : nat) : option nat :=
  match id with
  | O => None
  | S t => Some t
  end.

(** [::CreateThread(NULL, 0, RunProcess, &threadParam, 0, &id)] for the
    instance [this] whose [m_threadId] is [id]: the handle the call
    returns, the value of [id] after the call, and the state after it.
    The new thread is about to enter [RunProcess].  A call that fails
    returns [NULL] and leaves [id] as it was.

    The thread is passed the address of [threadParam], a local of the
    calling [ThreadWin::CreateThread] (line 228), and reads the instance
    from it first thing (line 264).  The model gives the thread its
    instance at this call, in [th_this]: what line 264 reads as long as
    the caller is still in that call of [ThreadWin::CreateThread] when
    the thread takes its first step.  With one coordinator it always is,
    as shown below.  With several, the created-event they share by its
    name can let the call return before the thread has run; line 264
    then reads a local that is gone, and the model does not follow the
    code there.  Where a statement below depends on which instance a
    thread that has run belongs to, it is therefore made for one
    coordinator. *)
Definition CreateThread (this : nat) (id : nat) (ch : Choice) (s : State)
    : option (Z * nat * State) :=
  match ch with
  | Fresh h =>
      if fresh_handle h s
      then Some (h, S (length (threads s)),
                 with_handles (<[h := KThread (length (threads s))]>)
                   (with_threads
                      (λ ths,
                         ths ++ [mkThread this RP_PeekMessage true None [] []])
                      s))
      else None
  | Fail => Some (NULL, id, s)
  | _ => None
  end.

Definition make_queue (th : Thread) : Thread :=
  mkThread (th_this th) (th_pc th) (th_alive th)
           (Some (default [] (th_queue th))) (th_posted th) (th_got th).

(** [PeekMessage(&msg, NULL, WM_USER, WM_USER, PM_NOREMOVE)] on thread
    [t]: the system creates the message queue of the calling thread when
    it has none; nothing is removed. *)
Definition PeekMessage (t : nat) (s : State) : State :=
  with_threads (alter make_queue t) s.

(** The thread a message posted to the identifier [id] reaches: a running
    thread that has a message queue. *)
Definition receiver (id : nat) (s : State) : option nat :=
  t ← thread_of_id id;
  th ← threads s !! t;
  if th_alive th && bool_decide (is_Some (th_queue th)) then Some t else None.

Definition enqueue (m : MSG) (th : Thread) : Thread :=
  mkThread (th_this th) (th_pc th) (th_alive th)
           ((λ q, q ++ [m]) <$> th_queue th) (th_posted th ++ [m])
           (th_got th).

(** [::PostThreadMessage(tid, msg, wParam, 0)]: fails when [tid] is not
    the identifier of a running thread or that thread has no message
    queue. *)
Definition PostThreadMessage (tid : nat) (m : MSG) (s : State)
    : bool * State :=
  (bool_decide (is_Some (receiver tid s)),
   with_threads
     (match receiver tid s with
      | Some t => alter (enqueue m) t
      | None => id
      end) s).

Definition kill (th : Thread) : Thread :=
  mkThread (th_this th) (th_pc th) false None (th_posted th) (th_got th).

(** [::TerminateThread(h, 1)]: the thread behind [h] stops where it is
    and its queue is gone. *)
Definition TerminateThread (h : Z) (s : State) : State :=
  with_threads
    (match thread_of h s with
     | Some t => alter kill t
     | None => id
     end) s.

End Win32.

(** ** Labels *)

Inductive Actor : Type :=
  | Coordinator (c : nat)
  | Worker (t : nat).

(** [WaitForSingleObject(h, MAX_WAIT_TIME)].  The call returns at once
    when the object is signaled or the handle is bad; on an object that is
    not signaled the caller stays blocked ([None] under [Go]) unless the
    environment lets [MAX_WAIT_TIME] run out. *)
Definition WaitForSingleObject (h : Z) (ch : Choice) (s : State)
    : option Win32.WaitStatus :=
  match Win32.probe h s, ch with
  | Win32.WAIT_OBJECT_0, Go => Some Win32.WAIT_OBJECT_0
  | Win32.WAIT_FAILED, Go => Some Win32.WAIT_FAILED
  | Win32.WAIT_TIMEOUT, Timeout => Some Win32.WAIT_TIMEOUT
  | _, _ => None
  end.

Definition is_WAIT_OBJECT_0 (r : Win32.WaitStatus) : bool :=
  match r with Win32.WAIT_OBJECT_0 => true | _ => false end.

Definition is_WAIT_TIMEOUT (r : Win32.WaitStatus) : bool :=
  match r with Win32.WAIT_TIMEOUT => true | _ => false end.

(** ** Member updates *)

Definition set_hThreadStarted (h : Z) (tw : ThreadWin) : ThreadWin :=
  mkThreadWin (THREAD_NAME tw) (SYNC_START tw) h (m_hThreadExited tw)
              (m_hThread tw) (m_threadId tw).
Definition set_hThreadExited (h : Z) (tw : ThreadWin) : ThreadWin :=
  mkThreadWin (THREAD_NAME tw) (SYNC_START tw) (m_hThreadStarted tw) h
              (m_hThread tw) (m_threadId tw).
Definition set_hThread (h : Z) (tw : ThreadWin) : ThreadWin :=
  mkThreadWin (THREAD_NAME tw) (SYNC_START tw) (m_hThreadStarted tw)
              (m_hThreadExited tw) h (m_threadId tw).
Definition set_threadId (id : nat) (tw : ThreadWin) : ThreadWin :=
  mkThreadWin (THREAD_NAME tw) (SYNC_START tw) (m_hThreadStarted tw)
              (m_hThreadExited tw) (m_hThread tw) id.

Definition assign (this : nat) (f : ThreadWin → ThreadWin) (s : State) : State :=
  with_objs (alter f this) s.

Definition set_c_pc (pc : CoordPc) (co : Coord) : Coord :=
  mkCoord pc (c_script co) (c_threadMsg co) (c_rets co).
Definition pop_call (co : Coord) : Coord :=
  mkCoord (c_pc co) (tail (c_script co)) (c_threadMsg co) (c_rets co).
Definition set_threadMsg (p : Z) (co : Coord) : Coord :=
  mkCoord (c_pc co) (c_script co) p (c_rets co).
Definition give_back (r : Ret) (co : Coord) : Coord :=
  mkCoord PC_Idle (c_script co) (c_threadMsg co) (c_rets co ++ [r]).

(** Control moves on only while the fault handler has not been entered:
    a thread whose assertion has failed stays where it is. *)
Definition running (s : State) : bool :=
  match fault s with
  | None => true
  | Some _ => false
  end.

(** Coordinator [c] moves to [pc]. *)
Definition goto (c : nat) (pc : CoordPc) (s : State) : State :=
  with_coords (if running s then alter (set_c_pc pc) c else id) s.

(** The call coordinator [c] is in returns [r] to its caller. *)
Definition returns (c : nat) (r : Ret) (s : State) : State :=
  with_coords (if running s then alter (give_back r) c else id) s.

Definition set_th_pc (pc : RunPc) (th : Thread) : Thread :=
  mkThread (th_this th) pc (th_alive th) (th_queue th) (th_posted th)
           (th_got th).

(** Thread [t] moves to [pc]. *)
Definition jump (t : nat) (pc : RunPc) (s : State) : State :=
  with_threads (if running s then alter (set_th_pc pc) t else id) s.

(** ** The member functions of [ThreadWin] *)

(** Modelled from the spec: [IsCreated] is declared in [ThreadWin.h], which
    is not part of the sources.  The spec has the thread handle "valid from
    successful create() until destroy()/join completes, after which it is
    invalidated"; the test is the one [ExitThread] makes at line 309. *)
Definition IsCreated (tw : ThreadWin) : bool :=
  bool_decide (m_hThread tw ≠ INVALID_HANDLE_VALUE).

(** [ThreadWin::CreateThread], lines 220-243, for coordinator [c] on the
    instance [this], one step from program point [pc]. *)
Definition CreateThread (c this : nat) (pc : CreatePc) (ch : Choice)
    (s : State) : option State :=
  tw ← objs s !! this;
  match pc, ch with
  | CT_Enter, Go =>
      if negb (IsCreated tw)
      then Some (goto c (InCreateThread this CT_CreateEvent) s)
      else Some (returns c (RetCreateThread this FALSE) s)
  | CT_CreateEvent, _ =>
      '(h, s1) ← Win32.CreateEvent "ThreadCreatedEvent" ch s;
      Some (goto c (InCreateThread this CT_Spawn)
              (assign this (set_hThreadStarted h) s1))
  | CT_Spawn, _ =>
      '(h, id, s1) ← Win32.CreateThread this (m_threadId tw) ch s;
      Some (goto c (InCreateThread this CT_Wait)
              (ASSERT_TRUE 231 (bool_decide (h ≠ NULL))
                 (assign this (set_threadId id)
                    (assign this (set_hThread h) s1))))
  | CT_Wait, _ =>
      err ← WaitForSingleObject (m_hThreadStarted tw) ch s;
      Some (goto c (InCreateThread this CT_Close)
              (ASSERT_TRUE 235 (is_WAIT_OBJECT_0 err) s))
  | CT_Close, Go =>
      Some (goto c (InCreateThread this CT_Invalidate)
              (Win32.CloseHandle (m_hThreadStarted tw) s))
  | CT_Invalidate, Go =>
      Some (goto c (InCreateThread this CT_Return)
              (assign this (set_hThreadStarted INVALID_HANDLE_VALUE) s))
  | CT_Return, Go =>
      Some (returns c
              (RetCreateThread this
                 (if bool_decide (m_hThread tw ≠ NULL) then TRUE else FALSE))
              s)
  | _, _ => None
  end.

(** Modelled from the spec: the body of [ThreadWin::PostThreadMessage] is
    not part of the sources.  The spec has it enqueue [(tag, payload)] into
    the queue of the thread and, when the thread no longer exists, fail
    with "an explicit failure result" and without a crash. *)
Definition PostThreadMessage (this : nat) (msg : MsgId) (data : Z)
    (s : State) : option (bool * State) :=
  tw ← objs s !! this;
  Some (Win32.PostThreadMessage (m_threadId tw) (mkMSG msg data) s).

(** [ThreadWin::StartAllThreads], lines 298-302. *)
Definition StartAllThreads (s : State) : State :=
  let '(err, s1) := Win32.SetEvent (m_hStartAllThreads s) s in
  ASSERT_TRUE 301 err (with_releases S s1).

(** [ThreadWin::ExitThread], lines 307-325. *)
Definition ExitThread (c this : nat) (pc : ExitPc) (ch : Choice)
    (s : State) : option State :=
  tw ← objs s !! this;
  match pc, ch with
  | ET_Enter, Go =>
      if bool_decide (m_hThread tw ≠ INVALID_HANDLE_VALUE)
      then Some (goto c (InExitThread this ET_CreateEvent) s)
      else Some (returns c (RetExitThread this) s)
  | ET_CreateEvent, _ =>
      '(h, s1) ← Win32.CreateEvent "ThreadExitedEvent" ch s;
      Some (goto c (InExitThread this ET_Post)
              (assign this (set_hThreadExited h) s1))
  | ET_Post, Go =>
      '(_, s1) ← PostThreadMessage this WM_EXIT_THREAD NULL s;
      Some (goto c (InExitThread this ET_Wait) s1)
  | ET_Wait, _ =>
      err ← WaitForSingleObject (m_hThreadExited tw) ch s;
      if is_WAIT_TIMEOUT err
      then Some (goto c (InExitThread this ET_Terminate) s)
      else Some (goto c (InExitThread this ET_CloseThread) s)
  | ET_Terminate, Go =>
      Some (goto c (InExitThread this ET_CloseThread)
              (Win32.TerminateThread (m_hThread tw) s))
  | ET_CloseThread, Go =>
      Some (goto c (InExitThread this ET_InvalThread)
              (Win32.CloseHandle (m_hThread tw) s))
  | ET_InvalThread, Go =>
      Some (goto c (InExitThread this ET_CloseExited)
              (assign this (set_hThread INVALID_HANDLE_VALUE) s))
  | ET_CloseExited, Go =>
      Some (goto c (InExitThread this ET_InvalExited)
              (Win32.CloseHandle (m_hThreadExited tw) s))
  | ET_InvalExited, Go =>
      Some (returns c (RetExitThread this)
              (assign this (set_hThreadExited INVALID_HANDLE_VALUE) s))
  | _, _ => None
  end.

(** ** The work loop and the thread entry function *)

(** [GetMessage(&msg, NULL, WM_USER_BEGIN, WM_USER_END)] on thread [t]:
    the oldest message of the queue is removed and handed to the caller;
    on an empty queue the caller stays blocked.  No message of the model
    makes the call return [0] or [-1]: the programs of the model post
    identifiers of the range [WM_USER_BEGIN .. WM_USER_END] only.
    [WM_QUIT], on which [GetMessage] returns [0] and the loop ends at
    line 52, and identifiers outside the range, which the filter leaves
    in the queue, are not modelled, and nothing below says what the work
    loop does with them. *)
Definition dequeue (th : Thread) : Thread :=
  mkThread (th_this th) (th_pc th) (th_alive th) (tail <$> th_queue th)
           (th_posted th) (th_got th ++ option_list (th_queue th ≫= head)).

Definition GetMessage (t : nat) (s : State) : option (MSG * State) :=
  th ← threads s !! t;
  q ← th_queue th;
  msg ← head q;
  Some (msg, with_threads (alter dequeue t) s).

(** [WorkerThread::Process], lines 22-53: one turn of the [while] loop on
    thread [t], whose instance has the name [name]. *)
Definition Process (t : nat) (name : string) (s : State) : option State :=
  '(msg, s1) ← GetMessage t s;
  match message msg with
  | WM_THREAD_MSG =>
      if bool_decide (wParam msg ≠ NULL)
      then match heap s1 !! wParam msg with
           | Some text =>
               Some (with_heap (delete (wParam msg))
                       (with_cout (λ out, out ++ [(text, name)]) s1))
           | None => Some (with_fault (Some DanglingPayload) s1)
           end
      else Some (ASSERT_TRUE 32 false s1)
  | WM_EXIT_THREAD => Some (jump t RP_SetExited s1)
  | WM_USER_OTHER _ => Some (ASSERT 49 s1)
  end.

Definition finish (th : Thread) : Thread :=
  mkThread (th_this th) RP_Exited false None (th_posted th) (th_got th).

(** The thread has returned from its entry function. *)
Definition thread_ends (t : nat) (s : State) : State :=
  with_threads (alter finish t) s.

(** [ThreadWin::RunProcess], lines 260-293, on thread [t].  The first
    step takes lines 264 to 270: the instance the thread runs for is
    [th_this] (see [Win32.CreateThread]), then [PeekMessage]. *)
Definition RunProcess (t : nat) (ch : Choice) (s : State) : option State :=
  th ← threads s !! t;
  if negb (th_alive th) then None else
  tw ← objs s !! th_this th;
  match th_pc th, ch with
  | RP_PeekMessage, Go =>
      Some (jump t RP_SetStarted (Win32.PeekMessage t s))
  | RP_SetStarted, Go =>
      let '(err, s1) := Win32.SetEvent (m_hThreadStarted tw) s in
      Some (jump t (if SYNC_START tw then RP_WaitStart else RP_Process)
              (ASSERT_TRUE 274 err s1))
  | RP_WaitStart, _ =>
      err ← WaitForSingleObject (m_hStartAllThreads s) ch s;
      Some (jump t RP_Process (ASSERT_TRUE 282 (is_WAIT_OBJECT_0 err) s))
  | RP_Process, Go => Process t (THREAD_NAME tw) s
  | RP_SetExited, Go =>
      let '(err, s1) := Win32.SetEvent (m_hThreadExited tw) s in
      Some (jump t RP_Return (ASSERT_TRUE 290 err s1))
  | RP_Return, Go => Some (thread_ends t s)
  | _, _ => None
  end.

(** ** Coordinators *)

Definition data_of (co : Coord) (d : Data) : Z :=
  match d with
  | DataNull => NULL
  | DataThreadMsg => c_threadMsg co
  end.

(** [threadMsg = new ThreadMsg(); threadMsg->message = text;] with [new]
    returning the address [p]. *)
Definition NewThreadMsg (c : nat) (text : string) (p : Z) (s : State)
    : option State :=
  if bool_decide (p ≠ NULL) && bool_decide (heap s !! p = None)
  then Some (with_coords (alter (set_threadMsg p) c)
               (with_heap (<[p := text]>) s))
  else None.

(** One step of coordinator [c]: the next statement of the member function
    it is in, or the next call of its program. *)
Definition coord_step (c : nat) (ch : Choice) (s : State) : option State :=
  co ← coords s !! c;
  match c_pc co with
  | PC_Idle =>
      call ← head (c_script co);
      let s0 := with_coords (alter pop_call c) s in
      match call, ch with
      | CallCreateThread o, _ => CreateThread c o CT_Enter ch s0
      | CallStartAllThreads, Go => Some (StartAllThreads s0)
      | CallNewThreadMsg text, Fresh p => NewThreadMsg c text p s0
      | CallPostThreadMessage o msg d, Go =>
          '(ok, s1) ← PostThreadMessage o msg (data_of co d) s0;
          Some (returns c
                  (RetPostThreadMessage o (mkMSG msg (data_of co d)) ok) s1)
      | CallSleep, Go => Some s0
      | CallExitThread o, _ => ExitThread c o ET_Enter ch s0
      | _, _ => None
      end
  | InCreateThread o pc => CreateThread c o pc ch s
  | InExitThread o pc => ExitThread c o pc ch s
  end.

(** ** The transition system *)

Definition Label : Type := Actor * Choice.

(** Once the fault handler has been entered nothing moves any more. *)
Definition step (l : Label) (s : State) : option State :=
  match fault s with
  | Some _ => None
  | None =>
      match l with
      | (Coordinator c, ch) => coord_step c ch s
      | (Worker t, ch) => RunProcess t ch s
      end
  end.

Fixpoint run (tr : list Label) (s : State) : option State :=
  match tr with
  | [] => Some s
  | l :: tr' =>
      match step l s with
      | Some s' => run tr' s'
      | None => None
      end
  end.

(** Modelled from the spec: the constructor of [ThreadWin] is not part of
    the sources.  A handle member holds [INVALID_HANDLE_VALUE] while it
    designates nothing (as lines 238, 320 and 323 leave it), and the
    exit event is "created lazily at requestExit() time". *)
Definition new_ThreadWin (name : string) (syncStart : bool) : ThreadWin :=
  mkThreadWin name syncStart INVALID_HANDLE_VALUE INVALID_HANDLE_VALUE
              INVALID_HANDLE_VALUE 0.

(** Modelled from the spec: the definition of the static member
    [m_hStartAllThreads] is not part of the sources.  The spec has "one
    process-wide wait object, created once at process start", manually
    reset and not signaled; [hStart] is the value of its handle.

    The process at its start: the instances [ws] (name and [syncStart]) are
    constructed, no thread has been created, and coordinator number [i]
    is about to run the program [progs !! i]. *)
Definition boot (hStart : Z) (ws : list (string * bool))
    (progs : list (list Call)) : State :=
  mkState {[hStart := KEvent 0]} [mkEvent "StartAllThreadsEvent" false 1] []
          ((λ w, new_ThreadWin w.1 w.2) <$> ws)
          ((λ p, mkCoord PC_Idle p NULL []) <$> progs)
          ∅ [] None 0 hStart.

(** [main], lines 64-94, with [workerThread1] and [workerThread2] as
    instances 0 and 1. *)
Definition main : list Call :=
  [ CallCreateThread 0;
    CallCreateThread 1;
    CallStartAllThreads;
    CallNewThreadMsg "Hello world!";
    CallPostThreadMessage 0 WM_THREAD_MSG DataThreadMsg;
    CallNewThreadMsg "Hello world!";
    CallPostThreadMessage 1 WM_THREAD_MSG DataThreadMsg;
    CallSleep;
    CallExitThread 0;
    CallExitThread 1 ].

(** The two global [WorkerThread] instances, lines 58-59; the constructor
    of [WorkerThread] leaves [syncStart] at its default, [TRUE]. *)
Definition workers : list (string * bool) :=
  [("WorkerThread1", true); ("WorkerThread2", true)].

(** States the process can be in. *)
Definition reachable (hStart : Z) (ws : list (string * bool))
    (progs : list (list Call)) (s : State) : Prop :=
  ∃ tr, run tr (boot hStart ws progs) = Some s.

(** * Invariants

    What holds in every state the process can be in. *)

(** The program points of [RunProcess] behind the barrier wait: the work
    loop and what follows it. *)
Definition past_barrier (pc : RunPc) : bool :=
  match pc with
  | RP_Process | RP_SetExited | RP_Return | RP_Exited => true
  | _ => false
  end.

(** No handle member of the instance holds the value [h]. *)
Definition members_differ (h : Z) (tw : ThreadWin) : Prop :=
  m_hThreadStarted tw ≠ h ∧ m_hThreadExited tw ≠ h ∧ m_hThread tw ≠ h.

(** The shared start event: [m_hStartAllThreads] is the one handle of
    event object 0, which is signaled exactly when [StartAllThreads] has
    been called; no instance holds that handle value in a member; every
    thread belongs to an instance; a thread of a synchronized instance is
    behind the barrier only after a call of [StartAllThreads]. *)
Record start_inv (s : State) : Prop := mkStartInv {
  si_valid : m_hStartAllThreads s ≠ NULL
             ∧ m_hStartAllThreads s ≠ INVALID_HANDLE_VALUE;
  si_handle : handles s !! m_hStartAllThreads s = Some (KEvent 0);
  si_only : ∀ h, handles s !! h = Some (KEvent 0) → h = m_hStartAllThreads s;
  si_event : ∃ ev, events s !! 0 = Some ev
                   ∧ ev_name ev = "StartAllThreadsEvent"
                   ∧ (ev_signaled ev = true ↔ releases s ≠ 0);
  si_members : ∀ o tw, objs s !! o = Some tw →
                 members_differ (m_hStartAllThreads s) tw;
  si_this : ∀ t th, threads s !! t = Some th → is_Some (objs s !! th_this th);
  si_barrier : ∀ t th tw,
      threads s !! t = Some th → objs s !! th_this th = Some tw →
      SYNC_START tw = true → past_barrier (th_pc th) = true →
      releases s ≠ 0
}.

(** Thread updates that leave every thread where it is. *)
Definition same_control (ths ths' : list Thread) : Prop :=
  ∀ t th', ths' !! t = Some th' →
    ∃ th, ths !! t = Some th ∧ th_this th = th_this th'
          ∧ th_pc th = th_pc th'.


(** Every member [m_hThread] is non-null while the process runs. *)
Definition spawned_inv (s : State) : Prop :=
  fault s = None → ∀ o tw, objs s !! o = Some tw → m_hThread tw ≠ NULL.

(** The queue of a thread holds exactly the accepted messages the work
    loop has not got yet, in the order of their arrival; a thread without
    a queue has either not been posted to at all or has ended. *)
Definition queue_ok (th : Thread) : Prop :=
  match th_queue th with
  | Some q => th_posted th = th_got th ++ q
  | None =>
      (th_alive th = true → th_posted th = [] ∧ th_got th = [])
      ∧ ∃ rest, th_posted th = th_got th ++ rest
  end.

Definition queue_inv (s : State) : Prop :=
  ∀ t th, threads s !! t = Some th → queue_ok th.

(** The instance a lifecycle call ([CreateThread], [ExitThread]) is made
    on. *)
Definition lifecycle_object (call : Call) : option nat :=
  match call with
  | CallCreateThread o | CallExitThread o => Some o
  | _ => None
  end.

Definition pc_object (pc : CoordPc) : option nat :=
  match pc with
  | PC_Idle => None
  | InCreateThread this _ | InExitThread this _ => Some this
  end.

(** The coordinator is inside a lifecycle call on instance [o] or has one
    ahead of it. *)
Definition uses (o : nat) (co : Coord) : Prop :=
  pc_object (c_pc co) = Some o
  ∨ ∃ call, call ∈ c_script co ∧ lifecycle_object call = Some o.

(** What the coordinator that makes the lifecycle calls on an instance
    knows about its members [tw] at each of its program points. *)
Definition owner_ok (o : nat) (co : Coord) (tw : ThreadWin) : Prop :=
  match c_pc co with
  | PC_Idle =>
      m_hThreadExited tw = INVALID_HANDLE_VALUE
      ∧ (last (c_rets co) = Some (RetExitThread o) →
         m_hThread tw = INVALID_HANDLE_VALUE)
  | InCreateThread _ _ => m_hThreadExited tw = INVALID_HANDLE_VALUE
  | InExitThread this pc =>
      if decide (this = o)
      then match pc with
           | ET_Enter | ET_CreateEvent =>
               m_hThreadExited tw = INVALID_HANDLE_VALUE
           | ET_CloseExited | ET_InvalExited =>
               m_hThread tw = INVALID_HANDLE_VALUE
           | _ => True
           end
      else m_hThreadExited tw = INVALID_HANDLE_VALUE
  end.


(** Coordinator [c] makes all the lifecycle calls on instance [o]: no
    other coordinator uses [o], and [c] knows the members of [o]. *)
Definition ownership_inv (c o : nat) (s : State) : Prop :=
  ∀ c1 co1, coords s !! c1 = Some co1 →
    if decide (c1 = c)
    then ∃ tw, objs s !! o = Some tw ∧ owner_ok o co1 tw
    else ¬ uses o co1.

(** What one step inside a member function does to the coordinator that
    takes it, to the other coordinators and to the instances. *)
Definition local_effect (c1 this : nat) (o : nat) (co1 : Coord)
    (s s' : State) : Prop :=
  (∀ c2, c2 ≠ c1 → coords s' !! c2 = coords s !! c2)
  ∧ (o ≠ this → objs s' !! o = objs s !! o)
  ∧ ∃ co1', coords s' !! c1 = Some co1'
      ∧ c_script co1' = c_script co1
      ∧ (c_pc co1' = c_pc co1 ∨ pc_object (c_pc co1') = Some this
         ∨ c_pc co1' = PC_Idle)
      ∧ ∀ tw, objs s !! o = Some tw → owner_ok o co1 tw →
          ∃ tw', objs s' !! o = Some tw' ∧ owner_ok o co1' tw'.


(** What a step of coordinator [c1] does, seen from instance [o]. *)
Definition coord_effect (c1 o : nat) (co1 : Coord) (s s' : State) : Prop :=
  (∀ c2, c2 ≠ c1 → coords s' !! c2 = coords s !! c2)
  ∧ ∃ co1', coords s' !! c1 = Some co1'
      ∧ (¬ uses o co1 → ¬ uses o co1' ∧ objs s' !! o = objs s !! o)
      ∧ ∀ tw, objs s !! o = Some tw → owner_ok o co1 tw →
          ∃ tw', objs s' !! o = Some tw' ∧ owner_ok o co1' tw'.



Definition no_stop (l : list MSG) : Prop :=
  Forall (λ m, message m ≠ WM_EXIT_THREAD) l.

(** What the work loop has got so far: nothing before it starts, no stop
    message while it runs, and exactly one stop message, the last message
    it got, once it has returned. *)
Definition loop_ok (th : Thread) : Prop :=
  match th_pc th with
  | RP_PeekMessage | RP_SetStarted | RP_WaitStart => th_got th = []
  | RP_Process => no_stop (th_got th)
  | _ => ∃ l w, th_got th = l ++ [mkMSG WM_EXIT_THREAD w] ∧ no_stop l
  end.

Definition loop_inv (s : State) : Prop :=
  ∀ t th, threads s !! t = Some th → loop_ok th.


(** The kernel objects and the instances are the same in both states. *)
Definition same_objects (s s' : State) : Prop :=
  handles s' = handles s ∧ events s' = events s ∧ threads s' = threads s
  ∧ objs s' = objs s ∧ heap s' = heap s ∧ fault s' = fault s.

Definition pc_of (c : nat) (s : State) : option CoordPc :=
  c_pc <$> coords s !! c.


(** The steps of coordinator [c] from the timeout of the wait in
    [ExitThread] to the return of the call. *)
Definition forced_teardown (c : nat) : list Label :=
  (Coordinator c, Timeout) :: replicate 5 (Coordinator c, Go).


(** The messages the work loop of [th] has got are the first of those its
    queue accepted, in the same order; the others are those still in the
    queue, while there is one. *)
Definition got_in_order (th : Thread) : Prop :=
  ∃ rest, th_posted th = th_got th ++ rest
          ∧ ∀ q, th_queue th = Some q → rest = q.

(** A step of a coordinator leaves every [ThreadMsg] on the heap as it is. *)
Definition payloads_untouched (s : State) : Prop :=
  ∀ c ch s' p text,
    step (Coordinator c, ch) s = Some s' →
    heap s !! p = Some text → heap s' !! p = Some text.

(** A step of a coordinator does not depend on what the [ThreadMsg]
    objects on the heap hold: with other contents at the same addresses
    it is the same step. *)
Definition payloads_unread (s : State) : Prop :=
  ∀ c ch h',
    dom h' = dom (heap s) →
    match step (Coordinator c, ch) s,
          step (Coordinator c, ch) (with_heap (λ _, h') s) with
    | Some s1, Some s2 =>
        ∃ h2, s2 = with_heap (λ _, h2) s1 ∧ dom h2 = dom (heap s1)
              ∧ ∀ p, heap s !! p = None → heap s1 !! p = h2 !! p
    | None, None => True
    | _, _ => False
    end.

(** A post of the program names the payload: when it is accepted, the
    message with the tag and the payload of the call is the new last
    entry of the queue of the thread [m_threadId] names, and of what that
    queue has accepted; when it is refused, no queue changes.  The caller
    gets the result, and the heap is as before. *)
Definition post_enqueues (s : State) : Prop :=
  ∀ c co o tw msg d rest,
    fault s = None → coords s !! c = Some co → c_pc co = PC_Idle →
    c_script co = CallPostThreadMessage o msg d :: rest →
    objs s !! o = Some tw →
    ∃ s' ok,
      step (Coordinator c, Go) s = Some s'
      ∧ coords s' !! c
        = Some (mkCoord PC_Idle rest (c_threadMsg co)
                  (c_rets co
                   ++ [RetPostThreadMessage o (mkMSG msg (data_of co d)) ok]))
      ∧ heap s' = heap s
      ∧ if ok
        then ∃ t th q,
               m_threadId tw = S t ∧ threads s !! t = Some th
               ∧ th_alive th = true ∧ th_queue th = Some q
               ∧ threads s' !! t
                 = Some (mkThread (th_this th) (th_pc th) true
                           (Some (q ++ [mkMSG msg (data_of co d)]))
                           (th_posted th ++ [mkMSG msg (data_of co d)])
                           (th_got th))
               ∧ ∀ t', t' ≠ t → threads s' !! t' = threads s !! t'
        else threads s' = threads s.

(** The work loop takes the oldest message of its queue; when that is a
    work item whose payload [p] is on the heap, the loop has got the item
    with this payload, prints the text and deletes the payload. *)
Definition work_item_received (s : State) : Prop :=
  ∀ t th tw p q text,
    fault s = None →
    threads s !! t = Some th → th_alive th = true → th_pc th = RP_Process →
    objs s !! th_this th = Some tw →
    th_queue th = Some (mkMSG WM_THREAD_MSG p :: q) →
    p ≠ NULL → heap s !! p = Some text →
    ∃ s', step (Worker t, Go) s = Some s' ∧ fault s' = None
          ∧ heap s' = delete p (heap s)
          ∧ cout s' = cout s ++ [(text, THREAD_NAME tw)]
          ∧ threads s' !! t
            = Some (mkThread (th_this th) RP_Process true (Some q)
                      (th_posted th) (th_got th ++ [mkMSG WM_THREAD_MSG p])).

(** A thread that has ended in [s], by itself or by [TerminateThread],
    has ended in [s'] and has got nothing more. *)
Definition ended_kept (s s' : State) : Prop :=
  ∀ t th, threads s !! t = Some th → th_alive th = false →
    ∃ th', threads s' !! t = Some th' ∧ th_alive th' = false
           ∧ th_got th' = th_got th.

(** What is still in the queue when the thread ends is never received. *)
Definition ended_gets_nothing (s : State) : Prop :=
  ∀ tr s', run tr s = Some s' → ended_kept s s'.


(** ** The handshake with one coordinator *)

(** The thread has been started and has not yet set its created-event. *)
Definition fresh (th : Thread) : bool :=
  th_alive th &&
  match th_pc th with
  | RP_PeekMessage | RP_SetStarted => true
  | _ => false
  end.

Definition no_fresh (s : State) : Prop :=
  ∀ t th, threads s !! t = Some th → fresh th = false.

Definition has_fresh (s : State) : Prop :=
  ∃ t th, threads s !! t = Some th ∧ fresh th = true.

(** The only event object of the name "ThreadCreatedEvent" that exists is
    the one with index [e], when there is one at all. *)
Definition created_only (e : option nat) (s : State) : Prop :=
  ∀ e' ev', events s !! e' = Some ev' →
    ev_name ev' = "ThreadCreatedEvent" → ev_open ev' ≠ 0 → e = Some e'.

(** The member [m_hThreadStarted] of instance [o] during [CreateThread]:
    the one handle of the one created-event (not signaled as long as
    [clear] holds), or [NULL] when [CreateEvent] has failed. *)
Definition started_ok (clear : Prop) (o : nat) (s : State) : Prop :=
  ∃ tw, objs s !! o = Some tw ∧
    ((m_hThreadStarted tw = NULL ∧ created_only None s)
     ∨ ∃ e ev, handles s !! m_hThreadStarted tw = Some (KEvent e)
         ∧ events s !! e = Some ev ∧ ev_open ev = 1
         ∧ (clear → ev_signaled ev = false)
         ∧ created_only (Some e) s).

(** What holds while the only coordinator is at [pc]. *)
Definition handshake_at (pc : CoordPc) (s : State) : Prop :=
  match pc with
  | InCreateThread o CT_Spawn => no_fresh s ∧ started_ok True o s
  | InCreateThread o CT_Wait =>
      (∀ t th, threads s !! t = Some th → fresh th = true →
               S t = length (threads s) ∧ th_this th = o)
      ∧ started_ok (has_fresh s) o s
  | InCreateThread o CT_Close => no_fresh s ∧ started_ok False o s
  | _ => no_fresh s ∧ created_only None s
  end.

(** A running thread without a message queue has not called
    [PeekMessage] yet. *)
Definition queue_made (th : Thread) : Prop :=
  th_alive th = true → th_queue th = None → th_pc th = RP_PeekMessage.

Definition handshake_base (s : State) : Prop :=
  handles s !! NULL = None
  ∧ handles s !! INVALID_HANDLE_VALUE = None
  ∧ ∀ t th, threads s !! t = Some th → queue_made th.

Definition handshake_inv (s : State) : Prop :=
  length (coords s) = 1
  ∧ handshake_base s
  ∧ ∃ co, coords s !! 0 = Some co ∧ handshake_at (c_pc co) s.

(** No thread of [s'] is fresh that was not fresh in [s]. *)
Definition no_new_fresh (s s' : State) : Prop :=
  length (threads s') = length (threads s)
  ∧ ∀ t th', threads s' !! t = Some th' →
      ∃ th, threads s !! t = Some th ∧ th_this th' = th_this th
            ∧ (fresh th' = true → fresh th = true).

(** No created-event exists in [s'] that did not exist in [s]. *)
Definition no_new_created (s s' : State) : Prop :=
  ∀ e ev', events s' !! e = Some ev' →
    ev_name ev' = "ThreadCreatedEvent" → ev_open ev' ≠ 0 →
    ∃ ev, events s !! e = Some ev ∧ ev_name ev = "ThreadCreatedEvent"
          ∧ ev_open ev ≠ 0.

(** The program points at which no created-event exists. *)
Definition quiet (pc : CoordPc) : bool :=
  match pc with
  | InCreateThread _ (CT_Spawn | CT_Wait | CT_Close) => false
  | _ => true
  end.

(** What holds at the quiet program points. *)
Definition quiet_ok (s : State) : Prop :=
  handshake_base s ∧ no_fresh s ∧ created_only None s.

(** ** Threads and their instances *)

(** From [s] to [s'] every instance keeps its name and its [SYNC_START],
    and its [m_threadId] changes only to the identifier of a thread that
    has just been started for it. *)
Definition objs_kept (s s' : State) : Prop :=
  ∀ o tw', objs s' !! o = Some tw' →
    ∃ tw, objs s !! o = Some tw
      ∧ THREAD_NAME tw' = THREAD_NAME tw ∧ SYNC_START tw' = SYNC_START tw
      ∧ (m_threadId tw' = m_threadId tw
         ∨ (m_threadId tw' = S (length (threads s))
            ∧ ∃ th, threads s' !! length (threads s) = Some th
                    ∧ th_this th = o)).

(** Every thread of [s] is a thread of [s'], for the same instance. *)
Definition threads_kept (s s' : State) : Prop :=
  ∀ t th, threads s !! t = Some th →
    ∃ th', threads s' !! t = Some th' ∧ th_this th' = th_this th.

(** A thread that waits at the barrier in [s'] did so in [s], or belongs
    to a synchronized instance. *)
Definition barrier_kept (s s' : State) : Prop :=
  ∀ t th', threads s' !! t = Some th' → th_pc th' = RP_WaitStart →
    ∃ tw, objs s !! th_this th' = Some tw
      ∧ (SYNC_START tw = true
         ∨ ∃ th, threads s !! t = Some th ∧ th_this th = th_this th'
                 ∧ th_pc th = RP_WaitStart).

(** The instances are as they were constructed, the identifier in
    [m_threadId] is that of a thread started for the instance, and only
    threads of synchronized instances wait at the barrier. *)
Record binding_inv (ws : list (string * bool)) (s : State) : Prop :=
  mkBindingInv {
  bi_config : ∀ o tw, objs s !! o = Some tw →
                ws !! o = Some (THREAD_NAME tw, SYNC_START tw);
  bi_id : ∀ o tw t, objs s !! o = Some tw → m_threadId tw = S t →
            ∃ th, threads s !! t = Some th ∧ th_this th = o;
  bi_this : ∀ t th, threads s !! t = Some th → is_Some (objs s !! th_this th);
  bi_barrier : ∀ t th tw, threads s !! t = Some th →
                 objs s !! th_this th = Some tw →
                 th_pc th = RP_WaitStart → SYNC_START tw = true
}.

(** ** Intended use *)











(** The only event object of the name "ThreadExitedEvent" that exists is
    the one with index [e], when there is one at all. *)
Definition exit_only (e : option nat) (s : State) : Prop :=
  ∀ e' ev', events s !! e' = Some ev' →
    ev_name ev' = "ThreadExitedEvent" → ev_open ev' ≠ 0 → e = Some e'.

(** The exit event while the coordinator is at [pc]: it exists from line
    311 to line 322 of [ExitThread] and at no other time. *)
Definition exit_at (pc : CoordPc) (s : State) : Prop :=
  match pc with
  | InExitThread o ET_Post =>
      ∃ tw e ev, objs s !! o = Some tw
        ∧ handles s !! m_hThreadExited tw = Some (KEvent e)
        ∧ events s !! e = Some ev ∧ ev_open ev = 1
        ∧ ev_signaled ev = false ∧ exit_only (Some e) s
  | InExitThread o (ET_Wait | ET_Terminate | ET_CloseThread
                    | ET_InvalThread | ET_CloseExited) =>
      ∃ tw, objs s !! o = Some tw
        ∧ (exit_only None s
           ∨ ∃ e ev, handles s !! m_hThreadExited tw = Some (KEvent e)
               ∧ events s !! e = Some ev ∧ ev_open ev = 1
               ∧ exit_only (Some e) s)
  | _ => exit_only None s
  end.



(** Thread updates that put nothing into the queue. *)
Definition keeps_queue (f : Thread → Thread) : Prop :=
  ∀ th q' i m, th_queue (f th) = Some q' → q' !! i = Some m →
    ∃ q, th_queue th = Some q ∧ q !! i = Some m.

(** Thread updates that take the oldest message out of the queue. *)
Definition pops_queue (f : Thread → Thread) : Prop :=
  ∀ th, th_queue (f th) = tail <$> th_queue th.

(** ** The end of the handshake *)

(** While the coordinator waits at line 234, the thread it has started
    has not yet passed the [SetEvent] of line 273, or the wait is over. *)
Definition wait_inv (s : State) : Prop :=
  ∀ co o tw,
    coords s !! 0 = Some co → c_pc co = InCreateThread o CT_Wait →
    objs s !! o = Some tw →
    has_fresh s ∨ Win32.probe (m_hThreadStarted tw) s = Win32.WAIT_OBJECT_0.

(** A thread update that starts no thread again. *)
Definition keeps_dead (f : Thread → Thread) : Prop :=
  ∀ th, th_alive th = false → th_alive (f th) = false.

(** What is signaled in [s] is signaled in [s']: the handles are the
    same, no event has been reset and no thread that has ended runs. *)
Definition signals_kept (s s' : State) : Prop :=
  handles s' = handles s
  ∧ (∀ e ev, events s !! e = Some ev →
       ∃ ev', events s' !! e = Some ev'
              ∧ (ev_signaled ev = true → ev_signaled ev' = true))
  ∧ (∀ t th, threads s !! t = Some th →
       ∃ th', threads s' !! t = Some th'
              ∧ (th_alive th = false → th_alive th' = false)).

(** ** Events between calls *)

(** The exit event of instance [o] while [ExitThread] has it: there is
    none when [CreateEvent] has failed or the handle is closed already. *)
Definition exit_open (o : nat) (s : State) : Prop :=
  ∃ tw, objs s !! o = Some tw
    ∧ (exit_only None s
       ∨ ∃ e ev, handles s !! m_hThreadExited tw = Some (KEvent e)
           ∧ events s !! e = Some ev ∧ ev_open ev = 1
           ∧ exit_only (Some e) s).

(** The exit event while the coordinator is at [pc], in any run. *)
Definition exit_window (pc : CoordPc) (s : State) : Prop :=
  match pc with
  | InExitThread o (ET_Post | ET_Wait | ET_Terminate | ET_CloseThread
                    | ET_InvalThread | ET_CloseExited) => exit_open o s
  | _ => exit_only None s
  end.

Definition exit_inv (s : State) : Prop :=
  ∃ co, coords s !! 0 = Some co ∧ exit_window (c_pc co) s.

(** The names of the event objects, in the order of their creation. *)
Definition names (s : State) : list string := ev_name <$> events s.

Definition call_event (n : string) : Prop :=
  n = "ThreadCreatedEvent" ∨ n = "ThreadExitedEvent".

(** The first event object is the one of the barrier, every other one
    was made by [CreateThread] or [ExitThread]. *)
Definition events_named (s : State) : Prop :=
  ∃ l, names s = "StartAllThreadsEvent" :: l ∧ Forall call_event l.

(** A step makes at most one event object, in one of the two calls. *)
Definition names_grow (s s' : State) : Prop :=
  names s' = names s ∨ ∃ n, call_event n ∧ names s' = names s ++ [n].

(** ** The thread handle and the thread identifier *)

(** [h] is not an open handle of a thread. *)
Definition not_thread (h : Z) (s : State) : Prop :=
  ∀ t, handles s !! h ≠ Some (KThread t).

(** The members [m_hThread] and [m_threadId] of an instance: no handle,
    or the open handle of the thread whose identifier [m_threadId] is. *)
Definition hThread_ok (s : State) (tw : ThreadWin) : Prop :=
  m_hThread tw = INVALID_HANDLE_VALUE ∨ m_hThread tw = NULL
  ∨ ∃ t, handles s !! m_hThread tw = Some (KThread t) ∧ m_threadId tw = S t.

(** What holds of the thread handles while the only coordinator is at
    [pc]: between lines 319 and 320 of [ExitThread] the member of the
    instance at hand holds a closed handle; the handle of the exit event
    is never that of a thread. *)
Definition hThread_at (pc : CoordPc) (s : State) : Prop :=
  match pc with
  | InExitThread o ET_InvalThread =>
      (∀ o' tw, objs s !! o' = Some tw → o' ≠ o → hThread_ok s tw)
      ∧ ∀ tw, objs s !! o = Some tw →
          handles s !! m_hThread tw = None
          ∧ not_thread (m_hThreadExited tw) s
  | InExitThread o (ET_Post | ET_Wait | ET_Terminate | ET_CloseThread
                    | ET_CloseExited) =>
      (∀ o' tw, objs s !! o' = Some tw → hThread_ok s tw)
      ∧ ∀ tw, objs s !! o = Some tw → not_thread (m_hThreadExited tw) s
  | _ => ∀ o' tw, objs s !! o' = Some tw → hThread_ok s tw
  end.

Definition hThread_inv (s : State) : Prop :=
  ∃ co, coords s !! 0 = Some co ∧ hThread_at (c_pc co) s.

(** Every instance has no thread handle or the one of its thread. *)
Definition all_ok (s : State) : Prop :=
  ∀ o tw, objs s !! o = Some tw → hThread_ok s tw.

(** The program points at which [hThread_at] is [all_ok]. *)
Definition plain (pc : CoordPc) : bool :=
  match pc with
  | InExitThread _ (ET_Post | ET_Wait | ET_Terminate | ET_CloseThread
                    | ET_InvalThread | ET_CloseExited) => false
  | _ => true
  end.

(** ** What the claims say of a state *)



(** * Schedules

    Runs of the process that are replayed by computation.  A schedule is
    the list of labels of a run. *)

(** The state the process is in after the run [tr] of the programs
    [progs] on the two instances of [main]. *)
Definition state_after (tr : list Label) (progs : list (list Call)) : State :=
  default (boot 4 workers progs) (run tr (boot 4 workers progs)).

(** [n] steps of [a] that leave nothing to the environment. *)
Definition go (a : Actor) (n : nat) : list Label := replicate n (a, Go).

(** A call of [CreateThread] by coordinator [c] that goes well.  The
    system hands out [hEvent] and [hThread]; the new thread [t] runs up to
    the barrier before the coordinator looks at the event again. *)
Definition create_ok (c t : nat) (hEvent hThread : Z) : list Label :=
  [(Coordinator c, Go); (Coordinator c, Fresh hEvent);
   (Coordinator c, Fresh hThread)]
  ++ go (Worker t) 2 ++ go (Coordinator c) 4.

(** A call of [ExitThread] by coordinator [c] that goes well: thread [t]
    gets the stop message and signals the exit event before the
    coordinator looks at it, and returns from its entry function last. *)
Definition exit_ok (c t : nat) (hEvent : Z) : list Label :=
  [(Coordinator c, Go); (Coordinator c, Fresh hEvent); (Coordinator c, Go)]
  ++ go (Worker t) 2 ++ go (Coordinator c) 5 ++ go (Worker t) 1.

(** A run of [main] to its end. *)
Definition main_schedule : list Label :=
  create_ok 0 0 8 12 ++ create_ok 0 1 8 16
  ++ go (Coordinator 0) 1 ++ go (Worker 0) 1 ++ go (Worker 1) 1
  ++ [(Coordinator 0, Fresh 100); (Coordinator 0, Go)] ++ go (Worker 0) 1
  ++ [(Coordinator 0, Fresh 104); (Coordinator 0, Go)] ++ go (Worker 1) 1
  ++ go (Coordinator 0) 1
  ++ exit_ok 0 0 8 ++ exit_ok 0 1 8.

(** [main] up to and including the call of [StartAllThreads]: both threads
    wait at the barrier, which has just been released. *)
Definition released_schedule : list Label := take 19 main_schedule.

(** Two coordinators, each creating the thread of its own instance; the
    second then posts a work item to the thread it has created. *)
Definition two_creators : list (list Call) :=
  [ [CallCreateThread 0];
    [CallCreateThread 1; CallNewThreadMsg "Hello world!";
     CallPostThreadMessage 1 WM_THREAD_MSG DataThreadMsg] ].

(** Both coordinators have created their event and their thread and are
    about to wait; no thread has run yet. *)
Definition overlap_schedule : list Label :=
  [ (Coordinator 0, Go); (Coordinator 0, Fresh 8); (Coordinator 0, Fresh 12);
    (Coordinator 1, Go); (Coordinator 1, Fresh 16); (Coordinator 1, Fresh 20) ].

(** Then the thread of instance 0 runs up to the barrier, and the second
    coordinator finishes [CreateThread] and posts, all before the thread
    of instance 1 has run. *)
Definition race_schedule : list Label :=
  overlap_schedule ++ go (Worker 0) 2 ++ go (Coordinator 1) 4
  ++ [(Coordinator 1, Fresh 100); (Coordinator 1, Go)].

(** A coordinator that stops the work loop by posting the stop message
    itself, without a call of [ExitThread]. *)
Definition early_stop : list Call :=
  [ CallCreateThread 0; CallStartAllThreads;
    CallPostThreadMessage 0 WM_EXIT_THREAD DataNull ].

Definition early_stop_schedule : list Label :=
  create_ok 0 0 8 12 ++ go (Coordinator 0) 1 ++ go (Worker 0) 1
  ++ go (Coordinator 0) 1 ++ go (Worker 0) 2.

(** [CreateThread] whose wait for the new thread runs into the timeout. *)
Definition timeout_schedule : list Label :=
  [ (Coordinator 0, Go); (Coordinator 0, Fresh 8); (Coordinator 0, Fresh 12);
    (Coordinator 0, Timeout) ].

(** A coordinator that calls [CreateThread] twice on one instance. *)
Definition create_twice : list Call :=
  [CallCreateThread 0; CallCreateThread 0].

(** A coordinator that calls [ExitThread] twice in a row. *)
Definition exit_twice : list Call :=
  [CallCreateThread 0; CallStartAllThreads; CallExitThread 0;
   CallExitThread 0].

Definition exit_once_schedule : list Label :=
  create_ok 0 0 8 12 ++ go (Coordinator 0) 1 ++ go (Worker 0) 1
  ++ exit_ok 0 0 16.

(** [ExitThread] up to its wait, with a thread that has not yet taken the
    stop message. *)
Definition exit_wait_schedule : list Label :=
  create_ok 0 0 8 12 ++ go (Coordinator 0) 1 ++ go (Worker 0) 1
  ++ [(Coordinator 0, Go); (Coordinator 0, Fresh 16); (Coordinator 0, Go)].

(** The steps of coordinator [c] from the wait of [ExitThread] that does
    not time out to the return of the call. *)
Definition plain_teardown (c : nat) : list Label :=
  replicate 5 (Coordinator c, Go).

(** A coordinator that posts a work item without a payload. *)
Definition null_poster : list Call :=
  [ CallCreateThread 0; CallStartAllThreads;
    CallPostThreadMessage 0 WM_THREAD_MSG DataNull ].

Definition null_post_schedule : list Label :=
  create_ok 0 0 8 12 ++ go (Coordinator 0) 1 ++ go (Worker 0) 1
  ++ go (Coordinator 0) 1.

(** [ExitThread] at its wait, with a thread that has taken the stop
    message and set the exit event. *)
Definition exit_signaled_schedule : list Label :=
  exit_wait_schedule ++ go (Worker 0) 2.



(** A coordinator that posts a work item to a thread in its work loop
    and then calls [ExitThread]. *)
Definition stalled : list Call :=
  [ CallCreateThread 0; CallStartAllThreads; CallNewThreadMsg "lost";
    CallPostThreadMessage 0 WM_THREAD_MSG DataThreadMsg; CallExitThread 0 ].

(** The thread enters its work loop and does not get to run again: the
    post is accepted, the wait of [ExitThread] runs into its timeout and
    line 317 terminates the thread. *)
Definition stalled_post_schedule : list Label :=
  create_ok 0 0 8 12 ++ go (Coordinator 0) 1 ++ go (Worker 0) 1
  ++ [(Coordinator 0, Fresh 100)].

Definition stalled_schedule : list Label :=
  stalled_post_schedule ++ [(Coordinator 0, Go)]
  ++ [(Coordinator 0, Go); (Coordinator 0, Fresh 16); (Coordinator 0, Go)]
  ++ forced_teardown 0.

(** The call of [CreateThread] coordinator [c] is in on instance [this]
    returns [TRUE] after [n] more steps of the coordinator. *)
Definition returns_TRUE (c this : nat) (co : Coord) (n : nat) (s : State)
    : Prop :=
  ∃ s', run (go (Coordinator c) n) s = Some s' ∧ fault s' = None
        ∧ coords s' !! c = Some (give_back (RetCreateThread this TRUE) co).

(** The steps [CreateThread] has ahead of it once the wait of line 234
    is over: lines 237, 238 and 240. *)
Definition steps_to_return (pc : CreatePc) : option nat :=
  match pc with
  | CT_Close => Some 3
  | CT_Invalidate => Some 2
  | CT_Return => Some 1
  | _ => None
  end.

(** * Properties *)

(** ** What each building block leaves alone *)

Lemma running_true s : running s = true ↔ fault s = None.
Proof. unfold running. destruct (fault s); naive_solver. Qed.

Lemma run_app tr1 tr2 s :
  run (tr1 ++ tr2) s = run tr1 s ≫= run tr2.
Proof.
  revert s. induction tr1 as [|l tr1 IH]; intros s; simpl; [done|].
  destruct (step l s); simpl; [apply IH | done].
Qed.

Lemma reachable_boot hS ws progs : reachable hS ws progs (boot hS ws progs).
Proof. by exists []. Qed.

Lemma reachable_step hS ws progs s l s' :
  reachable hS ws progs s → step l s = Some s' → reachable hS ws progs s'.
Proof.
  intros [tr Htr] Hs. exists (tr ++ [l]).
  rewrite run_app, Htr. simpl. by rewrite Hs.
Qed.

(** Induction over the states the process can be in. *)
Lemma reachable_ind hS ws progs (P : State → Prop) :
  P (boot hS ws progs) →
  (∀ s l s', reachable hS ws progs s → P s → step l s = Some s' → P s') →
  ∀ s, reachable hS ws progs s → P s.
Proof.
  intros Hb Hs s [tr Htr]. revert s Htr.
  induction tr as [|l tr IH] using rev_ind; intros s Htr.
  - simpl in Htr. by simplify_eq.
  - rewrite run_app in Htr.
    destruct (run tr (boot hS ws progs)) as [s1|] eqn:E; simpl in Htr; [|done].
    destruct (step l s1) as [s2|] eqn:E2; simpl in Htr; simplify_eq.
    eapply Hs; [by exists tr | by apply IH | done].
Qed.

(** ** Helper lemmas on lists *)

Lemma list_alter_Some_inv {A} (f : A → A) (l : list A) i j y :
  alter f i l !! j = Some y →
  ∃ x, l !! j = Some x ∧ (y = x ∨ (i = j ∧ y = f x)).
Proof.
  destruct (decide (i = j)) as [->|Hne].
  - rewrite list_lookup_alter_eq. destruct (l !! j) as [x|]; simpl; [|done].
    intros [= <-]. naive_solver.
  - rewrite list_lookup_alter_ne by done. naive_solver.
Qed.

Lemma list_insert_Some_inv {A} (l : list A) i j x y :
  <[i := x]> l !! j = Some y →
  (i = j ∧ y = x ∧ is_Some (l !! j)) ∨ (i ≠ j ∧ l !! j = Some y).
Proof.
  destruct (decide (i = j)) as [->|Hne].
  - intros H. pose proof (lookup_lt_Some _ _ _ H) as Hlt.
    rewrite length_insert in Hlt.
    rewrite list_lookup_insert_eq in H by done. simplify_eq.
    left. split_and!; [done..|]. by apply lookup_lt_is_Some.
  - rewrite list_lookup_insert_ne by done. eauto.
Qed.

Lemma start_inv_coords f s : start_inv s → start_inv (with_coords f s).
Proof. intros []; by constructor. Qed.
Lemma start_inv_heap f s : start_inv s → start_inv (with_heap f s).
Proof. intros []; by constructor. Qed.
Lemma start_inv_cout f s : start_inv s → start_inv (with_cout f s).
Proof. intros []; by constructor. Qed.
Lemma start_inv_fault x s : start_inv s → start_inv (with_fault x s).
Proof. intros []; by constructor. Qed.

Lemma start_inv_goto c pc s : start_inv s → start_inv (goto c pc s).
Proof. apply start_inv_coords. Qed.
Lemma start_inv_returns c r s : start_inv s → start_inv (returns c r s).
Proof. apply start_inv_coords. Qed.
Lemma start_inv_ASSERT_TRUE n b s : start_inv s → start_inv (ASSERT_TRUE n b s).
Proof. apply start_inv_fault. Qed.
Lemma start_inv_ASSERT n s : start_inv s → start_inv (ASSERT n s).
Proof. apply start_inv_fault. Qed.

Lemma list_alter_is_Some {A} (f : A → A) (l : list A) i j :
  is_Some (alter f i l !! j) ↔ is_Some (l !! j).
Proof. by rewrite !lookup_lt_is_Some, length_alter. Qed.

Lemma start_inv_assign this f s :
  (∀ tw, SYNC_START (f tw) = SYNC_START tw) →
  (∀ tw, members_differ (m_hStartAllThreads s) tw →
         members_differ (m_hStartAllThreads s) (f tw)) →
  start_inv s → start_inv (assign this f s).
Proof.
  intros Hsync Hf []. constructor; simpl; try done.
  - intros o tw (tw0 & Htw0 & Hcase)%list_alter_Some_inv.
    destruct Hcase as [->|[_ ->]]; eauto.
  - intros t th Hth. apply list_alter_is_Some. eauto.
  - intros t th tw Hth (tw0 & Htw0 & Hcase)%list_alter_Some_inv Hs Hp.
    destruct Hcase as [->|[_ ->]]; [eauto|].
    rewrite Hsync in Hs. eauto.
Qed.

Lemma start_inv_threads f s :
  (∀ t th', f (threads s) !! t = Some th' →
     (is_Some (objs s !! th_this th') ∧ past_barrier (th_pc th') = false)
     ∨ (∃ th, threads s !! t = Some th ∧ th_this th = th_this th'
          ∧ (past_barrier (th_pc th') = true →
             releases s ≠ 0 ∨ past_barrier (th_pc th) = true
             ∨ ∃ tw, objs s !! th_this th = Some tw
                     ∧ SYNC_START tw = false))) →
  start_inv s → start_inv (with_threads f s).
Proof.
  intros Hf []. constructor; simpl; try done.
  - intros t th' Hth'.
    destruct (Hf t th' Hth') as [[? _]|(th & ? & <- & _)]; eauto.
  - intros t th' tw Hth' Htw Hs Hp.
    destruct (Hf t th' Hth') as [[_ ?]|(th & ? & Heq & Hc)]; [congruence|].
    rewrite <- Heq in Htw.
    destruct (Hc Hp) as [?|[?|(tw' & ? & ?)]]; [done|eauto|congruence].
Qed.

Lemma CreateEvent_Some name ch s h s1 :
  Win32.CreateEvent name ch s = Some (h, s1) →
  (ch = Fail ∧ h = NULL ∧ s1 = s)
  ∨ (ch = Fresh h ∧ h ≠ NULL ∧ h ≠ INVALID_HANDLE_VALUE
     ∧ handles s !! h = None
     ∧ ((∃ e ev, events s !! e = Some ev ∧ ev_name ev = name
                 ∧ ev_open ev ≠ 0
                 ∧ (∀ j ev', j < e → events s !! j = Some ev' →
                      ¬ (ev_name ev' = name ∧ ev_open ev' ≠ 0))
                 ∧ s1 = with_handles (<[h := KEvent e]>)
                          (with_events
                             (<[e := mkEvent (ev_name ev) (ev_signaled ev)
                                       (S (ev_open ev))]>) s))
        ∨ ((∀ j ev', events s !! j = Some ev' →
                     ¬ (ev_name ev' = name ∧ ev_open ev' ≠ 0))
           ∧ s1 = with_handles (<[h := KEvent (length (events s))]>)
                    (with_events (λ evs, evs ++ [mkEvent name false 1]) s)))).
Proof.
  unfold Win32.CreateEvent, Win32.fresh_handle, Win32.find_event.
  destruct ch as [|h'| |]; try done; [|intros [= <- <-]; by left].
  destruct (bool_decide (h' ≠ NULL)) eqn:E1; simpl; [|done].
  destruct (bool_decide (h' ≠ INVALID_HANDLE_VALUE)) eqn:E2; simpl; [|done].
  destruct (bool_decide (handles s !! h' = None)) eqn:E3; simpl; [|done].
  apply bool_decide_eq_true in E1, E2, E3.
  destruct (list_find _ (events s)) as [[e ev]|] eqn:F.
  - intros [= <- <-]. right. split_and!; try done. left.
    apply list_find_Some in F as (He & [Hn Ho] & Hmin).
    exists e, ev. split_and!; eauto.
  - intros [= <- <-]. right. split_and!; try done. right.
    split; [|done]. intros j ev' Hj HP.
    rewrite list_find_None in F. rewrite Forall_forall in F.
    apply (F ev'); [|done]. apply list_elem_of_lookup. eauto.
Qed.

Lemma start_inv_CreateEvent name ch s h s1 :
  Win32.CreateEvent name ch s = Some (h, s1) →
  name ≠ "StartAllThreadsEvent" →
  start_inv s →
  start_inv s1 ∧ h ≠ m_hStartAllThreads s1.
Proof.
  intros H Hname I.
  apply CreateEvent_Some in H as [(-> & -> & ->)|(-> & ? & ? & Hfresh & H)].
  { split; [done|]. destruct I as [[? ?] ?]. congruence. }
  assert (h ≠ m_hStartAllThreads s) as Hne.
  { intros ->. destruct I. congruence. }
  destruct I as [Hv Hh Ho (ev0 & Hev0 & Hn0 & Hsig) Hm Hb].
  destruct H as [(e & ev & He & Hn & Hopen & _ & ->)|(_ & ->)].
  - assert (e ≠ 0) as He0 by (intros ->; congruence).
    split; [|done]. constructor; simpl; try done.
    + by rewrite lookup_insert_ne.
    + intros h' Hh'. apply lookup_insert_Some in Hh' as [[_ [=]]|[_ ?]];
        [done|eauto].
    + exists ev0. by rewrite list_lookup_insert_ne.
  - split; [|done]. constructor; simpl; try done.
    + by rewrite lookup_insert_ne.
    + intros h' Hh'. apply lookup_insert_Some in Hh' as [[_ [= Hl]]|[_ ?]];
        [|eauto].
      apply lookup_lt_Some in Hev0. lia.
    + exists ev0. rewrite lookup_app_l; [done|].
      by apply lookup_lt_Some in Hev0.
Qed.

Lemma start_inv_CloseHandle h s :
  h ≠ m_hStartAllThreads s → start_inv s → start_inv (Win32.CloseHandle h s).
Proof.
  intros Hne I. unfold Win32.CloseHandle, Win32.event_of.
  assert (∀ e, handles s !! h = Some (KEvent e) → e ≠ 0) as He0.
  { intros e Hh ->. by apply (si_only _ I) in Hh. }
  destruct I as [Hv Hhs Ho (ev0 & Hev0 & Hn0 & Hsig) Hm Ht Hb].
  constructor; simpl; try done.
  - by rewrite lookup_delete_ne.
  - intros h' [_ ?]%lookup_delete_Some. eauto.
  - exists ev0. destruct (handles s !! h) as [[e|t]|]; try done.
    rewrite list_lookup_alter_ne; [done|]. by apply He0.
Qed.

Lemma start_inv_SetEvent h s :
  h ≠ m_hStartAllThreads s → start_inv s → start_inv (Win32.SetEvent h s).2.
Proof.
  intros Hne I. unfold Win32.SetEvent, Win32.event_of.
  assert (∀ e, handles s !! h = Some (KEvent e) → e ≠ 0) as He0.
  { intros e Hh ->. by apply (si_only _ I) in Hh. }
  destruct I as [Hv Hhs Ho (ev0 & Hev0 & Hn0 & Hsig) Hm Ht Hb].
  constructor; simpl; try done.
  exists ev0. destruct (handles s !! h) as [[e|t]|]; try done.
  rewrite list_lookup_alter_ne; [done|]. by apply He0.
Qed.

(** [StartAllThreads] signals the shared event and never fails. *)
Lemma StartAllThreads_spec s :
  start_inv s →
  StartAllThreads s = with_releases S (with_events (alter Win32.signal 0) s).
Proof.
  intros [Hv Hhs Ho (ev0 & Hev0 & Hn0 & Hsig) Hm Ht Hb].
  unfold StartAllThreads, Win32.SetEvent, Win32.event_behind, Win32.event_of.
  rewrite Hhs. simpl. rewrite Hev0. simpl.
  unfold ASSERT_TRUE. simpl. by destruct s.
Qed.

Lemma start_inv_StartAllThreads s :
  start_inv s → start_inv (StartAllThreads s).
Proof.
  intros I. rewrite (StartAllThreads_spec s I).
  destruct I as [Hv Hhs Ho (ev0 & Hev0 & Hn0 & Hsig) Hm Ht Hb].
  constructor; simpl; try done.
  exists (Win32.signal ev0). rewrite list_lookup_alter_eq, Hev0.
  split_and!; [done..|]. simpl. split; [lia|done].
Qed.

Lemma same_control_alter f t ths :
  (∀ th, th_this (f th) = th_this th ∧ th_pc (f th) = th_pc th) →
  same_control ths (alter f t ths).
Proof.
  intros Hf j th' (th & Hth & [->|[_ ->]])%list_alter_Some_inv; [by eauto|].
  exists th. destruct (Hf th). eauto.
Qed.

Lemma same_control_insert t th th0 ths :
  ths !! t = Some th0 → th_this th = th_this th0 → th_pc th = th_pc th0 →
  same_control ths (<[t := th]> ths).
Proof.
  intros H0 H1 H2 j th' [(-> & -> & _)|[_ ?]]%list_insert_Some_inv; by eauto.
Qed.

Lemma start_inv_same_control f s :
  same_control (threads s) (f (threads s)) →
  start_inv s → start_inv (with_threads f s).
Proof.
  intros Hf. apply start_inv_threads. intros t th' Hth'.
  destruct (Hf t th' Hth') as (th & ? & ? & Hpc).
  right. exists th. split_and!; [done..|]. rewrite Hpc. auto.
Qed.

Lemma start_inv_PeekMessage t s :
  start_inv s → start_inv (Win32.PeekMessage t s).
Proof. apply start_inv_same_control. by apply same_control_alter. Qed.

Lemma same_control_refl ths : same_control ths ths.
Proof. intros t th ?. eauto. Qed.

Lemma start_inv_TerminateThread h s :
  start_inv s → start_inv (Win32.TerminateThread h s).
Proof.
  apply start_inv_same_control. destruct (Win32.thread_of h s);
    [by apply same_control_alter | apply same_control_refl].
Qed.

Lemma start_inv_PostThreadMessage id m s :
  start_inv s → start_inv (Win32.PostThreadMessage id m s).2.
Proof.
  apply start_inv_same_control. destruct (Win32.receiver id s);
    [by apply same_control_alter | apply same_control_refl].
Qed.

Lemma GetMessage_Some t s msg s1 :
  GetMessage t s = Some (msg, s1) →
  s1 = with_threads (alter dequeue t) s
  ∧ ∃ th q, threads s !! t = Some th ∧ th_queue th = Some (msg :: q).
Proof.
  unfold GetMessage.
  destruct (threads s !! t) as [th|] eqn:Hth; simpl; [|done].
  destruct (th_queue th) as [[|m q]|] eqn:Hq; simpl; try done.
  intros [= <- <-]. split; [done|]. eauto.
Qed.

Lemma start_inv_GetMessage t s msg s1 :
  GetMessage t s = Some (msg, s1) → start_inv s → start_inv s1.
Proof.
  intros [-> _]%GetMessage_Some.
  apply start_inv_same_control. by apply same_control_alter.
Qed.

Lemma start_inv_thread_ends t s th :
  threads s !! t = Some th → past_barrier (th_pc th) = true →
  start_inv s → start_inv (thread_ends t s).
Proof.
  intros Hth Hp. apply start_inv_threads.
  intros j th' (th0 & Hth0 & [->|[-> ->]])%list_alter_Some_inv;
    right; exists th0; simplify_eq; auto.
Qed.

Lemma start_inv_jump t pc s :
  (past_barrier pc = true →
   releases s ≠ 0
   ∨ ∃ th, threads s !! t = Some th
       ∧ (past_barrier (th_pc th) = true
          ∨ ∃ tw, objs s !! th_this th = Some tw ∧ SYNC_START tw = false)) →
  start_inv s → start_inv (jump t pc s).
Proof.
  intros Hpc. apply start_inv_threads. destruct (running s).
  - intros j th' (th0 & Hth0 & [->|[-> ->]])%list_alter_Some_inv.
    { right. exists th0. auto. }
    right. exists th0. split_and!; [done..|]. simpl. intros Hp'.
    destruct (Hpc Hp') as [?|(th & ? & [?|?])]; simplify_eq; auto.
  - intros j th' Hth'. right. exists th'. auto.
Qed.

Lemma start_inv_jump_halted t pc s :
  running s = false → start_inv s → start_inv (jump t pc s).
Proof.
  intros Hr. apply start_inv_threads. rewrite Hr.
  intros j th' Hth'. right. exists th'. auto.
Qed.

Lemma CreateThread_Some this id ch s h id' s1 :
  Win32.CreateThread this id ch s = Some (h, id', s1) →
  (ch = Fail ∧ h = NULL ∧ id' = id ∧ s1 = s)
  ∨ (ch = Fresh h ∧ h ≠ NULL ∧ h ≠ INVALID_HANDLE_VALUE
     ∧ handles s !! h = None ∧ id' = S (length (threads s))
     ∧ s1 = with_handles (<[h := KThread (length (threads s))]>)
              (with_threads
                 (λ ths, ths ++ [mkThread this RP_PeekMessage true None [] []])
                 s)).
Proof.
  unfold Win32.CreateThread, Win32.fresh_handle.
  destruct ch as [|h'| |]; try done; [|intros [= <- <- <-]; by left].
  destruct (bool_decide (h' ≠ NULL)) eqn:E1; simpl; [|done].
  destruct (bool_decide (h' ≠ INVALID_HANDLE_VALUE)) eqn:E2; simpl; [|done].
  destruct (bool_decide (handles s !! h' = None)) eqn:E3; simpl; [|done].
  apply bool_decide_eq_true in E1, E2, E3.
  intros [= <- <- <-]. right. by split_and!.
Qed.

Lemma start_inv_Win32_CreateThread this id ch s h id' s1 :
  Win32.CreateThread this id ch s = Some (h, id', s1) →
  is_Some (objs s !! this) →
  start_inv s → start_inv s1 ∧ h ≠ m_hStartAllThreads s1.
Proof.
  intros H Hthis I.
  apply CreateThread_Some in H
    as [(-> & -> & -> & ->)|(-> & ? & ? & Hfresh & -> & ->)].
  { split; [done|]. destruct I as [[? ?] ?]. congruence. }
  assert (h ≠ m_hStartAllThreads s) as Hne.
  { intros ->. destruct I. congruence. }
  split; [|done].
  destruct I as [Hv Hhs Ho Hev Hm Ht Hb].
  constructor; simpl; try done.
  - by rewrite lookup_insert_ne.
  - intros h' Hh'. apply lookup_insert_Some in Hh' as [[_ [=]]|[_ ?]]. eauto.
  - intros t th Hth. apply lookup_app_Some in Hth as [Hth|[_ Hth]]; [eauto|].
    apply list_lookup_singleton_Some in Hth as [_ <-]. done.
  - intros t th tw Hth. apply lookup_app_Some in Hth as [Hth|[_ Hth]]; [eauto|].
    apply list_lookup_singleton_Some in Hth as [_ <-]. done.
Qed.


Lemma start_inv_set_hThreadStarted this h s :
  h ≠ m_hStartAllThreads s → start_inv s →
  start_inv (assign this (set_hThreadStarted h) s).
Proof.
  intros Hh. apply start_inv_assign; [done|]. intros tw (?&?&?). by split_and!.
Qed.
Lemma start_inv_set_hThreadExited this h s :
  h ≠ m_hStartAllThreads s → start_inv s →
  start_inv (assign this (set_hThreadExited h) s).
Proof.
  intros Hh. apply start_inv_assign; [done|]. intros tw (?&?&?). by split_and!.
Qed.
Lemma start_inv_set_hThread this h s :
  h ≠ m_hStartAllThreads s → start_inv s →
  start_inv (assign this (set_hThread h) s).
Proof.
  intros Hh. apply start_inv_assign; [done|]. intros tw (?&?&?). by split_and!.
Qed.
Lemma start_inv_set_threadId this id s :
  start_inv s → start_inv (assign this (set_threadId id) s).
Proof. by apply start_inv_assign. Qed.

Create HintDb si discriminated.
#[global] Hint Resolve start_inv_coords start_inv_heap start_inv_cout
  start_inv_fault start_inv_goto start_inv_returns start_inv_ASSERT_TRUE
  start_inv_ASSERT start_inv_set_hThreadStarted start_inv_set_hThreadExited
  start_inv_set_hThread start_inv_set_threadId start_inv_CloseHandle
  start_inv_SetEvent start_inv_StartAllThreads start_inv_PeekMessage
  start_inv_TerminateThread start_inv_PostThreadMessage : si.

Lemma start_inv_CreateThread c this pc ch s s' :
  CreateThread c this pc ch s = Some s' → start_inv s → start_inv s'.
Proof.
  unfold CreateThread. intros H I.
  destruct (objs s !! this) as [tw|] eqn:Htw; simpl in H; [|done].
  destruct (si_members _ I _ _ Htw) as (H1 & H2 & H3).
  destruct (si_valid _ I) as [Hv1 Hv2].
  destruct pc.
  - destruct ch; try done. destruct (negb _); simplify_eq; auto with si.
  - destruct (Win32.CreateEvent _ ch s) as [[h s1]|] eqn:E;
      simpl in H; simplify_eq.
    apply start_inv_CreateEvent in E as [I1 Hh]; auto with si.
  - destruct (Win32.CreateThread _ _ ch s) as [[[h id] s1]|] eqn:E;
      simpl in H; simplify_eq.
    apply start_inv_Win32_CreateThread in E as [I1 Hh]; auto 6 with si.
  - destruct (WaitForSingleObject _ ch s); simpl in H; simplify_eq.
    auto with si.
  - destruct ch; simplify_eq. auto with si.
  - destruct ch; simplify_eq. auto with si.
  - destruct ch; simplify_eq. auto with si.
Qed.


Lemma start_inv_PostThreadMessage_member this msg data s ok s1 :
  PostThreadMessage this msg data s = Some (ok, s1) →
  start_inv s → start_inv s1.
Proof.
  unfold PostThreadMessage. destruct (objs s !! this); simpl; [|done].
  intros [= _ <-].
  by apply (start_inv_PostThreadMessage (m_threadId t) (mkMSG msg data) s).
Qed.

Lemma start_inv_ExitThread c this pc ch s s' :
  ExitThread c this pc ch s = Some s' → start_inv s → start_inv s'.
Proof.
  unfold ExitThread. intros H I.
  destruct (objs s !! this) as [tw|] eqn:Htw; simpl in H; [|done].
  destruct (si_members _ I _ _ Htw) as (H1 & H2 & H3).
  destruct (si_valid _ I) as [Hv1 Hv2].
  destruct pc.
  - destruct ch; try done. case_bool_decide; simplify_eq; auto with si.
  - destruct (Win32.CreateEvent _ ch s) as [[h s1]|] eqn:E;
      simpl in H; simplify_eq.
    apply start_inv_CreateEvent in E as [I1 Hh]; auto with si.
  - destruct ch; try done.
    destruct (PostThreadMessage _ _ _ s) as [[ok s1]|] eqn:E;
      simpl in H; simplify_eq.
    apply start_inv_PostThreadMessage_member in E; auto with si.
  - destruct (WaitForSingleObject _ ch s) as [err|]; simpl in H; [|done].
    destruct (is_WAIT_TIMEOUT err); simplify_eq; auto with si.
  - destruct ch; simplify_eq. auto with si.
  - destruct ch; simplify_eq. auto with si.
  - destruct ch; simplify_eq. auto with si.
  - destruct ch; simplify_eq. auto with si.
  - destruct ch; simplify_eq. auto with si.
Qed.

Lemma start_inv_coord_step c ch s s' :
  coord_step c ch s = Some s' → start_inv s → start_inv s'.
Proof.
  unfold coord_step. intros H I.
  destruct (coords s !! c) as [co|]; simpl in H; [|done].
  destruct (c_pc co).
  - destruct (head (c_script co)) as [call|]; simpl in H; [|done].
    destruct call.
    + eapply start_inv_CreateThread; eauto with si.
    + destruct ch; simplify_eq. auto with si.
    + destruct ch; try done. unfold NewThreadMsg in H.
      case_match; simplify_eq. auto with si.
    + destruct ch; try done.
      destruct (PostThreadMessage _ _ _ _) as [[ok s1]|] eqn:E;
        simpl in H; simplify_eq.
      apply start_inv_PostThreadMessage_member in E; auto with si.
    + destruct ch; simplify_eq. auto with si.
    + eapply start_inv_ExitThread; eauto with si.
  - eapply start_inv_CreateThread; eauto.
  - eapply start_inv_ExitThread; eauto.
Qed.

(** A thread gets past the barrier wait only when the shared event is
    signaled. *)
Lemma wait_start_released ch s :
  start_inv s →
  WaitForSingleObject (m_hStartAllThreads s) ch s = Some Win32.WAIT_OBJECT_0 →
  releases s ≠ 0.
Proof.
  intros [Hv Hhs Ho (ev0 & Hev0 & Hn0 & Hsig) Hm Ht Hb].
  unfold WaitForSingleObject, Win32.probe. rewrite Hhs, Hev0.
  destruct (ev_signaled ev0) eqn:E; [|by destruct ch]. intros _. by apply Hsig.
Qed.

Lemma start_inv_RunProcess t ch s s' :
  RunProcess t ch s = Some s' → start_inv s → start_inv s'.
Proof.
  unfold RunProcess. intros H I.
  destruct (threads s !! t) as [th|] eqn:Hth; simpl in H; [|done].
  destruct (th_alive th); simpl in H; [|done].
  destruct (objs s !! th_this th) as [tw|] eqn:Htw; simpl in H; [|done].
  destruct (si_members _ I _ _ Htw) as (H1 & H2 & H3).
  destruct (th_pc th) eqn:Hpc.
  - destruct ch; simplify_eq. apply start_inv_jump; [done|]. auto with si.
  - destruct ch; simplify_eq.
    apply start_inv_jump;
      [|by apply start_inv_ASSERT_TRUE,
             (start_inv_SetEvent (m_hThreadStarted tw) s)].
    destruct (SYNC_START tw) eqn:Hs; [done|]. intros _. right.
    exists th. split; [done|]. right. eauto.
  - destruct (WaitForSingleObject _ ch s) as [err|] eqn:E;
      simpl in H; simplify_eq.
    destruct err; simpl.
    + apply start_inv_jump; [|auto with si]. intros _. left. simpl.
      by eapply wait_start_released.
    + apply start_inv_jump_halted; auto with si.
    + apply start_inv_jump_halted; auto with si.
  - destruct ch; try done. unfold Process in H.
    destruct (GetMessage t s) as [[msg s1]|] eqn:E; simpl in H; [|done].
    pose proof (start_inv_GetMessage _ _ _ _ E I) as I1.
    apply GetMessage_Some in E as [-> _].
    destruct (message msg).
    + case_bool_decide; [|simplify_eq; auto with si].
      simpl in H. destruct (heap s !! wParam msg); simplify_eq; auto with si.
    + simplify_eq. apply start_inv_jump; [|done]. intros _. right. simpl.
      exists (dequeue th). rewrite list_lookup_alter_eq, Hth. simpl.
      split; [done|]. left. by rewrite Hpc.
    + simplify_eq. auto with si.
  - destruct ch; simplify_eq.
    apply start_inv_jump;
      [|by apply start_inv_ASSERT_TRUE,
             (start_inv_SetEvent (m_hThreadExited tw) s)].
    intros _. right. simpl.
    exists th. split; [done|]. left. by rewrite Hpc.
  - destruct ch; simplify_eq.
    eapply start_inv_thread_ends; [done| |done]. by rewrite Hpc.
  - by destruct ch.
Qed.

Lemma start_inv_step l s s' : step l s = Some s' → start_inv s → start_inv s'.
Proof.
  unfold step. destruct (fault s); [done|]. destruct l as [[c|t] ch].
  - apply start_inv_coord_step.
  - apply start_inv_RunProcess.
Qed.

Lemma start_inv_boot hS ws progs :
  hS ≠ NULL → hS ≠ INVALID_HANDLE_VALUE → start_inv (boot hS ws progs).
Proof.
  intros H1 H2. constructor.
  - done.
  - apply lookup_singleton_eq.
  - simpl. intros h [<- _]%lookup_singleton_Some. done.
  - eexists. split_and!; [done..|]. simpl. split; [done|lia].
  - intros o tw Ho. unfold boot, objs in Ho.
    apply list_lookup_fmap_Some in Ho as (w & -> & _).
    split_and!; simpl; congruence.
  - intros t th Hth. done.
  - intros t th tw Hth. done.
Qed.

Lemma reachable_start_inv hS ws progs s :
  hS ≠ NULL → hS ≠ INVALID_HANDLE_VALUE →
  reachable hS ws progs s → start_inv s.
Proof.
  intros H1 H2. apply reachable_ind; [by apply start_inv_boot|].
  intros s0 l s1 _ I Hs. by eapply start_inv_step.
Qed.


Lemma probe_start s :
  start_inv s →
  Win32.probe (m_hStartAllThreads s) s =
    if bool_decide (releases s ≠ 0) then Win32.WAIT_OBJECT_0
    else Win32.WAIT_TIMEOUT.
Proof.
  intros [Hv Hhs Ho (ev0 & Hev0 & Hn0 & Hsig) Hm Ht Hb].
  unfold Win32.probe. rewrite Hhs, Hev0.
  destruct (ev_signaled ev0) eqn:E; case_bool_decide; try done.
  - destruct Hsig as [Hsig _]. by specialize (Hsig eq_refl).
  - destruct Hsig as [_ Hsig]. by specialize (Hsig H).
Qed.

Lemma list_alter_same {A} (f : A → A) (l : list A) i x :
  l !! i = Some x → f x = x → alter f i l = l.
Proof.
  intros Hi Hf. apply list_eq. intros j.
  destruct (decide (i = j)) as [<-|?].
  - by rewrite list_lookup_alter_eq, Hi; simpl; rewrite Hf.
  - by rewrite list_lookup_alter_ne.
Qed.

(** ** The thread handle is non-null while the process runs *)

(** What a step of a thread in [RunProcess] leaves alone. *)
Lemma RunProcess_frame t ch s s' :
  RunProcess t ch s = Some s' →
  objs s' = objs s ∧ coords s' = coords s ∧ handles s' = handles s
  ∧ releases s' = releases s
  ∧ m_hStartAllThreads s' = m_hStartAllThreads s.
Proof.
  unfold RunProcess, Process. intros H.
  destruct (threads s !! t) as [th|]; simpl in H; [|done].
  destruct (th_alive th); simpl in H; [|done].
  destruct (objs s !! th_this th) as [tw|]; simpl in H; [|done].
  destruct (th_pc th) eqn:Hpc.
  4:{ destruct ch; try done.
      destruct (GetMessage t s) as [[msg s1]|] eqn:E; simpl in H; [|done].
      apply GetMessage_Some in E as [-> _].
      destruct (message msg); simplify_eq; try done.
      case_bool_decide; simplify_eq; [|done].
      simpl in H. by destruct (heap s !! wParam msg); simplify_eq. }
  all: destruct ch; try done;
    try (destruct (WaitForSingleObject _ _ s); simpl in H; [|done]);
    by simplify_eq.
Qed.

Lemma spawned_inv_frame s s' :
  objs s' = objs s → fault s = None → spawned_inv s → spawned_inv s'.
Proof. unfold spawned_inv. intros -> Hf I _. by apply I. Qed.

Lemma spawned_inv_assign this f s s' :
  (∀ tw, m_hThread (f tw) = m_hThread tw) →
  objs s' = alter f this (objs s) → fault s = None →
  spawned_inv s → spawned_inv s'.
Proof.
  unfold spawned_inv. intros Hf -> Hs I _ o tw
    (tw0 & Htw0 & [->|[_ ->]])%list_alter_Some_inv; [by eauto|].
  rewrite Hf. eauto.
Qed.

Lemma CreateEvent_frame name ch s h s1 :
  Win32.CreateEvent name ch s = Some (h, s1) →
  objs s1 = objs s ∧ fault s1 = fault s ∧ threads s1 = threads s
  ∧ coords s1 = coords s ∧ heap s1 = heap s ∧ cout s1 = cout s
  ∧ releases s1 = releases s
  ∧ m_hStartAllThreads s1 = m_hStartAllThreads s.
Proof.
  intros [(-> & -> & ->)|(-> & ? & ? & ? & [(e & ev & ? & ? & ? & ? & ->)|(? & ->)])]%CreateEvent_Some; done.
Qed.

Lemma spawned_inv_CreateThread c this pc ch s s' :
  CreateThread c this pc ch s = Some s' → fault s = None →
  spawned_inv s → spawned_inv s'.
Proof.
  unfold CreateThread. intros H Hf I.
  destruct (objs s !! this) as [tw|] eqn:Htw; simpl in H; [|done].
  destruct pc.
  - destruct ch; try done.
    destruct (negb _); simplify_eq; by apply (spawned_inv_frame s).
  - destruct (Win32.CreateEvent _ ch s) as [[h s1]|] eqn:E;
      simpl in H; simplify_eq.
    apply CreateEvent_frame in E as (Ho & Hf1 & _).
    eapply (spawned_inv_assign this (set_hThreadStarted h) s); try done.
    simpl. by rewrite Ho.
  - destruct (Win32.CreateThread _ _ ch s) as [[[h id] s1]|] eqn:E;
      simpl in H; simplify_eq.
    apply CreateThread_Some in E
      as [(-> & -> & -> & ->)|(-> & ? & ? & Hfresh & -> & ->)].
    + intros Hf'. simpl in Hf'. done.
    + intros _ o tw'. simpl.
      intros (tw1 & (tw0 & Htw0 & Hc0)%list_alter_Some_inv & Hc1)%list_alter_Some_inv.
      assert (m_hThread tw' = m_hThread tw0 ∨ m_hThread tw' = h) as [->| ->];
        [|by eapply I|done].
      destruct Hc0 as [->|[_ ->]], Hc1 as [->|[_ ->]]; simpl; auto.
  - destruct (WaitForSingleObject _ ch s); simpl in H; simplify_eq.
    by apply (spawned_inv_frame s).
  - destruct ch; simplify_eq. by apply (spawned_inv_frame s).
  - destruct ch; simplify_eq.
    by eapply (spawned_inv_assign this (set_hThreadStarted _) s).
  - destruct ch; simplify_eq. by apply (spawned_inv_frame s).
Qed.

Lemma spawned_inv_ExitThread c this pc ch s s' :
  ExitThread c this pc ch s = Some s' → fault s = None →
  spawned_inv s → spawned_inv s'.
Proof.
  unfold ExitThread, PostThreadMessage. intros H Hf I.
  destruct (objs s !! this) as [tw|] eqn:Htw; simpl in H; [|done].
  destruct pc.
  - destruct ch; try done.
    case_bool_decide; simplify_eq; by apply (spawned_inv_frame s).
  - destruct (Win32.CreateEvent _ ch s) as [[h s1]|] eqn:E;
      simpl in H; simplify_eq.
    apply CreateEvent_frame in E as (Ho & Hf1 & _).
    eapply (spawned_inv_assign this (set_hThreadExited h) s); try done.
    simpl. by rewrite Ho.
  - destruct ch; simplify_eq. by apply (spawned_inv_frame s).
  - destruct (WaitForSingleObject _ ch s) as [err|]; simpl in H; [|done].
    destruct (is_WAIT_TIMEOUT err); simplify_eq; by apply (spawned_inv_frame s).
  - destruct ch; simplify_eq. by apply (spawned_inv_frame s).
  - destruct ch; simplify_eq. by apply (spawned_inv_frame s).
  - destruct ch; simplify_eq.
    intros _ o tw' (tw0 & Htw0 & [->|[_ ->]])%list_alter_Some_inv;
      [by eapply I|done].
  - destruct ch; simplify_eq. by apply (spawned_inv_frame s).
  - destruct ch; simplify_eq.
    by eapply (spawned_inv_assign this (set_hThreadExited _) s).
Qed.

Lemma spawned_inv_step l s s' :
  step l s = Some s' → spawned_inv s → spawned_inv s'.
Proof.
  unfold step. destruct (fault s) eqn:Hf; [done|]. destruct l as [[c|t] ch].
  - unfold coord_step, PostThreadMessage, NewThreadMsg, StartAllThreads.
    intros H I.
    destruct (coords s !! c) as [co|]; simpl in H; [|done].
    destruct (c_pc co).
    + destruct (head (c_script co)) as [call|]; simpl in H; [|done].
      destruct call.
      * eapply spawned_inv_CreateThread in H; eauto.
      * destruct ch; simplify_eq. by apply (spawned_inv_frame s).
      * destruct ch; try done. case_match; simplify_eq.
        by apply (spawned_inv_frame s).
      * destruct ch; try done.
        destruct (objs s !! o); simplify_eq/=. by apply (spawned_inv_frame s).
      * destruct ch; simplify_eq. by apply (spawned_inv_frame s).
      * eapply spawned_inv_ExitThread in H; eauto.
    + eapply spawned_inv_CreateThread; eauto.
    + eapply spawned_inv_ExitThread; eauto.
  - intros (Ho & _)%RunProcess_frame. by apply (spawned_inv_frame s).
Qed.

Lemma reachable_spawned_inv hS ws progs s :
  reachable hS ws progs s → spawned_inv s.
Proof.
  apply reachable_ind.
  - intros _ o tw Ho. unfold boot, objs in Ho.
    apply list_lookup_fmap_Some in Ho as (w & -> & _). done.
  - intros s0 l s1 _ I Hs. by eapply spawned_inv_step.
Qed.

(** ** Message queues *)

Lemma queue_ok_set_th_pc pc th : queue_ok th → queue_ok (set_th_pc pc th).
Proof. done. Qed.

Lemma queue_ok_make_queue th :
  th_alive th = true → queue_ok th → queue_ok (Win32.make_queue th).
Proof.
  unfold queue_ok. simpl. intros Ha. destruct (th_queue th); simpl; [done|].
  intros [H _]. destruct (H Ha) as [-> ->]. done.
Qed.

Lemma queue_ok_enqueue m th :
  is_Some (th_queue th) → queue_ok th → queue_ok (Win32.enqueue m th).
Proof.
  unfold queue_ok. simpl. intros [q ->]. simpl. intros ->.
  by rewrite app_assoc.
Qed.

Lemma queue_ok_dequeue th : queue_ok th → queue_ok (dequeue th).
Proof.
  unfold queue_ok. simpl. destruct (th_queue th) as [[|m q]|]; simpl.
  - intros ->. by rewrite !app_nil_r.
  - intros ->. by rewrite <- app_assoc.
  - by rewrite app_nil_r.
Qed.

Lemma queue_ok_kill th : queue_ok th → queue_ok (Win32.kill th).
Proof.
  unfold queue_ok. simpl. destruct (th_queue th) as [q|].
  - intros ->. split; [done|]. eauto.
  - intros [_ ?]. done.
Qed.

Lemma queue_ok_finish th : queue_ok th → queue_ok (finish th).
Proof.
  unfold queue_ok. simpl. destruct (th_queue th) as [q|].
  - intros ->. split; [done|]. eauto.
  - intros [_ ?]. done.
Qed.

Lemma queue_inv_alter f t s s' :
  threads s' = alter f t (threads s) →
  (∀ th, threads s !! t = Some th → queue_ok th → queue_ok (f th)) →
  queue_inv s → queue_inv s'.
Proof.
  unfold queue_inv. intros -> Hf I j th'
    (th & Hth & [->|[-> ->]])%list_alter_Some_inv; eauto.
Qed.

Lemma queue_inv_frame s s' :
  threads s' = threads s → queue_inv s → queue_inv s'.
Proof. unfold queue_inv. by intros ->. Qed.

Lemma queue_inv_jump t pc s : queue_inv s → queue_inv (jump t pc s).
Proof.
  unfold jump. destruct (running s); [|by apply (queue_inv_frame s)].
  intros I. by eapply (queue_inv_alter _ t s).
Qed.

Lemma receiver_Some tid s t :
  Win32.receiver tid s = Some t →
  tid = S t
  ∧ ∃ th, threads s !! t = Some th ∧ th_alive th = true
          ∧ is_Some (th_queue th).
Proof.
  unfold Win32.receiver, Win32.thread_of_id. destruct tid as [|t']; [done|].
  simpl. destruct (threads s !! t') as [th|] eqn:Hth; simpl; [|done].
  destruct (th_alive th) eqn:Ha; simpl; [|done].
  case_bool_decide; [|done]. intros [= <-]. split; [done|]. eauto.
Qed.

Lemma queue_inv_PostThreadMessage tid m s :
  queue_inv s → queue_inv (Win32.PostThreadMessage tid m s).2.
Proof.
  intros I. simpl. destruct (Win32.receiver tid s) as [t|] eqn:E;
    [|by apply (queue_inv_frame s)].
  apply receiver_Some in E as (_ & th & Hth & _ & Hq).
  eapply (queue_inv_alter _ t s); [done| |done].
  intros th' ?. simplify_eq. by apply queue_ok_enqueue.
Qed.

Lemma queue_inv_TerminateThread h s :
  queue_inv s → queue_inv (Win32.TerminateThread h s).
Proof.
  intros I. unfold Win32.TerminateThread.
  destruct (Win32.thread_of h s) as [t|]; [|by apply (queue_inv_frame s)].
  eapply (queue_inv_alter _ t s); [done| |done]. auto using queue_ok_kill.
Qed.

Lemma queue_inv_CreateThread c this pc ch s s' :
  CreateThread c this pc ch s = Some s' → queue_inv s → queue_inv s'.
Proof.
  unfold CreateThread. intros H I.
  destruct (objs s !! this) as [tw|] eqn:Htw; simpl in H; [|done].
  destruct pc.
  - destruct ch; try done.
    destruct (negb _); simplify_eq; by apply (queue_inv_frame s).
  - destruct (Win32.CreateEvent _ ch s) as [[h s1]|] eqn:E;
      simpl in H; simplify_eq.
    apply CreateEvent_frame in E as (_ & _ & Ht & _).
    by apply (queue_inv_frame s).
  - destruct (Win32.CreateThread _ _ ch s) as [[[h id] s1]|] eqn:E;
      simpl in H; simplify_eq.
    apply CreateThread_Some in E
      as [(-> & -> & -> & ->)|(-> & ? & ? & Hfresh & -> & ->)];
      [by apply (queue_inv_frame s)|].
    intros t th. simpl. intros [Hth|[_ Hth]]%lookup_app_Some; [by eauto|].
    apply list_lookup_singleton_Some in Hth as [_ <-].
    split; [done|]. by exists [].
  - destruct (WaitForSingleObject _ ch s); simpl in H; simplify_eq.
    by apply (queue_inv_frame s).
  - destruct ch; simplify_eq. by apply (queue_inv_frame s).
  - destruct ch; simplify_eq. by apply (queue_inv_frame s).
  - destruct ch; simplify_eq. by apply (queue_inv_frame s).
Qed.

Lemma queue_inv_ExitThread c this pc ch s s' :
  ExitThread c this pc ch s = Some s' → queue_inv s → queue_inv s'.
Proof.
  unfold ExitThread, PostThreadMessage. intros H I.
  destruct (objs s !! this) as [tw|] eqn:Htw; simpl in H; [|done].
  destruct pc.
  - destruct ch; try done.
    case_bool_decide; simplify_eq; by apply (queue_inv_frame s).
  - destruct (Win32.CreateEvent _ ch s) as [[h s1]|] eqn:E;
      simpl in H; simplify_eq.
    apply CreateEvent_frame in E as (_ & _ & Ht & _).
    by apply (queue_inv_frame s).
  - destruct ch; simplify_eq.
    apply (queue_inv_frame (Win32.PostThreadMessage (m_threadId tw)
                              (mkMSG WM_EXIT_THREAD NULL) s).2); [done|].
    by apply queue_inv_PostThreadMessage.
  - destruct (WaitForSingleObject _ ch s) as [err|]; simpl in H; [|done].
    destruct (is_WAIT_TIMEOUT err); simplify_eq; by apply (queue_inv_frame s).
  - destruct ch; simplify_eq.
    apply (queue_inv_frame (Win32.TerminateThread (m_hThread tw) s)); [done|].
    by apply queue_inv_TerminateThread.
  - destruct ch; simplify_eq. by apply (queue_inv_frame s).
  - destruct ch; simplify_eq. by apply (queue_inv_frame s).
  - destruct ch; simplify_eq. by apply (queue_inv_frame s).
  - destruct ch; simplify_eq. by apply (queue_inv_frame s).
Qed.

Lemma queue_inv_RunProcess t ch s s' :
  RunProcess t ch s = Some s' → queue_inv s → queue_inv s'.
Proof.
  unfold RunProcess, Process. intros H I.
  destruct (threads s !! t) as [th|] eqn:Hth; simpl in H; [|done].
  destruct (th_alive th) eqn:Ha; simpl in H; [|done].
  destruct (objs s !! th_this th) as [tw|]; simpl in H; [|done].
  destruct (th_pc th) eqn:Hpc.
  - destruct ch; simplify_eq. apply queue_inv_jump.
    eapply (queue_inv_alter _ t s); [done| |done].
    intros th' ?. simplify_eq. by apply queue_ok_make_queue.
  - destruct ch; simplify_eq. apply queue_inv_jump.
    by apply (queue_inv_frame s).
  - destruct (WaitForSingleObject _ _ s); simplify_eq/=.
    apply queue_inv_jump. by apply (queue_inv_frame s).
  - destruct ch; try done.
    destruct (GetMessage t s) as [[msg s1]|] eqn:E; simpl in H; [|done].
    apply GetMessage_Some in E as [-> _].
    assert (queue_inv (with_threads (alter dequeue t) s)) as I1.
    { eapply (queue_inv_alter _ t s); [done| |done].
      auto using queue_ok_dequeue. }
    destruct (message msg); simplify_eq.
    + case_bool_decide; simplify_eq; [|by eapply queue_inv_frame].
      simpl in H.
      destruct (heap s !! wParam msg); simplify_eq; by eapply queue_inv_frame.
    + by apply queue_inv_jump.
    + by eapply queue_inv_frame.
  - destruct ch; simplify_eq. apply queue_inv_jump.
    by apply (queue_inv_frame s).
  - destruct ch; simplify_eq.
    eapply (queue_inv_alter _ t s); [done| |done]. auto using queue_ok_finish.
  - by destruct ch.
Qed.

Lemma queue_inv_step l s s' :
  step l s = Some s' → queue_inv s → queue_inv s'.
Proof.
  unfold step. destruct (fault s) eqn:Hf; [done|]. destruct l as [[c|t] ch];
    [|apply queue_inv_RunProcess].
  unfold coord_step, PostThreadMessage, NewThreadMsg, StartAllThreads.
  intros H I.
  destruct (coords s !! c) as [co|]; simpl in H; [|done].
  destruct (c_pc co).
  - destruct (head (c_script co)) as [call|]; simpl in H; [|done].
    destruct call.
    + eapply queue_inv_CreateThread in H; eauto.
    + destruct ch; simplify_eq. by apply (queue_inv_frame s).
    + destruct ch; try done. case_match; simplify_eq.
      by apply (queue_inv_frame s).
    + destruct ch; try done.
      destruct (objs s !! o) as [tw|]; simplify_eq/=.
      apply (queue_inv_frame (Win32.PostThreadMessage (m_threadId tw)
                                (mkMSG msg (data_of co data)) s).2); [done|].
      by apply queue_inv_PostThreadMessage.
    + destruct ch; simplify_eq. by apply (queue_inv_frame s).
    + eapply queue_inv_ExitThread in H; eauto.
  - eapply queue_inv_CreateThread; eauto.
  - eapply queue_inv_ExitThread; eauto.
Qed.

Lemma reachable_queue_inv hS ws progs s :
  reachable hS ws progs s → queue_inv s.
Proof.
  apply reachable_ind; [done|].
  intros s0 l s1 _ I Hs. by eapply queue_inv_step.
Qed.

(** ** The coordinator that owns an instance *)

Lemma list_alter_alter {A} (f g : A → A) (l : list A) i :
  alter f i (alter g i l) = alter (f ∘ g) i l.
Proof.
  apply list_eq. intros j. destruct (decide (i = j)) as [<-|?].
  - rewrite !list_lookup_alter_eq. by destruct (l !! i).
  - by rewrite !list_lookup_alter_ne.
Qed.

Lemma Win32_CreateThread_frame this id ch s h id' s1 :
  Win32.CreateThread this id ch s = Some (h, id', s1) →
  objs s1 = objs s ∧ fault s1 = fault s ∧ events s1 = events s
  ∧ coords s1 = coords s ∧ heap s1 = heap s ∧ cout s1 = cout s
  ∧ releases s1 = releases s
  ∧ m_hStartAllThreads s1 = m_hStartAllThreads s
  ∧ (h = NULL ↔ ch = Fail).
Proof.
  intros [(-> & -> & -> & ->)|(-> & ? & ? & ? & -> & ->)]%CreateThread_Some;
    split_and!; try done.
Qed.

Lemma local_effect_intro c1 this o co1 s s' g f :
  coords s' = alter g c1 (coords s) ∨ (coords s' = coords s ∧ g = id) →
  objs s' = alter f this (objs s) ∨ (objs s' = objs s ∧ f = id) →
  coords s !! c1 = Some co1 →
  c_script (g co1) = c_script co1 →
  (c_pc (g co1) = c_pc co1 ∨ pc_object (c_pc (g co1)) = Some this
   ∨ c_pc (g co1) = PC_Idle) →
  (∀ tw, objs s !! o = Some tw → owner_ok o co1 tw →
         (this ≠ o → owner_ok o (g co1) tw)
         ∧ (this = o → owner_ok o (g co1) (f tw))) →
  local_effect c1 this o co1 s s'.
Proof.
  intros Hc Ho Hco Hscr Hpc Hok. split_and!.
  - intros c2 Hne. destruct Hc as [->|[-> _]]; [|done].
    by rewrite list_lookup_alter_ne.
  - intros Hne. destruct Ho as [->|[-> _]]; [|done].
    by rewrite list_lookup_alter_ne.
  - exists (g co1). split_and!; try done.
    { destruct Hc as [->|[-> ->]]; [|done].
      by rewrite list_lookup_alter_eq, Hco. }
    intros tw Htw Hown. destruct (Hok tw Htw Hown) as [H1 H2].
    destruct (decide (this = o)) as [->|Hne].
    + destruct Ho as [->|[-> ->]]; [|by eauto].
      rewrite list_lookup_alter_eq, Htw. simpl. eauto.
    + destruct Ho as [->|[-> ->]]; [|by eauto].
      rewrite list_lookup_alter_ne by done. eauto.
Qed.

Lemma coords_goto c pc s :
  fault s = None → coords (goto c pc s) = alter (set_c_pc pc) c (coords s).
Proof. intros H. unfold goto, running. by rewrite H. Qed.

Lemma coords_returns c r s :
  fault s = None → coords (returns c r s) = alter (give_back r) c (coords s).
Proof. intros H. unfold returns, running. by rewrite H. Qed.

Lemma last_snoc_ne {A} (l : list A) x y : x ≠ y → last (l ++ [x]) ≠ Some y.
Proof. rewrite last_snoc. congruence. Qed.

Ltac coords_tac :=
  left; rewrite ?coords_goto, ?coords_returns by (simpl; congruence);
  simpl;
  repeat match goal with H : coords _ = coords _ |- _ => rewrite H end;
  reflexivity.

Ltac owner_tac Hpc :=
  let tw := fresh "tw" in
  let Htw := fresh "Htw" in
  intros tw Htw; unfold owner_ok; simpl;
  repeat match goal with
         | H : _ ∨ _ |- _ => destruct H as [H|H]
         | H : _ ∧ _ |- _ => destruct H as [H ?]
         end;
  try rewrite Hpc; simpl; rewrite ?last_snoc;
  repeat case_decide; simplify_eq; naive_solver.

Lemma CreateThread_local c1 this pc ch s s' co1 o :
  CreateThread c1 this pc ch s = Some s' →
  coords s !! c1 = Some co1 → fault s = None →
  c_pc co1 = InCreateThread this pc ∨ (c_pc co1 = PC_Idle ∧ pc = CT_Enter) →
  local_effect c1 this o co1 s s'.
Proof.
  unfold CreateThread. intros H Hco Hf Hpc.
  destruct (objs s !! this) as [tw0|] eqn:Htw; simpl in H; [|done].
  destruct pc.
  - destruct ch; try done. destruct (negb _); simplify_eq.
    + eapply (local_effect_intro _ _ _ _ _ _ _ id);
        [coords_tac|by right|done|done|simpl; auto|].
      owner_tac Hpc.
    + eapply (local_effect_intro _ _ _ _ _ _ _ id);
        [coords_tac|by right|done|done|simpl; auto|].
      owner_tac Hpc.
  - destruct (Win32.CreateEvent _ ch s) as [[h s1]|] eqn:E;
      simpl in H; simplify_eq.
    apply CreateEvent_frame in E as (Ho & Hf1 & _ & Hc & _).
    eapply (local_effect_intro _ _ _ _ _ _ _ (set_hThreadStarted h)).
    + left. rewrite coords_goto by (simpl; congruence). simpl. by rewrite Hc.
    + left. simpl. by rewrite Ho.
    + done.
    + done.
    + simpl; auto.
    + owner_tac Hpc.
  - destruct (Win32.CreateThread _ _ ch s) as [[[h tid] s1]|] eqn:E;
      simpl in H; simplify_eq.
    apply Win32_CreateThread_frame in E as (Ho & Hf1 & _ & Hc & _).
    case_bool_decide.
    + eapply (local_effect_intro _ _ _ _ _ _ _
                (set_threadId tid ∘ set_hThread h)).
      * left. rewrite coords_goto by (simpl; congruence). simpl.
        by rewrite Hc.
      * left. simpl. by rewrite list_alter_alter, Ho.
      * done.
      * done.
      * simpl; auto.
      * owner_tac Hpc.
    + eapply (local_effect_intro _ _ _ _ _ _ id
                (set_threadId tid ∘ set_hThread h)).
      * right. by rewrite <- Hc.
      * left. simpl. by rewrite list_alter_alter, Ho.
      * done.
      * done.
      * simpl; auto.
      * owner_tac Hpc.
  - destruct (WaitForSingleObject _ ch s) as [err|];
      simpl in H; simplify_eq.
    destruct (is_WAIT_OBJECT_0 err).
    + eapply (local_effect_intro _ _ _ _ _ _ _ id);
        [coords_tac|by right|done|done|simpl; auto|].
      owner_tac Hpc.
    + eapply (local_effect_intro _ _ _ _ _ _ id id);
        [by right|by right|done|done|simpl; auto|].
      owner_tac Hpc.
  - destruct ch; simplify_eq.
    eapply (local_effect_intro _ _ _ _ _ _ _ id);
      [coords_tac|by right|done|done|simpl; auto|].
    owner_tac Hpc.
  - destruct ch; simplify_eq.
    eapply (local_effect_intro _ _ _ _ _ _ _
              (set_hThreadStarted INVALID_HANDLE_VALUE));
      [coords_tac|by left|done|done|simpl; auto|].
    owner_tac Hpc.
  - destruct ch; simplify_eq.
    eapply (local_effect_intro _ _ _ _ _ _ _ id);
      [coords_tac|by right|done|done|simpl; auto|].
    owner_tac Hpc.
Qed.

Lemma ExitThread_local c1 this pc ch s s' co1 o :
  ExitThread c1 this pc ch s = Some s' →
  coords s !! c1 = Some co1 → fault s = None →
  c_pc co1 = InExitThread this pc ∨ (c_pc co1 = PC_Idle ∧ pc = ET_Enter) →
  local_effect c1 this o co1 s s'.
Proof.
  unfold ExitThread, PostThreadMessage. intros H Hco Hf Hpc.
  destruct (objs s !! this) as [tw0|] eqn:Htw; simpl in H; [|done].
  destruct pc.
  - destruct ch; try done. case_bool_decide as Hg; simplify_eq.
    + eapply (local_effect_intro _ _ _ _ _ _ _ id);
        [coords_tac|by right|done|done|simpl; auto|].
      owner_tac Hpc.
    + eapply (local_effect_intro _ _ _ _ _ _ _ id);
        [coords_tac|by right|done|done|simpl; auto|].
      owner_tac Hpc.
  - destruct (Win32.CreateEvent _ ch s) as [[h s1]|] eqn:E;
      simpl in H; simplify_eq.
    apply CreateEvent_frame in E as (Ho & Hf1 & _ & Hc & _).
    eapply (local_effect_intro _ _ _ _ _ _ _ (set_hThreadExited h)).
    + coords_tac.
    + left. simpl. by rewrite Ho.
    + done.
    + done.
    + simpl; auto.
    + owner_tac Hpc.
  - destruct ch; simplify_eq.
    eapply (local_effect_intro _ _ _ _ _ _ _ id);
      [coords_tac|by right|done|done|simpl; auto|].
    owner_tac Hpc.
  - destruct (WaitForSingleObject _ ch s) as [err|]; simpl in H; [|done].
    destruct (is_WAIT_TIMEOUT err); simplify_eq.
    + eapply (local_effect_intro _ _ _ _ _ _ _ id);
        [coords_tac|by right|done|done|simpl; auto|].
      owner_tac Hpc.
    + eapply (local_effect_intro _ _ _ _ _ _ _ id);
        [coords_tac|by right|done|done|simpl; auto|].
      owner_tac Hpc.
  - destruct ch; simplify_eq.
    eapply (local_effect_intro _ _ _ _ _ _ _ id);
      [coords_tac|by right|done|done|simpl; auto|].
    owner_tac Hpc.
  - destruct ch; simplify_eq.
    eapply (local_effect_intro _ _ _ _ _ _ _ id);
      [coords_tac|by right|done|done|simpl; auto|].
    owner_tac Hpc.
  - destruct ch; simplify_eq.
    eapply (local_effect_intro _ _ _ _ _ _ _
              (set_hThread INVALID_HANDLE_VALUE));
      [coords_tac|by left|done|done|simpl; auto|].
    owner_tac Hpc.
  - destruct ch; simplify_eq.
    eapply (local_effect_intro _ _ _ _ _ _ _ id);
      [coords_tac|by right|done|done|simpl; auto|].
    owner_tac Hpc.
  - destruct ch; simplify_eq.
    eapply (local_effect_intro _ _ _ _ _ _ _
              (set_hThreadExited INVALID_HANDLE_VALUE));
      [coords_tac|by left|done|done|simpl; auto|].
    owner_tac Hpc.
Qed.


Lemma local_coord_effect c1 this o co1 s s' :
  pc_object (c_pc co1) = Some this →
  local_effect c1 this o co1 s s' → coord_effect c1 o co1 s s'.
Proof.
  intros Hthis (Hc & Ho & co1' & Hco1' & Hscr & Hpc & Hown).
  split; [done|]. exists co1'. split_and!; try done.
  intros Hno. assert (o ≠ this) as Hne.
  { intros ->. apply Hno. by left. }
  split; [|by apply Ho].
  intros [Hu|(call & Hin & Hcall)].
  - destruct Hpc as [Hpc|[Hpc|Hpc]]; rewrite Hpc in Hu; by simplify_eq/=.
  - apply Hno. right. exists call. by rewrite <- Hscr.
Qed.

Lemma idle_coord_effect c1 this o co1 s s' call :
  c_pc co1 = PC_Idle → head (c_script co1) = Some call →
  lifecycle_object call = Some this →
  coords s !! c1 = Some co1 →
  local_effect c1 this o (pop_call co1)
    (with_coords (alter pop_call c1) s) s' →
  coord_effect c1 o co1 s s'.
Proof.
  intros Hidle Hhead Hcall Hco (Hc & Ho & co1' & Hco1' & Hscr & Hpc & Hown).
  assert (call ∈ c_script co1) as Hin.
  { destruct (c_script co1); simplify_eq/=. left. }
  split.
  { intros c2 Hne. rewrite Hc by done. simpl.
    by rewrite list_lookup_alter_ne. }
  exists co1'. split_and!; try done.
  - intros Hno. assert (o ≠ this) as Hne.
    { intros ->. apply Hno. right. eauto. }
    split; [|by apply Ho].
    intros [Hu|(call' & Hin' & Hcall')].
    + destruct Hpc as [Hpc|[Hpc|Hpc]]; rewrite Hpc in Hu; simplify_eq/=.
      by rewrite Hidle in Hu.
    + apply Hno. right. exists call'. split; [|done].
      rewrite Hscr in Hin'. simpl in Hin'.
      destruct (c_script co1); simplify_eq/=. by right.
Qed.

Lemma plain_coord_effect c1 o co1 s s' g :
  c_pc co1 = PC_Idle →
  coords s !! c1 = Some co1 →
  coords s' = alter g c1 (coords s) → objs s' = objs s →
  c_pc (g co1) = PC_Idle →
  c_script (g co1) = tail (c_script co1) →
  (c_rets (g co1) = c_rets co1
   ∨ ∃ r, c_rets (g co1) = c_rets co1 ++ [r] ∧ r ≠ RetExitThread o) →
  coord_effect c1 o co1 s s'.
Proof.
  intros Hidle Hco Hc Ho Hpc Hscr Hrets. split.
  { intros c2 Hne. rewrite Hc. by rewrite list_lookup_alter_ne. }
  exists (g co1). split_and!.
  - by rewrite Hc, list_lookup_alter_eq, Hco.
  - intros Hno. rewrite Ho. split; [|done].
    intros [Hu|(call' & Hin' & Hcall')].
    + by rewrite Hpc in Hu.
    + apply Hno. right. exists call'. split; [|done].
      rewrite Hscr in Hin'. destruct (c_script co1); simplify_eq/=; [|by right].
      by apply elem_of_nil in Hin'.
  - intros tw Htw. rewrite Ho. exists tw. split; [done|].
    unfold owner_ok in *. rewrite Hpc. rewrite Hidle in H.
    destruct H as [H1 H2]. split; [done|].
    destruct Hrets as [->|(r & -> & Hr)]; [done|].
    rewrite last_snoc. congruence.
Qed.

Lemma coord_step_effect c1 ch s s' co1 o :
  coord_step c1 ch s = Some s' → coords s !! c1 = Some co1 →
  fault s = None → coord_effect c1 o co1 s s'.
Proof.
  unfold coord_step. intros H Hco Hf. rewrite Hco in H. simpl in H.
  destruct (c_pc co1) as [|this pc|this pc] eqn:Hpc.
  - destruct (head (c_script co1)) as [call|] eqn:Hhead; simpl in H; [|done].
    destruct call.
    + eapply idle_coord_effect; [done..|].
      eapply CreateThread_local; [done| |done|by right].
      simpl. by rewrite list_lookup_alter_eq, Hco.
    + destruct ch; simplify_eq.
      eapply (plain_coord_effect _ _ _ _ _ pop_call); try done; by left.
    + destruct ch; try done. unfold NewThreadMsg in H.
      case_match; simplify_eq.
      eapply (plain_coord_effect _ _ _ _ _ (set_threadMsg _ ∘ pop_call));
        try done; [|by left].
      simpl. by rewrite list_alter_alter.
    + destruct ch; try done. unfold PostThreadMessage in H. simpl in H.
      destruct (objs s !! o0) as [tw|]; simplify_eq/=.
      eapply (plain_coord_effect _ _ _ _ _ (give_back _ ∘ pop_call));
        try done.
      * unfold returns, running. simpl. rewrite Hf. simpl.
        by rewrite list_alter_alter.
      * right. eexists. split; [done|]. done.
    + destruct ch; simplify_eq.
      eapply (plain_coord_effect _ _ _ _ _ pop_call); try done; by left.
    + eapply idle_coord_effect; [done..|].
      eapply ExitThread_local; [done| |done|by right].
      simpl. by rewrite list_lookup_alter_eq, Hco.
  - eapply local_coord_effect; [by rewrite Hpc|].
    eapply CreateThread_local; eauto.
  - eapply local_coord_effect; [by rewrite Hpc|].
    eapply ExitThread_local; eauto.
Qed.

Lemma ownership_inv_step c o l s s' :
  step l s = Some s' → ownership_inv c o s → ownership_inv c o s'.
Proof.
  unfold step. destruct (fault s) eqn:Hf; [done|].
  destruct l as [[c1|t] ch].
  - intros H I. destruct (coords s !! c1) as [co1|] eqn:Hco;
      [|by unfold coord_step in H; rewrite Hco in H].
    destruct (coord_step_effect _ _ _ _ _ o H Hco Hf)
      as (Hother & co1' & Hco1' & Huse & Hown).
    pose proof (I c1 co1 Hco) as I1.
    intros c2 co2 Hco2. destruct (decide (c2 = c1)) as [->|Hne].
    + simplify_eq. destruct (decide (c1 = c)) as [->|Hnc].
      * destruct I1 as (tw & Htw & Hok). eauto.
      * by apply Huse.
    + rewrite Hother in Hco2 by done. pose proof (I c2 co2 Hco2) as I2.
      destruct (decide (c2 = c)) as [->|Hnc]; [|done].
      destruct (decide (c1 = c)) as [->|Hnc1]; [done|].
      destruct (Huse I1) as [_ Heq]. by rewrite Heq.
  - intros (Ho & Hc & _)%RunProcess_frame I. unfold ownership_inv.
    by rewrite Ho, Hc.
Qed.

Lemma ownership_inv_boot c o hS ws progs :
  o < length ws →
  (∀ c' p call, c' ≠ c → progs !! c' = Some p → call ∈ p →
                lifecycle_object call ≠ Some o) →
  ownership_inv c o (boot hS ws progs).
Proof.
  intros Ho Hprogs c1 co1 Hco1. unfold boot, coords in Hco1.
  apply list_lookup_fmap_Some in Hco1 as (p & -> & Hp).
  destruct (decide (c1 = c)) as [->|Hne].
  - apply lookup_lt_is_Some in Ho as [w Hw].
    exists (new_ThreadWin w.1 w.2). split.
    + unfold boot, objs. by rewrite list_lookup_fmap, Hw.
    + done.
  - intros [Hu|(call & Hin & Hcall)]; [done|]. simpl in Hin.
    by eapply Hprogs.
Qed.

Lemma reachable_ownership_inv c o hS ws progs s :
  o < length ws →
  (∀ c' p call, c' ≠ c → progs !! c' = Some p → call ∈ p →
                lifecycle_object call ≠ Some o) →
  reachable hS ws progs s → ownership_inv c o s.
Proof.
  intros Ho Hprogs. apply reachable_ind; [by apply ownership_inv_boot|].
  intros s0 l s1 _ I Hs. by eapply ownership_inv_step.
Qed.

(** ** The work loop *)

Lemma loop_inv_alter f t s s' :
  threads s' = alter f t (threads s) →
  (∀ th, threads s !! t = Some th → loop_ok th → loop_ok (f th)) →
  loop_inv s → loop_inv s'.
Proof.
  unfold loop_inv. intros -> Hf I j th'
    (th & Hth & [->|[-> ->]])%list_alter_Some_inv; eauto.
Qed.

Lemma loop_inv_frame s s' :
  threads s' = threads s → loop_inv s → loop_inv s'.
Proof. unfold loop_inv. by intros ->. Qed.

Lemma loop_inv_PostThreadMessage tid m s :
  loop_inv s → loop_inv (Win32.PostThreadMessage tid m s).2.
Proof.
  intros I. simpl. destruct (Win32.receiver tid s) as [t|];
    [|by apply (loop_inv_frame s)].
  by eapply (loop_inv_alter _ t s).
Qed.

Lemma loop_inv_TerminateThread h s :
  loop_inv s → loop_inv (Win32.TerminateThread h s).
Proof.
  intros I. unfold Win32.TerminateThread.
  destruct (Win32.thread_of h s) as [t|]; [|by apply (loop_inv_frame s)].
  by eapply (loop_inv_alter _ t s).
Qed.

Lemma loop_inv_jump t pc s :
  (∀ th, threads s !! t = Some th → loop_ok th → loop_ok (set_th_pc pc th)) →
  loop_inv s → loop_inv (jump t pc s).
Proof.
  intros Hpc I. unfold jump. destruct (running s);
    [|by apply (loop_inv_frame s)].
  by eapply (loop_inv_alter _ t s).
Qed.

Lemma loop_inv_CreateThread c this pc ch s s' :
  CreateThread c this pc ch s = Some s' → loop_inv s → loop_inv s'.
Proof.
  unfold CreateThread. intros H I.
  destruct (objs s !! this) as [tw|] eqn:Htw; simpl in H; [|done].
  destruct pc.
  - destruct ch; try done.
    destruct (negb _); simplify_eq; by apply (loop_inv_frame s).
  - destruct (Win32.CreateEvent _ ch s) as [[h s1]|] eqn:E;
      simpl in H; simplify_eq.
    apply CreateEvent_frame in E as (_ & _ & Ht & _).
    by apply (loop_inv_frame s).
  - destruct (Win32.CreateThread _ _ ch s) as [[[h tid] s1]|] eqn:E;
      simpl in H; simplify_eq.
    apply CreateThread_Some in E
      as [(-> & -> & -> & ->)|(-> & ? & ? & Hfresh & -> & ->)];
      [by apply (loop_inv_frame s)|].
    intros t th. simpl. intros [Hth|[_ Hth]]%lookup_app_Some; [by eauto|].
    by apply list_lookup_singleton_Some in Hth as [_ <-].
  - destruct (WaitForSingleObject _ ch s); simpl in H; simplify_eq.
    by apply (loop_inv_frame s).
  - destruct ch; simplify_eq. by apply (loop_inv_frame s).
  - destruct ch; simplify_eq. by apply (loop_inv_frame s).
  - destruct ch; simplify_eq. by apply (loop_inv_frame s).
Qed.

Lemma loop_inv_ExitThread c this pc ch s s' :
  ExitThread c this pc ch s = Some s' → loop_inv s → loop_inv s'.
Proof.
  unfold ExitThread, PostThreadMessage. intros H I.
  destruct (objs s !! this) as [tw|] eqn:Htw; simpl in H; [|done].
  destruct pc.
  - destruct ch; try done.
    case_bool_decide; simplify_eq; by apply (loop_inv_frame s).
  - destruct (Win32.CreateEvent _ ch s) as [[h s1]|] eqn:E;
      simpl in H; simplify_eq.
    apply CreateEvent_frame in E as (_ & _ & Ht & _).
    by apply (loop_inv_frame s).
  - destruct ch; simplify_eq.
    apply (loop_inv_frame (Win32.PostThreadMessage (m_threadId tw)
                             (mkMSG WM_EXIT_THREAD NULL) s).2); [done|].
    by apply loop_inv_PostThreadMessage.
  - destruct (WaitForSingleObject _ ch s) as [err|]; simpl in H; [|done].
    destruct (is_WAIT_TIMEOUT err); simplify_eq; by apply (loop_inv_frame s).
  - destruct ch; simplify_eq.
    apply (loop_inv_frame (Win32.TerminateThread (m_hThread tw) s)); [done|].
    by apply loop_inv_TerminateThread.
  - destruct ch; simplify_eq. by apply (loop_inv_frame s).
  - destruct ch; simplify_eq. by apply (loop_inv_frame s).
  - destruct ch; simplify_eq. by apply (loop_inv_frame s).
  - destruct ch; simplify_eq. by apply (loop_inv_frame s).
Qed.

Lemma loop_ok_dequeue th msg q :
  th_pc th = RP_Process → th_queue th = Some (msg :: q) →
  message msg ≠ WM_EXIT_THREAD → loop_ok th → loop_ok (dequeue th).
Proof.
  unfold loop_ok, no_stop. simpl. intros -> -> Hm Hg. simpl.
  apply Forall_app. split; [done|]. by constructor.
Qed.

Lemma loop_ok_stop th w q :
  th_pc th = RP_Process → th_queue th = Some (mkMSG WM_EXIT_THREAD w :: q) →
  loop_ok th → loop_ok (set_th_pc RP_SetExited (dequeue th)).
Proof.
  unfold loop_ok. simpl. intros -> -> Hg. simpl. eauto.
Qed.

Lemma loop_inv_RunProcess t ch s s' :
  RunProcess t ch s = Some s' → fault s = None → loop_inv s → loop_inv s'.
Proof.
  unfold RunProcess, Process. intros H Hf I.
  destruct (threads s !! t) as [th|] eqn:Hth; simpl in H; [|done].
  destruct (th_alive th) eqn:Ha; simpl in H; [|done].
  destruct (objs s !! th_this th) as [tw|]; simpl in H; [|done].
  destruct (th_pc th) eqn:Hpc.
  - destruct ch; simplify_eq. apply loop_inv_jump.
    { simpl. intros th' (th0 & ? & [->|[_ ->]])%list_alter_Some_inv;
        simplify_eq; unfold loop_ok; simpl; by rewrite Hpc. }
    by eapply (loop_inv_alter _ t s).
  - destruct ch; simplify_eq. apply loop_inv_jump;
      [|by apply (loop_inv_frame s)].
    simpl. intros th' ?. simplify_eq. unfold loop_ok. simpl. rewrite Hpc.
    intros ->. destruct (SYNC_START tw); simpl; [done|constructor].
  - destruct (WaitForSingleObject _ _ s); simplify_eq/=.
    apply loop_inv_jump; [|by apply (loop_inv_frame s)].
    simpl. intros th' ?. simplify_eq. unfold loop_ok. simpl. rewrite Hpc.
    intros ->. constructor.
  - destruct ch; try done.
    destruct (GetMessage t s) as [[msg s1]|] eqn:E; simpl in H; [|done].
    apply GetMessage_Some in E as [-> (th0 & q & ? & Hq)]. simplify_eq.
    destruct (message msg) eqn:Hm.
    + assert (loop_inv (with_threads (alter dequeue t) s)) as I1.
      { eapply (loop_inv_alter _ t s); [done| |done].
        intros th' ?. simplify_eq.
        eapply loop_ok_dequeue; [done..|congruence]. }
      case_bool_decide; simplify_eq; [|by eapply loop_inv_frame].
      simpl in H.
      destruct (heap s !! wParam msg); simplify_eq; by eapply loop_inv_frame.
    + simplify_eq. unfold jump, running. simpl. rewrite Hf.
      eapply (loop_inv_alter (set_th_pc RP_SetExited ∘ dequeue) t s);
        [simpl; by rewrite list_alter_alter| |done].
      intros th' ?. simplify_eq. destruct msg as [? w]. simpl in Hm.
      subst. by eapply loop_ok_stop.
    + simplify_eq. eapply (loop_inv_alter _ t s); [done| |done].
      intros th' ?. simplify_eq.
      eapply loop_ok_dequeue; [done..|congruence].
  - destruct ch; simplify_eq. apply loop_inv_jump;
      [|by apply (loop_inv_frame s)].
    simpl. intros th' ?. simplify_eq. unfold loop_ok. simpl. by rewrite Hpc.
  - destruct ch; simplify_eq.
    eapply (loop_inv_alter _ t s); [done| |done].
    intros th' ?. simplify_eq. unfold loop_ok. simpl. by rewrite Hpc.
  - by destruct ch.
Qed.

Lemma loop_inv_step l s s' :
  step l s = Some s' → loop_inv s → loop_inv s'.
Proof.
  unfold step. destruct (fault s) eqn:Hf; [done|]. destruct l as [[c|t] ch];
    [|intros; by eapply loop_inv_RunProcess].
  unfold coord_step, PostThreadMessage, NewThreadMsg, StartAllThreads.
  intros H I.
  destruct (coords s !! c) as [co|]; simpl in H; [|done].
  destruct (c_pc co).
  - destruct (head (c_script co)) as [call|]; simpl in H; [|done].
    destruct call.
    + eapply loop_inv_CreateThread in H; eauto.
    + destruct ch; simplify_eq. by apply (loop_inv_frame s).
    + destruct ch; try done. case_match; simplify_eq.
      by apply (loop_inv_frame s).
    + destruct ch; try done.
      destruct (objs s !! o) as [tw|]; simplify_eq/=.
      apply (loop_inv_frame (Win32.PostThreadMessage (m_threadId tw)
                               (mkMSG msg (data_of co data)) s).2); [done|].
      by apply loop_inv_PostThreadMessage.
    + destruct ch; simplify_eq. by apply (loop_inv_frame s).
    + eapply loop_inv_ExitThread in H; eauto.
  - eapply loop_inv_CreateThread; eauto.
  - eapply loop_inv_ExitThread; eauto.
Qed.

Lemma reachable_loop_inv hS ws progs s :
  reachable hS ws progs s → loop_inv s.
Proof.
  apply reachable_ind; [done|].
  intros s0 l s1 _ I Hs. by eapply loop_inv_step.
Qed.

(** ** Payloads *)

Lemma CreateThread_heap c this pc ch s s' :
  CreateThread c this pc ch s = Some s' → heap s' = heap s.
Proof.
  unfold CreateThread. intros H.
  destruct (objs s !! this) as [tw|]; simpl in H; [|done].
  destruct pc.
  - destruct ch; try done. by destruct (negb _); simplify_eq.
  - destruct (Win32.CreateEvent _ ch s) as [[h s1]|] eqn:E;
      simpl in H; simplify_eq.
    by apply CreateEvent_frame in E as (_ & _ & _ & _ & ? & _).
  - destruct (Win32.CreateThread _ _ ch s) as [[[h tid] s1]|] eqn:E;
      simpl in H; simplify_eq.
    by apply Win32_CreateThread_frame in E as (_ & _ & _ & _ & ? & _).
  - by destruct (WaitForSingleObject _ ch s); simpl in H; simplify_eq.
  - by destruct ch; simplify_eq.
  - by destruct ch; simplify_eq.
  - by destruct ch; simplify_eq.
Qed.

Lemma ExitThread_heap c this pc ch s s' :
  ExitThread c this pc ch s = Some s' → heap s' = heap s.
Proof.
  unfold ExitThread, PostThreadMessage. intros H.
  destruct (objs s !! this) as [tw|]; simpl in H; [|done].
  destruct pc.
  - destruct ch; try done. by case_bool_decide; simplify_eq.
  - destruct (Win32.CreateEvent _ ch s) as [[h s1]|] eqn:E;
      simpl in H; simplify_eq.
    by apply CreateEvent_frame in E as (_ & _ & _ & _ & ? & _).
  - by destruct ch; simplify_eq.
  - destruct (WaitForSingleObject _ ch s) as [err|]; simpl in H; [|done].
    by destruct (is_WAIT_TIMEOUT err); simplify_eq.
  - by destruct ch; simplify_eq.
  - by destruct ch; simplify_eq.
  - by destruct ch; simplify_eq.
  - by destruct ch; simplify_eq.
  - by destruct ch; simplify_eq.
Qed.

Lemma coord_step_heap c ch s s' p text :
  coord_step c ch s = Some s' →
  heap s !! p = Some text → heap s' !! p = Some text.
Proof.
  unfold coord_step, PostThreadMessage, NewThreadMsg, StartAllThreads.
  intros H Hp.
  destruct (coords s !! c) as [co|]; simpl in H; [|done].
  destruct (c_pc co).
  - destruct (head (c_script co)) as [call|]; simpl in H; [|done].
    destruct call.
    + apply CreateThread_heap in H. by rewrite H.
    + by destruct ch; simplify_eq.
    + destruct ch; try done. simpl in H.
      destruct (bool_decide (h ≠ NULL)); simpl in H; [|done].
      case_bool_decide; simplify_eq. simpl.
      rewrite lookup_insert_ne; [done|]. congruence.
    + destruct ch; try done.
      by destruct (objs s !! o) as [tw|]; simplify_eq/=.
    + by destruct ch; simplify_eq.
    + apply ExitThread_heap in H. by rewrite H.
  - apply CreateThread_heap in H. by rewrite H.
  - apply ExitThread_heap in H. by rewrite H.
Qed.

(** The member functions commute with a change of the heap. *)
Lemma CreateEvent_with_heap g name ch s :
  Win32.CreateEvent name ch (with_heap g s)
  = (λ r, (r.1, with_heap g r.2)) <$> Win32.CreateEvent name ch s.
Proof.
  unfold Win32.CreateEvent, Win32.fresh_handle. destruct ch; try done.
  simpl. destruct (_ && _); [|done].
  by destruct (Win32.find_event name (events s)) as [[e ev]|].
Qed.

Lemma Win32_CreateThread_with_heap g this id ch s :
  Win32.CreateThread this id ch (with_heap g s)
  = (λ r, (r.1, with_heap g r.2)) <$> Win32.CreateThread this id ch s.
Proof.
  unfold Win32.CreateThread, Win32.fresh_handle. destruct ch; try done.
  simpl. by destruct (_ && _).
Qed.

Lemma CreateThread_with_heap g c this pc ch s :
  CreateThread c this pc ch (with_heap g s)
  = with_heap g <$> CreateThread c this pc ch s.
Proof.
  unfold CreateThread. simpl. destruct (objs s !! this) as [tw|]; [|done].
  simpl. destruct pc.
  - destruct ch; try done. by destruct (negb _).
  - rewrite CreateEvent_with_heap.
    by destruct (Win32.CreateEvent _ ch s) as [[h s1]|].
  - rewrite Win32_CreateThread_with_heap.
    by destruct (Win32.CreateThread _ _ ch s) as [[[h tid] s1]|].
  - unfold WaitForSingleObject. simpl.
    change (Win32.probe (m_hThreadStarted tw) (with_heap g s))
      with (Win32.probe (m_hThreadStarted tw) s).
    by destruct (Win32.probe _ s), ch.
  - by destruct ch.
  - by destruct ch.
  - by destruct ch.
Qed.

Lemma ExitThread_with_heap g c this pc ch s :
  ExitThread c this pc ch (with_heap g s)
  = with_heap g <$> ExitThread c this pc ch s.
Proof.
  unfold ExitThread, PostThreadMessage. simpl.
  destruct (objs s !! this) as [tw|]; [|done].
  simpl. destruct pc.
  - destruct ch; try done. by case_bool_decide.
  - rewrite CreateEvent_with_heap.
    by destruct (Win32.CreateEvent _ ch s) as [[h s1]|].
  - by destruct ch.
  - unfold WaitForSingleObject. simpl.
    change (Win32.probe (m_hThreadExited tw) (with_heap g s))
      with (Win32.probe (m_hThreadExited tw) s).
    by destruct (Win32.probe _ s), ch.
  - by destruct ch.
  - by destruct ch.
  - by destruct ch.
  - by destruct ch.
  - by destruct ch.
Qed.

Lemma coord_step_unread c ch s h' :
  dom h' = dom (heap s) →
  match coord_step c ch s, coord_step c ch (with_heap (λ _, h') s) with
  | Some s1, Some s2 =>
      ∃ h2, s2 = with_heap (λ _, h2) s1 ∧ dom h2 = dom (heap s1)
            ∧ ∀ p, heap s !! p = None → heap s1 !! p = h2 !! p
  | None, None => True
  | _, _ => False
  end.
Proof.
  intros Hdom. unfold coord_step. simpl.
  destruct (coords s !! c) as [co|]; [|done]. simpl.
  assert (∀ p, heap s !! p = None → h' !! p = None) as Hnone.
  { intros p Hp. apply not_elem_of_dom. rewrite Hdom.
    by apply not_elem_of_dom. }
  assert (∀ (F : State → option State),
            (∀ s0 s1, F s0 = Some s1 → heap s1 = heap s0) →
            (∀ g s0, F (with_heap g s0) = with_heap g <$> F s0) →
            ∀ s0, heap s0 = heap s →
            match F s0, F (with_heap (λ _, h') s0) with
            | Some s1, Some s2 =>
                ∃ h2, s2 = with_heap (λ _, h2) s1 ∧ dom h2 = dom (heap s1)
                      ∧ ∀ p, heap s !! p = None → heap s1 !! p = h2 !! p
            | None, None => True
            | _, _ => False
            end) as Hgen.
  { intros F Hheap Hcomm s0 Hs0. rewrite Hcomm.
    destruct (F s0) as [s1|] eqn:E; simpl; [|done].
    exists h'. rewrite (Hheap _ _ E), Hs0. split_and!; try done.
    intros p Hp. by rewrite Hp, Hnone. }
  destruct (c_pc co).
  - destruct (head (c_script co)) as [call|]; [|done]. simpl.
    destruct call.
    + apply (Hgen (CreateThread c o CT_Enter ch)
               (CreateThread_heap _ _ _ _)
               (λ g s0, CreateThread_with_heap g _ _ _ _ s0)
               (with_coords (alter pop_call c) s) eq_refl).
    + destruct ch; try done.
      assert (∀ s0 s1, Some (StartAllThreads s0) = Some s1 →
                       heap s1 = heap s0) as Hh by (by intros ?? [= <-]).
      apply (Hgen (λ s0, Some (StartAllThreads s0)) Hh (λ _ _, eq_refl)
               (with_coords (alter pop_call c) s) eq_refl).
    + destruct ch; try done. unfold NewThreadMsg. simpl.
      destruct (bool_decide (h ≠ NULL)); [|done]. simpl.
      destruct (heap s !! h) eqn:Hh.
      * rewrite bool_decide_eq_false_2 by done.
        rewrite bool_decide_eq_false_2; [done|].
        intros Hn. apply not_elem_of_dom in Hn. rewrite Hdom in Hn.
        apply Hn, elem_of_dom. eauto.
      * rewrite bool_decide_eq_true_2 by done.
        rewrite bool_decide_eq_true_2 by (by apply Hnone). simpl.
        exists (<[h:=text]> h'). split_and!; [done| |].
        -- by rewrite !dom_insert_L, Hdom.
        -- intros p Hp. destruct (decide (h = p)) as [->|?].
           ++ by rewrite !lookup_insert_eq.
           ++ rewrite !lookup_insert_ne by done. by rewrite Hp, Hnone.
    + destruct ch; try done. unfold PostThreadMessage. simpl.
      destruct (objs s !! o) as [tw|]; [|done]. simpl.
      exists h'. split_and!; try done.
      intros p Hp. by rewrite Hp, Hnone.
    + destruct ch; try done.
      exists h'. split_and!; try done.
      intros p Hp. simpl. by rewrite Hp, Hnone.
    + apply (Hgen (ExitThread c o ET_Enter ch)
               (ExitThread_heap _ _ _ _)
               (λ g s0, ExitThread_with_heap g _ _ _ _ s0)
               (with_coords (alter pop_call c) s) eq_refl).
  - apply (Hgen (CreateThread c this pc ch)
             (CreateThread_heap _ _ _ _)
             (λ g s0, CreateThread_with_heap g _ _ _ _ s0) s eq_refl).
  - apply (Hgen (ExitThread c this pc ch)
             (ExitThread_heap _ _ _ _)
             (λ g s0, ExitThread_with_heap g _ _ _ _ s0) s eq_refl).
Qed.


Lemma delete_delete_lookup {A} (m : gmap Z A) h1 h2 :
  delete h2 (delete h1 m) !! h1 = None ∧ delete h2 (delete h1 m) !! h2 = None.
Proof.
  split; [|apply lookup_delete_eq].
  destruct (decide (h2 = h1)) as [->|?]; [apply lookup_delete_eq|].
  rewrite lookup_delete_ne by done. apply lookup_delete_eq.
Qed.

(** ** The handshake with one coordinator *)

Lemma quiet_at pc s :
  quiet pc = true → handshake_at pc s ↔ no_fresh s ∧ created_only None s.
Proof. destruct pc as [|o []|o pc]; simpl; done. Qed.

Lemma no_new_fresh_refl s s' :
  threads s' = threads s → no_new_fresh s s'.
Proof. intros E. split; rewrite E; eauto. Qed.

Lemma no_new_fresh_alter f t s s' :
  threads s' = alter f t (threads s) →
  (∀ th, threads s !! t = Some th →
         th_this (f th) = th_this th ∧ (fresh (f th) = true → fresh th = true)) →
  no_new_fresh s s'.
Proof.
  intros E Hf. split; rewrite E; [by rewrite length_alter|].
  intros j th' Hj. destruct (decide (t = j)) as [->|Hne].
  - rewrite list_lookup_alter_eq in Hj.
    destruct (threads s !! j) as [th|] eqn:Hth; simplify_eq/=.
    exists th. destruct (Hf th eq_refl). eauto.
  - rewrite list_lookup_alter_ne in Hj by done. eauto.
Qed.

Lemma no_new_created_refl s s' :
  events s' = events s → no_new_created s s'.
Proof. intros E e ev' H ??. rewrite E in H. eauto. Qed.

Lemma no_new_created_alter f e s s' :
  events s' = alter f e (events s) →
  (∀ ev, ev_name (f ev) = ev_name ev
         ∧ (ev_open (f ev) ≠ 0 → ev_open ev ≠ 0)) →
  no_new_created s s'.
Proof.
  intros E Hf j ev' Hj Hn Ho. rewrite E in Hj.
  destruct (decide (e = j)) as [->|Hne].
  - rewrite list_lookup_alter_eq in Hj.
    destruct (events s !! j) as [ev|] eqn:Hev; simplify_eq/=.
    exists ev. destruct (Hf ev) as [E1 E2]. rewrite E1 in Hn. eauto.
  - rewrite list_lookup_alter_ne in Hj by done. eauto.
Qed.

Lemma created_only_None_mono s s' :
  no_new_created s s' → created_only None s → created_only None s'.
Proof.
  intros H I e ev' He Hn Ho. destruct (H e ev' He Hn Ho) as (ev & ? & ? & ?).
  eauto.
Qed.

Lemma no_fresh_mono s s' :
  no_new_fresh s s' → no_fresh s → no_fresh s'.
Proof.
  intros [_ H] I t th' Ht. destruct (H t th' Ht) as (th & Hth & _ & Hf).
  destruct (fresh th') eqn:E; [|done]. rewrite <- (I t th Hth).
  symmetry. by apply Hf.
Qed.

Lemma has_fresh_mono s s' :
  no_new_fresh s s' → has_fresh s' → has_fresh s.
Proof.
  intros [_ H] (t & th' & Ht & Hf). destruct (H t th' Ht) as (th & ? & _ & ?).
  exists t, th. eauto.
Qed.

Lemma started_ok_mono (P Q : Prop) o s s' :
  handles s' = handles s → events s' = events s →
  (∀ o', m_hThreadStarted <$> objs s' !! o' = m_hThreadStarted <$> objs s !! o') →
  (Q → P) →
  started_ok P o s → started_ok Q o s'.
Proof.
  intros Eh Ee Eo HQP (tw & Htw & H).
  pose proof (Eo o) as Eo'. rewrite Htw in Eo'.
  destruct (objs s' !! o) as [tw'|] eqn:Htw'; simpl in Eo'; [|done].
  injection Eo' as Eo'.
  exists tw'. split; [done|]. rewrite Eo'. unfold created_only in *.
  rewrite Eh, Ee. destruct H as [[? ?]|(e & ev & ? & ? & ? & ? & ?)].
  - by left.
  - right. exists e, ev. split_and!; eauto.
Qed.

(** Steps that touch neither handles nor events nor the members
    [m_hThreadStarted], and make no thread fresh. *)
Lemma handshake_at_mono pc s s' :
  handles s' = handles s → events s' = events s →
  (∀ o', m_hThreadStarted <$> objs s' !! o' = m_hThreadStarted <$> objs s !! o') →
  no_new_fresh s s' →
  handshake_at pc s → handshake_at pc s'.
Proof.
  intros Eh Ee Eo Hn.
  assert (created_only None s → created_only None s') as Hc
    by (apply created_only_None_mono, no_new_created_refl, Ee).
  pose proof (no_fresh_mono _ _ Hn) as Hnf.
  destruct pc as [|o []|o pc]; simpl;
    try (intros [? ?]; split; by eauto).
  - intros [? ?]. split; [eauto|]. by eapply started_ok_mono.
  - intros [H1 H2]. split.
    + intros t th' Ht Hf. destruct Hn as [El Hn].
      destruct (Hn t th' Ht) as (th & Hth & -> & Hf').
      rewrite El. eauto.
    + apply (started_ok_mono (has_fresh s) _ o s); try done.
      by apply has_fresh_mono.
  - intros [? ?]. split; [eauto|]. by eapply started_ok_mono.
Qed.

Lemma handshake_base_mono s s' :
  handles s' = handles s →
  (∀ t th', threads s' !! t = Some th' → queue_made th') →
  handshake_base s → handshake_base s'.
Proof. intros Eh Hq (? & ? & _). unfold handshake_base. rewrite Eh. eauto. Qed.

Lemma handshake_inv_goto pc s co :
  length (coords s) = 1 → coords s !! 0 = Some co →
  handshake_base s →
  handshake_at (if running s then pc else c_pc co) s →
  handshake_inv (goto 0 pc s).
Proof.
  intros Hl Hco Hb Hat. unfold handshake_inv, goto.
  destruct (running s); simpl.
  - rewrite length_alter. split; [done|]. split; [done|].
    exists (set_c_pc pc co). by rewrite list_lookup_alter_eq, Hco.
  - split; [done|]. split; [done|]. by exists co.
Qed.

Lemma handshake_inv_returns r s co :
  length (coords s) = 1 → coords s !! 0 = Some co →
  handshake_base s →
  handshake_at (if running s then PC_Idle else c_pc co) s →
  handshake_inv (returns 0 r s).
Proof.
  intros Hl Hco Hb Hat. unfold handshake_inv, returns.
  destruct (running s); simpl.
  - rewrite length_alter. split; [done|]. split; [done|].
    exists (give_back r co). by rewrite list_lookup_alter_eq, Hco.
  - split; [done|]. split; [done|]. by exists co.
Qed.

Lemma handshake_base_insert h k s s' :
  handles s' = <[h := k]> (handles s) →
  h ≠ NULL → h ≠ INVALID_HANDLE_VALUE →
  (∀ t th', threads s' !! t = Some th' → queue_made th') →
  handshake_base s → handshake_base s'.
Proof.
  intros Eh ?? Hq (? & ? & _). unfold handshake_base. rewrite Eh.
  rewrite !lookup_insert_ne by done. eauto.
Qed.

Lemma handshake_base_delete h s s' :
  handles s' = delete h (handles s) →
  threads s' = threads s →
  handshake_base s → handshake_base s'.
Proof.
  intros Eh Et (? & ? & Hq). unfold handshake_base. rewrite Eh, Et.
  split_and!; [apply lookup_delete_None; by right..|done].
Qed.

Lemma started_NULL clear o s tw :
  objs s !! o = Some tw → handshake_base s → started_ok clear o s →
  Win32.event_of (m_hThreadStarted tw) s = None →
  m_hThreadStarted tw = NULL ∧ created_only None s.
Proof.
  intros Htw _ (tw' & Htw' & [H|(e & ev & Hh & _)]); simplify_eq; [done|].
  unfold Win32.event_of. by rewrite Hh.
Qed.

Lemma CloseHandle_no_new_created h s :
  no_new_created s (Win32.CloseHandle h s).
Proof.
  unfold Win32.CloseHandle. destruct (Win32.event_of h s) as [e|].
  - apply (no_new_created_alter Win32.release e); [done|].
    intros ev. split; [done|]. simpl. lia.
  - by apply no_new_created_refl.
Qed.

Lemma SetEvent_no_new_created h s :
  no_new_created s (Win32.SetEvent h s).2.
Proof.
  unfold Win32.SetEvent. simpl. destruct (Win32.event_of h s) as [e|].
  - by apply (no_new_created_alter Win32.signal e).
  - by apply no_new_created_refl.
Qed.

Lemma CreateEvent_exited_no_new_created ch s h s1 :
  Win32.CreateEvent "ThreadExitedEvent" ch s = Some (h, s1) →
  no_new_created s s1.
Proof.
  intros [(-> & -> & ->)|(-> & ? & ? & ? &
    [(e & ev & He & Hn & ? & ? & ->)|(? & ->)])]%CreateEvent_Some.
  - by apply no_new_created_refl.
  - intros j ev' Hj Hn' Ho. simpl in Hj.
    apply list_insert_Some_inv in Hj as [(-> & -> & _)|[_ Hj]]; [|eauto].
    simpl in Hn'. congruence.
  - intros j ev' Hj Hn' Ho. simpl in Hj.
    apply lookup_app_Some in Hj as [Hj|[_ Hj]]; [eauto|].
    apply list_lookup_singleton_Some in Hj as [_ <-]. done.
Qed.

Lemma handshake_CreateThread this pc ch s s' co :
  fault s = None → length (coords s) = 1 → coords s !! 0 = Some co →
  pc = CT_Enter ∨ c_pc co = InCreateThread this pc →
  handshake_base s → handshake_at (InCreateThread this pc) s →
  CreateThread 0 this pc ch s = Some s' → handshake_inv s'.
Proof.
  intros Hf Hl Hco Hpc Hb Hat H. unfold CreateThread in H.
  destruct (objs s !! this) as [tw|] eqn:Htw; simpl in H; [|done].
  assert (running s = true) as Hrun by (by apply running_true).
  destruct pc.
  - destruct ch; try done. destruct (negb _); simplify_eq.
    + apply (handshake_inv_goto _ _ co); try done. by rewrite Hrun.
    + apply (handshake_inv_returns _ _ co); try done. by rewrite Hrun.
  - destruct Hpc as [?|Hpc]; [done|]. destruct Hat as [Hnf Hc].
    destruct (Win32.CreateEvent _ ch s) as [[h s1]|] eqn:E; simpl in H; [|done].
    simplify_eq.
    apply CreateEvent_Some in E as [(-> & -> & ->)|(-> & ? & ? & Hh &
      [(e & ev & He & Hn & Ho & _ & ->)|(_ & ->)])].
    + apply (handshake_inv_goto _ _ co); try done.
      change (running _) with (running s). rewrite Hrun. split; [done|].
      exists (set_hThreadStarted NULL tw). split.
      { simpl. by rewrite list_lookup_alter_eq, Htw. }
      left. split; [reflexivity|exact Hc].
    + by specialize (Hc e ev He Hn Ho).
    + apply (handshake_inv_goto _ _ co); try done.
      { apply (handshake_base_insert h (KEvent (length (events s))) s);
          try done.
        by destruct Hb as (_ & _ & ?). }
      change (running _) with (running s). rewrite Hrun. split; [done|].
      exists (set_hThreadStarted h tw). split.
      { simpl. by rewrite list_lookup_alter_eq, Htw. }
      right. exists (length (events s)), (mkEvent "ThreadCreatedEvent" false 1).
      simpl. split_and!; try done.
      * apply lookup_insert_eq.
      * by apply list_lookup_middle.
      * intros e' ev' He' Hn' Ho'. simpl in He'.
        apply lookup_app_Some in He' as [He'|[? He']].
        { by specialize (Hc e' ev' He' Hn' Ho'). }
        apply list_lookup_singleton_Some in He' as [? _]. f_equal. lia.
  - destruct Hpc as [?|Hpc]; [done|]. destruct Hat as [Hnf Hst].
    destruct (Win32.CreateThread _ _ ch s) as [[[h tid] s1]|] eqn:E;
      simpl in H; [|done].
    simplify_eq.
    apply CreateThread_Some in E as [(-> & -> & -> & ->)|
      (-> & ? & ? & Hh & -> & ->)].
    + apply (handshake_inv_goto _ _ co); try done.
      rewrite Hpc. simpl. split; [done|].
      apply (started_ok_mono True _ this s); try done.
      intros o'. simpl. rewrite list_alter_alter.
      destruct (decide (this = o')) as [<-|?].
      * rewrite list_lookup_alter_eq. by destruct (objs s !! this).
      * by rewrite list_lookup_alter_ne.
    + rewrite bool_decide_eq_true_2 by done.
      apply (handshake_inv_goto _ _ co); try done.
      { apply (handshake_base_insert h (KThread (length (threads s))) s);
          try done.
        simpl. intros t th' [Ht|[_ Ht]]%lookup_app_Some.
        - destruct Hb as (_ & _ & Hq). eauto.
        - apply list_lookup_singleton_Some in Ht as [_ <-]. by intros _ _. }
      change (running _) with (running s). rewrite Hrun. simpl. split.
      * intros t th [Ht|[? Ht]]%lookup_app_Some Hfr.
        { by rewrite (Hnf t th Ht) in Hfr. }
        apply list_lookup_singleton_Some in Ht as [? <-].
        rewrite length_app. simpl. split; [lia|done].
      * destruct Hst as (tw' & Htw' & Hst).
      assert (tw' = tw) as -> by congruence.
        exists (set_threadId (S (length (threads s))) (set_hThread h tw)).
        split.
        { simpl. by rewrite list_alter_alter, list_lookup_alter_eq, Htw. }
        simpl. destruct Hst as [?|(e & ev & He & ? & ? & Hs & ?)]; [by left|].
        right. exists e, ev. split_and!; try done; [|by intros _; apply Hs].
        rewrite lookup_insert_ne; [done|]. intros E. rewrite E in Hh.
        simpl in Hh. congruence.
  - destruct Hpc as [?|Hpc]; [done|]. destruct Hat as [Hfr Hst].
    destruct (WaitForSingleObject _ ch s) as [err|] eqn:E; simpl in H; [|done].
    simplify_eq.
    apply (handshake_inv_goto _ _ co); try done.
    unfold ASSERT_TRUE, running. simpl. rewrite Hf.
    destruct (is_WAIT_OBJECT_0 err) eqn:Herr; [|by rewrite Hpc].
    destruct Hst as (tw' & Htw' & Hst).
      assert (tw' = tw) as -> by congruence.
    unfold WaitForSingleObject in E.
    assert (Win32.probe (m_hThreadStarted tw) s = Win32.WAIT_OBJECT_0) as Hp.
    { destruct (Win32.probe _ s), ch; simplify_eq; done. }
    unfold Win32.probe in Hp. simpl.
    assert (no_fresh s) as Hnf.
    { intros t th Ht. destruct (fresh th) eqn:Hfresh; [|done].
      destruct Hst as [[Hnull _]|(e & ev & He & Hev & _ & Hs & _)].
      - destruct Hb as (Hb & _). by rewrite Hnull, Hb in Hp.
      - rewrite He, Hev, Hs in Hp; [done|]. by exists t, th. }
    split; [done|]. exists tw. split; [done|].
    destruct Hst as [?|(e & ev & ? & ? & ? & ? & ?)]; [by left|].
    right. exists e, ev. split_and!; done.
  - destruct Hpc as [?|Hpc]; [done|]. destruct Hat as [Hnf Hst].
    destruct ch; try done. simplify_eq.
    apply (handshake_inv_goto _ _ co); try done.
    { by apply (handshake_base_delete (m_hThreadStarted tw) s). }
    change (running _) with (running s). rewrite Hrun. split; [done|].
    destruct Hst as (tw' & Htw' & Hst).
      assert (tw' = tw) as -> by congruence.
    destruct Hst as [[Hnull Hc]|(e & ev & He & Hev & Ho & _ & Hc)].
    + eapply created_only_None_mono; [apply CloseHandle_no_new_created|done].
    + intros e' ev' He' Hn' Ho'. exfalso. unfold Win32.CloseHandle in He'.
      unfold Win32.event_of in He'. rewrite He in He'. simpl in He'.
      destruct (decide (e = e')) as [<-|Hne].
      * rewrite list_lookup_alter_eq, Hev in He'. simplify_eq/=. lia.
      * rewrite list_lookup_alter_ne in He' by done.
        specialize (Hc e' ev' He' Hn' Ho'). congruence.
  - destruct Hpc as [?|Hpc]; [done|]. destruct ch; try done. simplify_eq.
    apply (handshake_inv_goto _ _ co); try done.
    change (running _) with (running s). by rewrite Hrun.
  - destruct Hpc as [?|Hpc]; [done|]. destruct ch; try done. simplify_eq.
    apply (handshake_inv_returns _ _ co); try done. by rewrite Hrun.
Qed.

Lemma quiet_ok_mono s s' :
  handles s' !! NULL = None → handles s' !! INVALID_HANDLE_VALUE = None →
  (∀ t th', threads s' !! t = Some th' → queue_made th') →
  no_new_fresh s s' → no_new_created s s' →
  quiet_ok s → quiet_ok s'.
Proof.
  intros ??? Hf Hc (_ & ? & ?). split_and!; try done.
  - by apply (no_fresh_mono s).
  - by apply (created_only_None_mono s).
Qed.

Lemma quiet_ok_threads s s' :
  handles s' = handles s → events s' = events s →
  (∀ t th', threads s' !! t = Some th' → queue_made th') →
  no_new_fresh s s' →
  quiet_ok s → quiet_ok s'.
Proof.
  intros Eh Ee Hq Hf I. pose proof I as ((? & ? & _) & _).
  apply (quiet_ok_mono s); try done; try (by rewrite Eh).
  by apply no_new_created_refl.
Qed.

Lemma quiet_ok_frame s s' :
  handles s' = handles s → events s' = events s → threads s' = threads s →
  quiet_ok s → quiet_ok s'.
Proof.
  intros Eh Ee Et I. pose proof I as ((_ & _ & Hq) & _).
  apply (quiet_ok_threads s); try done.
  - by rewrite Et.
  - by apply no_new_fresh_refl.
Qed.

Lemma queue_made_keep f th :
  th_alive (f th) = th_alive th →
  (th_queue (f th) = None → th_queue th = None) →
  th_pc (f th) = th_pc th ∨ th_pc th ≠ RP_PeekMessage →
  queue_made th → queue_made (f th).
Proof.
  unfold queue_made. intros Ea Eq [Ep|Ep] H Ha Hq.
  - rewrite Ep. apply H; [by rewrite <- Ea | by apply Eq].
  - destruct Ep. apply H; [by rewrite <- Ea | by apply Eq].
Qed.

Lemma queue_made_alter f t s s' :
  threads s' = alter f t (threads s) →
  (∀ th, threads s !! t = Some th → queue_made th → queue_made (f th)) →
  handshake_base s →
  ∀ j th', threads s' !! j = Some th' → queue_made th'.
Proof.
  intros E Hf (_ & _ & Hq) j th' Hj. rewrite E in Hj.
  destruct (decide (t = j)) as [->|Hne].
  - rewrite list_lookup_alter_eq in Hj.
    destruct (threads s !! j) as [th|] eqn:Hth; simplify_eq/=. eauto.
  - rewrite list_lookup_alter_ne in Hj by done. eauto.
Qed.

Lemma quiet_ok_alter f t s s' :
  handles s' = handles s → events s' = events s →
  threads s' = alter f t (threads s) →
  (∀ th, threads s !! t = Some th →
         th_this (f th) = th_this th
         ∧ (fresh (f th) = true → fresh th = true)
         ∧ (queue_made th → queue_made (f th))) →
  quiet_ok s → quiet_ok s'.
Proof.
  intros Eh Ee Et Hf I. pose proof I as (Hb & _).
  apply (quiet_ok_threads s); try done.
  - apply (queue_made_alter f t s); try done. intros th Hth.
    by destruct (Hf th Hth) as (_ & _ & ?).
  - apply (no_new_fresh_alter f t); [done|]. intros th Hth.
    by destruct (Hf th Hth) as (? & ? & _).
Qed.

Lemma quiet_ok_PostThreadMessage tid m s :
  quiet_ok s → quiet_ok (Win32.PostThreadMessage tid m s).2.
Proof.
  unfold Win32.PostThreadMessage. simpl.
  destruct (Win32.receiver tid s) as [t|].
  - apply (quiet_ok_alter (Win32.enqueue m) t); try done.
    intros th _. split_and!; try done.
    apply queue_made_keep; try done; [|by left].
    simpl. by destruct (th_queue th).
  - by apply quiet_ok_frame.
Qed.

Lemma quiet_ok_TerminateThread h s :
  quiet_ok s → quiet_ok (Win32.TerminateThread h s).
Proof.
  unfold Win32.TerminateThread. destruct (Win32.thread_of h s) as [t|].
  - by apply (quiet_ok_alter Win32.kill t).
  - by apply quiet_ok_frame.
Qed.

Lemma quiet_ok_CloseHandle h s :
  quiet_ok s → quiet_ok (Win32.CloseHandle h s).
Proof.
  intros I. pose proof I as (Hb & _).
  destruct (handshake_base_delete h s (Win32.CloseHandle h s))
    as (? & ? & ?); try done.
  apply (quiet_ok_mono s);
    first [done | by apply no_new_fresh_refl
          | apply CloseHandle_no_new_created].
Qed.

Lemma quiet_ok_SetEvent h s :
  quiet_ok s → quiet_ok (Win32.SetEvent h s).2.
Proof.
  intros I. pose proof I as ((? & ? & ?) & _).
  apply (quiet_ok_mono s);
    first [done | by apply no_new_fresh_refl | apply SetEvent_no_new_created].
Qed.

Lemma quiet_ok_CreateEvent ch s h s1 :
  Win32.CreateEvent "ThreadExitedEvent" ch s = Some (h, s1) →
  quiet_ok s → quiet_ok s1.
Proof.
  intros E I. pose proof I as ((? & ? & ?) & _).
  pose proof (CreateEvent_exited_no_new_created _ _ _ _ E) as Hc.
  pose proof (CreateEvent_frame _ _ _ _ _ E) as (_ & _ & Et & _).
  apply (quiet_ok_mono s); try done.
  - apply CreateEvent_Some in E as [(_ & _ & ->)|(_ & ? & ? & ? &
      [(e & ev & _ & _ & _ & _ & ->)|(_ & ->)])]; [done|..];
      simpl; by rewrite lookup_insert_ne.
  - apply CreateEvent_Some in E as [(_ & _ & ->)|(_ & ? & ? & ? &
      [(e & ev & _ & _ & _ & _ & ->)|(_ & ->)])]; [done|..];
      simpl; by rewrite lookup_insert_ne.
  - by rewrite Et.
  - by apply no_new_fresh_refl.
Qed.

Lemma handshake_inv_quiet s co :
  length (coords s) = 1 → coords s !! 0 = Some co →
  quiet (c_pc co) = true → quiet_ok s → handshake_inv s.
Proof.
  intros Hl Hco Hq (Hb & ? & ?). split; [done|]. split; [done|].
  exists co. split; [done|]. by apply quiet_at.
Qed.

Lemma handshake_inv_quiet_goto pc s co :
  length (coords s) = 1 → coords s !! 0 = Some co →
  quiet (c_pc co) = true → quiet pc = true →
  quiet_ok s → handshake_inv (goto 0 pc s).
Proof.
  intros Hl Hco Hq Hq' (Hb & ? & ?).
  apply (handshake_inv_goto _ _ co); try done.
  apply quiet_at; [by destruct (running s)|done].
Qed.

Lemma handshake_inv_quiet_returns r s co :
  length (coords s) = 1 → coords s !! 0 = Some co →
  quiet (c_pc co) = true →
  quiet_ok s → handshake_inv (returns 0 r s).
Proof.
  intros Hl Hco Hq (Hb & ? & ?).
  apply (handshake_inv_returns _ _ co); try done.
  apply quiet_at; [by destruct (running s)|done].
Qed.

Lemma handshake_ExitThread this pc ch s s' co :
  length (coords s) = 1 → coords s !! 0 = Some co →
  quiet (c_pc co) = true → quiet_ok s →
  ExitThread 0 this pc ch s = Some s' → handshake_inv s'.
Proof.
  intros Hl Hco Hq I H. unfold ExitThread, PostThreadMessage in H.
  destruct (objs s !! this) as [tw|] eqn:Htw; simpl in H; [|done].
  destruct pc.
  - destruct ch; try done. case_bool_decide; simplify_eq.
    + by apply (handshake_inv_quiet_goto _ _ co).
    + by apply (handshake_inv_quiet_returns _ _ co).
  - destruct (Win32.CreateEvent _ ch s) as [[h s1]|] eqn:E; simpl in H; [|done].
    simplify_eq.
    pose proof (CreateEvent_frame _ _ _ _ _ E) as (_ & _ & _ & Ec & _).
    apply (handshake_inv_quiet_goto _ _ co); try done;
      try (simpl; by rewrite Ec).
    apply (quiet_ok_frame s1); try done. by eapply quiet_ok_CreateEvent.
  - destruct ch; try done. simplify_eq.
    apply (handshake_inv_quiet_goto _ _ co); try done.
    by apply quiet_ok_PostThreadMessage.
  - destruct (WaitForSingleObject _ ch s) as [err|]; simpl in H; [|done].
    destruct (is_WAIT_TIMEOUT err); simplify_eq;
      by apply (handshake_inv_quiet_goto _ _ co).
  - destruct ch; try done. simplify_eq.
    apply (handshake_inv_quiet_goto _ _ co); try done.
    by apply quiet_ok_TerminateThread.
  - destruct ch; try done. simplify_eq.
    apply (handshake_inv_quiet_goto _ _ co); try done.
    by apply quiet_ok_CloseHandle.
  - destruct ch; try done. simplify_eq.
    apply (handshake_inv_quiet_goto _ _ co); try done.
  - destruct ch; try done. simplify_eq.
    apply (handshake_inv_quiet_goto _ _ co); try done.
    by apply quiet_ok_CloseHandle.
  - destruct ch; try done. simplify_eq.
    apply (handshake_inv_quiet_returns _ _ co); try done.
Qed.

(** The instances stay where they are. *)

Lemma CreateThread_objs_length c this pc ch s s' :
  CreateThread c this pc ch s = Some s' →
  length (objs s') = length (objs s).
Proof.
  unfold CreateThread. intros H.
  destruct (objs s !! this) as [tw|]; simpl in H; [|done].
  destruct pc.
  - destruct ch; try done. by destruct (negb _); simplify_eq.
  - destruct (Win32.CreateEvent _ ch s) as [[h s1]|] eqn:E; simpl in H; [|done].
    apply CreateEvent_frame in E as (Eo & _). simplify_eq. simpl.
    by rewrite length_alter, Eo.
  - destruct (Win32.CreateThread _ _ ch s) as [[[h tid] s1]|] eqn:E;
      simpl in H; [|done].
    apply Win32_CreateThread_frame in E as (Eo & _). simplify_eq. simpl.
    by rewrite !length_alter, Eo.
  - destruct (WaitForSingleObject _ ch s); simpl in H; by simplify_eq.
  - destruct ch; by simplify_eq.
  - destruct ch; try done. simplify_eq. simpl. by rewrite length_alter.
  - destruct ch; by simplify_eq.
Qed.

Lemma ExitThread_objs_length c this pc ch s s' :
  ExitThread c this pc ch s = Some s' →
  length (objs s') = length (objs s).
Proof.
  unfold ExitThread, PostThreadMessage. intros H.
  destruct (objs s !! this) as [tw|]; simpl in H; [|done].
  destruct pc.
  - destruct ch; try done. by case_bool_decide; simplify_eq.
  - destruct (Win32.CreateEvent _ ch s) as [[h s1]|] eqn:E; simpl in H; [|done].
    apply CreateEvent_frame in E as (Eo & _). simplify_eq. simpl.
    by rewrite length_alter, Eo.
  - destruct ch; by simplify_eq.
  - destruct (WaitForSingleObject _ ch s) as [err|]; simpl in H; [|done].
    by destruct (is_WAIT_TIMEOUT err); simplify_eq.
  - destruct ch; by simplify_eq.
  - destruct ch; by simplify_eq.
  - destruct ch; try done. simplify_eq. simpl. by rewrite length_alter.
  - destruct ch; by simplify_eq.
  - destruct ch; try done. simplify_eq. simpl. by rewrite length_alter.
Qed.

Lemma step_objs_length l s s' :
  step l s = Some s' → length (objs s') = length (objs s).
Proof.
  unfold step. destruct (fault s); [done|]. destruct l as [[c|t] ch].
  - unfold coord_step, PostThreadMessage, NewThreadMsg, StartAllThreads.
    intros H. destruct (coords s !! c) as [co|]; simpl in H; [|done].
    destruct (c_pc co).
    + destruct (head (c_script co)) as [call|]; simpl in H; [|done].
      destruct call.
      * by apply CreateThread_objs_length in H.
      * destruct ch; try done. unfold Win32.SetEvent in H. by simplify_eq.
      * destruct ch; try done. destruct (_ && _); by simplify_eq.
      * destruct ch; try done. simpl in H.
        destruct (objs s !! o); simpl in H; [|done].
        unfold Win32.PostThreadMessage in H. by simplify_eq.
      * destruct ch; by simplify_eq.
      * by apply ExitThread_objs_length in H.
    + by apply CreateThread_objs_length in H.
    + by apply ExitThread_objs_length in H.
  - intros (-> & _)%RunProcess_frame. done.
Qed.

Lemma reachable_objs_length hS ws progs s :
  reachable hS ws progs s → length (objs s) = length ws.
Proof.
  revert s.
  apply (reachable_ind hS ws progs (λ s, length (objs s) = length ws)).
  - simpl. by rewrite length_fmap.
  - intros s0 l s1 _ I Hs. by rewrite (step_objs_length _ _ _ Hs).
Qed.

(** With one coordinator the member [m_hThreadExited] of every instance
    is invalid outside [ExitThread]. *)
Lemma exited_invalid hS ws p s co o tw :
  reachable hS ws [p] s →
  coords s !! 0 = Some co → objs s !! o = Some tw →
  (∀ this pc, c_pc co ≠ InExitThread this pc) →
  m_hThreadExited tw = INVALID_HANDLE_VALUE.
Proof.
  intros Hr Hco Htw Hpc.
  assert (o < length ws) as Ho.
  { rewrite <- (reachable_objs_length _ _ _ _ Hr). by eapply lookup_lt_Some. }
  assert (ownership_inv 0 o s) as I.
  { apply (reachable_ownership_inv 0 o hS ws [p]); [done| |done].
    intros [|c'] p' call Hc Hp; [done|]. by destruct c'. }
  specialize (I 0 co Hco). simpl in I. destruct I as (tw' & Htw' & I).
  assert (tw' = tw) as -> by congruence.
  unfold owner_ok in I. destruct (c_pc co) as [|this pc|this pc].
  - by destruct I.
  - done.
  - by destruct (Hpc this pc).
Qed.

(** Steps of a thread. *)

Lemma handshake_inv_threads s s' :
  coords s' = coords s → handles s' = handles s → events s' = events s →
  objs s' = objs s →
  (∀ t th', threads s' !! t = Some th' → queue_made th') →
  no_new_fresh s s' →
  handshake_inv s → handshake_inv s'.
Proof.
  intros Ec Eh Ee Eo Hq Hn (Hl & Hb & co & Hco & Hat).
  split; [by rewrite Ec|]. split; [by apply (handshake_base_mono s)|].
  exists co. split; [by rewrite Ec|].
  apply (handshake_at_mono _ s); try done. intros o'. by rewrite Eo.
Qed.

Lemma handshake_inv_alter f t s s' :
  coords s' = coords s → handles s' = handles s → events s' = events s →
  objs s' = objs s →
  threads s' = alter f t (threads s) →
  (∀ th, threads s !! t = Some th →
         th_this (f th) = th_this th
         ∧ (fresh (f th) = true → fresh th = true)
         ∧ (queue_made th → queue_made (f th))) →
  handshake_inv s → handshake_inv s'.
Proof.
  intros Ec Eh Ee Eo Et Hf I. pose proof I as (_ & Hb & _).
  apply (handshake_inv_threads s); try done.
  - apply (queue_made_alter f t s); try done. intros th Hth.
    by destruct (Hf th Hth) as (_ & _ & ?).
  - apply (no_new_fresh_alter f t); [done|]. intros th Hth.
    by destruct (Hf th Hth) as (? & ? & _).
Qed.

Lemma handshake_RunProcess hS ws p t ch s s' :
  reachable hS ws [p] s → fault s = None →
  handshake_inv s → RunProcess t ch s = Some s' → handshake_inv s'.
Proof.
  intros Hr Hf I H.
  assert (running s = true) as Hrun by (by apply running_true).
  unfold RunProcess in H.
  destruct (threads s !! t) as [th|] eqn:Hth; simpl in H; [|done].
  destruct (th_alive th) eqn:Ha; simpl in H; [|done].
  destruct (objs s !! th_this th) as [tw|] eqn:Htw; simpl in H; [|done].
  destruct (th_pc th) eqn:Hpc.
  - (* PeekMessage *)
    destruct ch; try done. simplify_eq.
    apply (handshake_inv_alter (set_th_pc RP_SetStarted ∘ Win32.make_queue)
             t s); try done.
    + unfold jump. change (running _) with (running s). rewrite Hrun.
      simpl. by rewrite list_alter_alter.
    + intros th' Hth'. assert (th' = th) as -> by congruence.
      split_and!; [done| |by intros _ _ ?].
      intros _. unfold fresh. by rewrite Ha, Hpc.
  - (* SetEvent(m_hThreadStarted) *)
    destruct ch; try done.
    assert (fresh th = true) as Hfresh by (unfold fresh; by rewrite Ha, Hpc).
    destruct I as (Hl & Hb & co & Hco & Hat).
    destruct (c_pc co) as [|o pc|o pc] eqn:Hco_pc;
      try (destruct Hat as [Hnf _]; by rewrite (Hnf t th Hth) in Hfresh).
    destruct pc;
      try (destruct Hat as [Hnf _]; by rewrite (Hnf t th Hth) in Hfresh).
    destruct Hat as [Hlast Hst].
    destruct (Hlast t th Hth Hfresh) as [Ht Ho].
    destruct Hst as (tw' & Htw' & Hst). rewrite <- Ho in Htw'.
    assert (tw' = tw) as -> by congruence.
    unfold Win32.SetEvent, Win32.event_behind, Win32.event_of in H.
    destruct Hst as [[Hnull Hc]|(e & ev & He & Hev & Hopen & Hclear & Hc)].
    + destruct Hb as (Hb1 & Hb2 & Hb3). rewrite Hnull, Hb1 in H.
      simpl in H. simplify_eq.
      split; [done|]. split; [by split_and!|].
      exists co. split; [done|]. rewrite Hco_pc. split; [done|].
      exists tw. split; [done|]. left. done.
    + rewrite He in H. simpl in H. rewrite Hev in H. simpl in H.
      simplify_eq.
      set (pc' := if SYNC_START tw then RP_WaitStart else RP_Process).
      assert (fresh (set_th_pc pc' th) = false) as Hpc'.
      { unfold fresh, pc'. simpl. rewrite Ha. by destruct (SYNC_START tw). }
      assert (∀ j th', alter (set_th_pc pc') t (threads s) !! j = Some th' →
                       fresh th' = false) as Hnf.
      { intros j th' Hj. destruct (decide (t = j)) as [<-|Hne].
        - rewrite list_lookup_alter_eq, Hth in Hj. by simplify_eq/=.
        - rewrite list_lookup_alter_ne in Hj by done.
          destruct (fresh th') eqn:E; [|done].
          destruct (Hlast j th' Hj E) as [Hj' _]. lia. }
      split; [done|]. split.
      { destruct Hb as (? & ? & Hq). split_and!; try done.
        apply (queue_made_alter (set_th_pc pc') t s); try done.
        - unfold jump, ASSERT_TRUE. simpl. unfold running. simpl.
          by rewrite Hf.
        - intros th' Hth' Hq'. assert (th' = th) as -> by congruence.
          apply queue_made_keep; try done. right. by rewrite Hpc. }
      exists co. split; [done|]. rewrite Hco_pc.
      unfold handshake_at, jump, ASSERT_TRUE, running. simpl. rewrite Hf.
      split.
      { intros j th' Hj E. by rewrite (Hnf j th' Hj) in E. }
      exists tw. split; [done|]. right.
      exists e, (Win32.signal ev). simpl. split_and!; try done.
      * by rewrite list_lookup_alter_eq, Hev.
      * intros (j & th' & Hj & E). simpl in Hj.
        by rewrite (Hnf j th' Hj) in E.
      * intros e' ev' He' Hn' Ho'.
        destruct (no_new_created_alter Win32.signal e s
                    (with_events (alter Win32.signal e) s) eq_refl
                    (λ ev0, conj eq_refl (λ H0, H0)) e' ev' He' Hn' Ho')
          as (ev0 & ? & ? & ?).
        eauto.
  - (* the barrier *)
    destruct (WaitForSingleObject _ ch s) as [err|]; simpl in H; [|done].
    simplify_eq. unfold jump. destruct (running (ASSERT_TRUE _ _ _)).
    + apply (handshake_inv_alter (set_th_pc RP_Process) t s); try done.
      intros th' Hth'. assert (th' = th) as -> by congruence.
      split_and!; [done| |].
      * unfold fresh. simpl. by rewrite andb_false_r.
      * apply queue_made_keep; try done. right. by rewrite Hpc.
    + apply (handshake_inv_threads s); try done.
      * by destruct I as (_ & (_ & _ & ?) & _).
      * by apply no_new_fresh_refl.
  - (* Process *)
    destruct ch; try done. unfold Process in H.
    destruct (GetMessage t s) as [[msg s1]|] eqn:E; simpl in H; [|done].
    apply GetMessage_Some in E as [-> _].
    assert (∀ th0, threads s !! t = Some th0 →
              th_this (dequeue th0) = th_this th0
              ∧ (fresh (dequeue th0) = true → fresh th0 = true)
              ∧ (queue_made th0 → queue_made (dequeue th0))) as Hdq.
    { intros th0 _. split_and!; [done..|].
      apply queue_made_keep; try done; [|by left].
      simpl. by destruct (th_queue th0). }
    destruct (message msg).
    + case_bool_decide.
      * destruct (heap _ !! _); simplify_eq;
          by apply (handshake_inv_alter dequeue t s).
      * simplify_eq. by apply (handshake_inv_alter dequeue t s).
    + simplify_eq.
      apply (handshake_inv_alter (set_th_pc RP_SetExited ∘ dequeue) t s);
        try done.
      * unfold jump. change (running _) with (running s). rewrite Hrun.
        simpl. by rewrite list_alter_alter.
      * intros th' Hth'. assert (th' = th) as -> by congruence.
        split_and!; [done| |].
        -- unfold fresh. simpl. by rewrite andb_false_r.
        -- intros Hq. apply (queue_made_keep (set_th_pc RP_SetExited));
             try done; [right; simpl; by rewrite Hpc|].
           by apply Hdq.
    + simplify_eq. by apply (handshake_inv_alter dequeue t s).
  - (* SetEvent(m_hThreadExited) *)
    destruct ch; try done.
    assert (∀ th0, threads s !! t = Some th0 →
              th_this (set_th_pc RP_Return th0) = th_this th0
              ∧ (fresh (set_th_pc RP_Return th0) = true → fresh th0 = true)
              ∧ (queue_made th0 → queue_made (set_th_pc RP_Return th0)))
      as Hret.
    { intros th0 Hth0. assert (th0 = th) as -> by congruence.
      split_and!; [done| |].
      - unfold fresh. simpl. by rewrite andb_false_r.
      - apply queue_made_keep; try done. right. by rewrite Hpc. }
    pose proof I as (Hl & Hb & co & Hco & Hat).
    destruct (Win32.event_of (m_hThreadExited tw) s) as [e|] eqn:He.
    + (* the coordinator is in [ExitThread] *)
      assert (quiet (c_pc co) = true ∧ quiet_ok s) as [Hq Hqok].
      { destruct (c_pc co) as [|o pc|o pc] eqn:Hco_pc;
          try (split; [done|]; split; [done|]; by apply (quiet_at (c_pc co));
               rewrite Hco_pc).
        exfalso.
        assert (m_hThreadExited tw = INVALID_HANDLE_VALUE) as Hinv.
        { apply (exited_invalid hS ws p s co (th_this th)); try done.
          intros ??. by rewrite Hco_pc. }
        destruct Hb as (_ & Hb & _). unfold Win32.event_of in He.
        by rewrite Hinv, Hb in He. }
      unfold Win32.SetEvent in H. simplify_eq.
      apply (handshake_inv_quiet _ co); try done.
      pose proof (quiet_ok_SetEvent (m_hThreadExited tw) s Hqok) as Hq1.
      unfold Win32.SetEvent in Hq1. simpl in Hq1. rewrite He in Hq1.
      unfold jump. destruct (running (ASSERT_TRUE _ _ _)).
      * revert Hq1.
        apply (quiet_ok_alter (set_th_pc RP_Return) t
                 (with_events (alter Win32.signal e) s));
          [done..|exact Hret].
      * revert Hq1. by apply quiet_ok_frame.
    + unfold Win32.SetEvent in H. simplify_eq.
      unfold jump. destruct (running (ASSERT_TRUE _ _ _)).
      * by apply (handshake_inv_alter (set_th_pc RP_Return) t s).
      * apply (handshake_inv_threads s); try done.
        -- by destruct Hb as (_ & _ & ?).
        -- by apply no_new_fresh_refl.
  - (* return *)
    destruct ch; try done. simplify_eq.
    by apply (handshake_inv_alter finish t s).
  - destruct ch; done.
Qed.

(** Steps of the coordinator. *)

Lemma handshake_coord_step c ch s s' :
  fault s = None → handshake_inv s →
  coord_step c ch s = Some s' → handshake_inv s'.
Proof.
  intros Hf (Hl & Hb & co & Hco & Hat) H. unfold coord_step in H.
  destruct (coords s !! c) as [co'|] eqn:Hco'; simpl in H; [|done].
  assert (c = 0) as ->.
  { apply lookup_lt_Some in Hco'. lia. }
  assert (co' = co) as -> by congruence.
  destruct (c_pc co) as [|o pc|o pc] eqn:Hpc.
  - destruct (head (c_script co)) as [call|]; simpl in H; [|done].
    assert (coords (with_coords (alter pop_call 0) s) !! 0
            = Some (pop_call co)) as Hco0.
    { simpl. by rewrite list_lookup_alter_eq, Hco. }
    assert (length (coords (with_coords (alter pop_call 0) s)) = 1) as Hl0.
    { simpl. by rewrite length_alter. }
    assert (quiet (c_pc (pop_call co)) = true) as Hq0.
    { simpl. by rewrite Hpc. }
    assert (quiet_ok (with_coords (alter pop_call 0) s)) as Hqok.
    { destruct Hat. by split_and!. }
    destruct call.
    + apply (handshake_CreateThread _ _ _ _ _ (pop_call co)) in H;
        try done; by left.
    + destruct ch; try done. simplify_eq. unfold StartAllThreads.
      pose proof (quiet_ok_SetEvent (m_hStartAllThreads s) _ Hqok) as Hq1.
      unfold Win32.SetEvent in *. simpl in *.
      by apply (handshake_inv_quiet _ (pop_call co)).
    + destruct ch; try done. unfold NewThreadMsg in H.
      destruct (_ && _); simplify_eq.
      apply (handshake_inv_quiet _ (set_threadMsg h (pop_call co))).
      * simpl. by rewrite !length_alter.
      * simpl. by rewrite list_lookup_alter_eq, list_lookup_alter_eq, Hco.
      * simpl. by rewrite Hpc.
      * done.
    + destruct ch; try done. unfold PostThreadMessage in H. simpl in H.
      destruct (objs s !! o) as [tw|]; simpl in H; [|done]. simplify_eq.
      apply (handshake_inv_quiet_returns _ _ (pop_call co)); try done.
      by apply quiet_ok_PostThreadMessage.
    + destruct ch; try done. simplify_eq.
      by apply (handshake_inv_quiet _ (pop_call co)).
    + by apply (handshake_ExitThread _ _ _ _ _ (pop_call co)) in H.
  - apply (handshake_CreateThread _ _ _ _ _ co) in H; try done. by right.
  - apply (handshake_ExitThread _ _ _ _ _ co) in H; try done;
      first [by rewrite Hpc | destruct Hat; by split_and!].
Qed.

Lemma handshake_inv_step hS ws p s l s' :
  reachable hS ws [p] s → handshake_inv s →
  step l s = Some s' → handshake_inv s'.
Proof.
  intros Hr I H. unfold step in H.
  destruct (fault s) eqn:Hf; [done|]. destruct l as [[c|t] ch].
  - by eapply handshake_coord_step.
  - by eapply handshake_RunProcess.
Qed.

Lemma handshake_inv_boot hS ws p :
  hS ≠ NULL → hS ≠ INVALID_HANDLE_VALUE →
  handshake_inv (boot hS ws [p]).
Proof.
  intros H1 H2. split; [done|]. split.
  - split_and!; [by apply lookup_singleton_ne..|done].
  - eexists. split; [done|]. split; [done|].
    intros [|e'] ev' He' Hn; simplify_eq/=.
Qed.

Lemma reachable_handshake_inv hS ws p s :
  hS ≠ NULL → hS ≠ INVALID_HANDLE_VALUE →
  reachable hS ws [p] s → handshake_inv s.
Proof.
  intros H1 H2. apply reachable_ind; [by apply handshake_inv_boot|].
  intros s0 l s1 Hr I Hs. by eapply handshake_inv_step.
Qed.

(** ** Payloads and the heap *)

Lemma RunProcess_heap t ch s s' p text :
  RunProcess t ch s = Some s' → heap s !! p = Some text →
  heap s' !! p = Some text
  ∨ ∃ th q, ch = Go ∧ threads s !! t = Some th ∧ th_alive th = true
      ∧ th_pc th = RP_Process
      ∧ th_queue th = Some (mkMSG WM_THREAD_MSG p :: q)
      ∧ heap s' !! p = None.
Proof.
  unfold RunProcess. intros H Hp.
  destruct (threads s !! t) as [th|] eqn:Hth; simpl in H; [|done].
  destruct (th_alive th) eqn:Ha; simpl in H; [|done].
  destruct (objs s !! th_this th) as [tw|]; simpl in H; [|done].
  destruct (th_pc th) eqn:Hpc.
  - destruct ch; try done. simplify_eq. by left.
  - destruct ch; try done. unfold Win32.SetEvent in H. simplify_eq. by left.
  - destruct (WaitForSingleObject _ ch s); simpl in H; simplify_eq. by left.
  - destruct ch; try done. unfold Process in H.
    destruct (GetMessage t s) as [[msg s1]|] eqn:E; simpl in H; [|done].
    apply GetMessage_Some in E as [-> (th' & q & Hth' & Hq)].
    assert (th' = th) as -> by congruence.
    destruct msg as [m w]. simpl in H. destruct m.
    + case_bool_decide; [|simplify_eq; by left].
      simpl in H. destruct (heap s !! w) as [text'|] eqn:Hw.
      * simplify_eq. simpl. destruct (decide (w = p)) as [->|Hne].
        -- right. exists th, q. split_and!; try done.
           apply lookup_delete_eq.
        -- left. by rewrite lookup_delete_ne.
      * simplify_eq. by left.
    + simplify_eq. by left.
    + simplify_eq. by left.
  - destruct ch; try done. unfold Win32.SetEvent in H. simplify_eq. by left.
  - destruct ch; try done. simplify_eq. by left.
  - by destruct ch.
Qed.

(** ** Threads and their instances *)

Lemma binding_inv_intro ws s s' :
  objs_kept s s' → threads_kept s s' → barrier_kept s s' →
  (∀ t th', threads s' !! t = Some th' → is_Some (objs s' !! th_this th')) →
  binding_inv ws s → binding_inv ws s'.
Proof.
  intros Ho Ht Hb Hthis [I1 I2 I3 I4]. constructor.
  - intros o tw' Htw'. destruct (Ho o tw' Htw') as (tw & Htw & -> & -> & _).
    eauto.
  - intros o tw' t Htw' Hid.
    destruct (Ho o tw' Htw') as (tw & Htw & _ & _ & [E|[E (th & Hth & ?)]]).
    + rewrite E in Hid. destruct (I2 o tw t Htw Hid) as (th & Hth & <-).
      destruct (Ht t th Hth) as (th' & ? & ?). eauto.
    + rewrite E in Hid. injection Hid as <-. eauto.
  - done.
  - intros t th' tw' Hth' Htw' Hpc.
    destruct (Ho _ tw' Htw') as (tw & Htw & _ & -> & _).
    destruct (Hb t th' Hth' Hpc) as (tw0 & Htw0 & [?|(th & Hth & E & Hpc')]).
    + congruence.
    + rewrite <- E in Htw. eauto.
Qed.

Lemma objs_kept_refl s s' :
  objs s' = objs s → objs_kept s s'.
Proof. intros E o tw' H. rewrite E in H. exists tw'. eauto. Qed.

Lemma objs_kept_alter f this s s' :
  objs s' = alter f this (objs s) →
  (∀ tw, objs s !! this = Some tw →
         THREAD_NAME (f tw) = THREAD_NAME tw
         ∧ SYNC_START (f tw) = SYNC_START tw
         ∧ m_threadId (f tw) = m_threadId tw) →
  objs_kept s s'.
Proof.
  intros E Hf o tw' H. rewrite E in H.
  apply list_alter_Some_inv in H as (tw & Htw & [->|[-> ->]]).
  - exists tw. eauto.
  - exists tw. destruct (Hf tw Htw) as (? & ? & ?). eauto.
Qed.

Lemma threads_kept_refl s s' :
  threads s' = threads s → threads_kept s s'.
Proof. intros E t th H. rewrite E. eauto. Qed.

Lemma threads_kept_alter f t s s' :
  threads s' = alter f t (threads s) →
  (∀ th, th_this (f th) = th_this th) →
  threads_kept s s'.
Proof.
  intros E Hf j th Hj. rewrite E. destruct (decide (t = j)) as [->|Hne].
  - rewrite list_lookup_alter_eq, Hj. simpl. eauto.
  - rewrite list_lookup_alter_ne by done. eauto.
Qed.

Lemma barrier_kept_refl s s' :
  threads s' = threads s →
  (∀ t th, threads s !! t = Some th → is_Some (objs s !! th_this th)) →
  barrier_kept s s'.
Proof.
  intros E Hthis t th' H Hpc. rewrite E in H.
  destruct (Hthis t th' H) as [tw Htw]. exists tw. split; [done|].
  right. eauto.
Qed.

Lemma barrier_kept_alter f t s s' :
  threads s' = alter f t (threads s) →
  (∀ t th, threads s !! t = Some th → is_Some (objs s !! th_this th)) →
  (∀ th, threads s !! t = Some th →
         th_this (f th) = th_this th
         ∧ (th_pc (f th) = RP_WaitStart →
            th_pc th = RP_WaitStart
            ∨ ∃ tw, objs s !! th_this th = Some tw ∧ SYNC_START tw = true)) →
  barrier_kept s s'.
Proof.
  intros E Hthis Hf j th' Hj Hpc. rewrite E in Hj.
  destruct (decide (t = j)) as [->|Hne].
  - rewrite list_lookup_alter_eq in Hj.
    destruct (threads s !! j) as [th|] eqn:Hth; simplify_eq/=.
    destruct (Hf th eq_refl) as [Ethis Hpc'].
    destruct (Hthis j th Hth) as [tw Htw].
    exists tw. rewrite Ethis. split; [done|].
    destruct (Hpc' Hpc) as [?|(tw' & ? & ?)].
    + right. exists th. done.
    + left. congruence.
  - rewrite list_lookup_alter_ne in Hj by done.
    destruct (Hthis j th' Hj) as [tw Htw]. exists tw. split; [done|].
    right. eauto.
Qed.

Lemma this_kept_alter f t s s' :
  threads s' = alter f t (threads s) → length (objs s') = length (objs s) →
  (∀ th, th_this (f th) = th_this th) →
  (∀ t th, threads s !! t = Some th → is_Some (objs s !! th_this th)) →
  ∀ t th', threads s' !! t = Some th' → is_Some (objs s' !! th_this th').
Proof.
  intros E El Hf Hthis j th' Hj. rewrite E in Hj.
  apply list_alter_Some_inv in Hj as (th & Hth & [->|[-> ->]]).
  - apply lookup_lt_is_Some. rewrite El. apply lookup_lt_is_Some. eauto.
  - rewrite Hf. apply lookup_lt_is_Some. rewrite El.
    apply lookup_lt_is_Some. eauto.
Qed.

Lemma this_kept_refl s s' :
  threads s' = threads s → length (objs s') = length (objs s) →
  (∀ t th, threads s !! t = Some th → is_Some (objs s !! th_this th)) →
  ∀ t th', threads s' !! t = Some th' → is_Some (objs s' !! th_this th').
Proof.
  intros E El Hthis j th' Hj. rewrite E in Hj.
  apply lookup_lt_is_Some. rewrite El. apply lookup_lt_is_Some. eauto.
Qed.

(** Steps that change no thread but in place, and no instance but in the
    handle members. *)
Lemma binding_inv_members ws f this g t s s' :
  objs s' = alter f this (objs s) →
  (∀ tw, objs s !! this = Some tw →
         THREAD_NAME (f tw) = THREAD_NAME tw
         ∧ SYNC_START (f tw) = SYNC_START tw
         ∧ m_threadId (f tw) = m_threadId tw) →
  threads s' = alter g t (threads s) →
  (∀ th, threads s !! t = Some th →
         th_this (g th) = th_this th
         ∧ (th_pc (g th) = RP_WaitStart →
            th_pc th = RP_WaitStart
            ∨ ∃ tw, objs s !! th_this th = Some tw ∧ SYNC_START tw = true)) →
  (∀ th, th_this (g th) = th_this th) →
  binding_inv ws s → binding_inv ws s'.
Proof.
  intros Eo Hf Et Hg Hg' I. pose proof (bi_this _ _ I) as Hthis.
  apply (binding_inv_intro ws s); try done.
  - by apply (objs_kept_alter f this).
  - by apply (threads_kept_alter g t).
  - by apply (barrier_kept_alter g t).
  - apply (this_kept_alter g t s); try done.
    by rewrite Eo, length_alter.
Qed.

Lemma binding_inv_frame ws s s' :
  objs s' = objs s → threads s' = threads s →
  binding_inv ws s → binding_inv ws s'.
Proof.
  intros Eo Et [I1 I2 I3 I4]. constructor; rewrite ?Eo, ?Et; done.
Qed.

Lemma binding_inv_assign ws f this s s' :
  objs s' = alter f this (objs s) → threads s' = threads s →
  (∀ tw, objs s !! this = Some tw →
         THREAD_NAME (f tw) = THREAD_NAME tw
         ∧ SYNC_START (f tw) = SYNC_START tw
         ∧ m_threadId (f tw) = m_threadId tw) →
  binding_inv ws s → binding_inv ws s'.
Proof.
  intros Eo Et Hf I.
  apply (binding_inv_members ws f this id 0 s); try done.
  - rewrite Et. symmetry. by apply list_alter_id.
  - intros th _. split; [done|]. by left.
Qed.

Lemma binding_inv_alter ws g t s s' :
  objs s' = objs s → threads s' = alter g t (threads s) →
  (∀ th, th_this (g th) = th_this th) →
  (∀ th, threads s !! t = Some th →
         th_pc (g th) = RP_WaitStart →
         th_pc th = RP_WaitStart
         ∨ ∃ tw, objs s !! th_this th = Some tw ∧ SYNC_START tw = true) →
  binding_inv ws s → binding_inv ws s'.
Proof.
  intros Eo Et Hg Hpc I.
  apply (binding_inv_members ws id 0 g t s); try done.
  - rewrite Eo. symmetry. by apply list_alter_id.
  - intros th Hth. split; [done|]. by apply Hpc.
Qed.

Lemma binding_inv_goto ws c pc s :
  binding_inv ws s → binding_inv ws (goto c pc s).
Proof. by apply binding_inv_frame. Qed.

Lemma binding_inv_returns ws c r s :
  binding_inv ws s → binding_inv ws (returns c r s).
Proof. by apply binding_inv_frame. Qed.

Lemma binding_inv_jump ws t pc s0 s :
  objs s0 = objs s → threads s0 = threads s →
  (∀ th, threads s !! t = Some th → pc = RP_WaitStart →
         ∃ tw, objs s !! th_this th = Some tw ∧ SYNC_START tw = true) →
  binding_inv ws s → binding_inv ws (jump t pc s0).
Proof.
  intros Eo Et Hpc I. unfold jump. destruct (running s0).
  - apply (binding_inv_alter ws (set_th_pc pc) t s); try done.
    + simpl. by rewrite Et.
    + intros th Hth E. right. by apply Hpc.
  - by apply (binding_inv_frame ws s).
Qed.

Lemma binding_inv_CreateThread ws c this pc ch s s' :
  CreateThread c this pc ch s = Some s' →
  binding_inv ws s → binding_inv ws s'.
Proof.
  unfold CreateThread. intros H I.
  destruct (objs s !! this) as [tw|] eqn:Htw; simpl in H; [|done].
  destruct pc.
  - destruct ch; try done.
    destruct (negb _); simplify_eq;
      [by apply binding_inv_goto|by apply binding_inv_returns].
  - destruct (Win32.CreateEvent _ ch s) as [[h s1]|] eqn:E; simpl in H; [|done].
    apply CreateEvent_frame in E as (Eo & _ & Et & _). simplify_eq.
    apply binding_inv_goto.
    apply (binding_inv_assign ws (set_hThreadStarted h) this s); try done.
    simpl. by rewrite Eo.
  - destruct (Win32.CreateThread _ _ ch s) as [[[h tid] s1]|] eqn:E;
      simpl in H; [|done].
    simplify_eq. apply binding_inv_goto.
    apply CreateThread_Some in E as [(-> & -> & -> & ->)|
      (-> & ? & ? & Hh & -> & ->)].
    + apply (binding_inv_assign ws
               (set_threadId (m_threadId tw) ∘ set_hThread NULL) this s);
        try done.
      * simpl. by rewrite list_alter_alter.
      * intros tw0 Htw0. assert (tw0 = tw) as -> by congruence. done.
    + rewrite bool_decide_eq_true_2 by done.
      pose proof (bi_this _ _ I) as Hthis.
      apply (binding_inv_intro ws s); try done.
      * intros o tw' Ho. simpl in Ho. rewrite list_alter_alter in Ho.
        apply list_alter_Some_inv in Ho as (tw0 & Htw0 & [->|[-> ->]]).
        { exists tw0. eauto. }
        exists tw0. split_and!; try done. right. split; [done|].
        eexists. split; [by apply list_lookup_middle|done].
      * intros t th Hth. exists th. split; [|done].
        simpl. by apply lookup_app_l_Some.
      * intros t th' Hth' Hpc. simpl in Hth'.
        apply lookup_app_Some in Hth' as [Hth'|[_ Hth']].
        { destruct (Hthis t th' Hth') as [tw0 Htw0]. exists tw0.
          split; [done|]. right. eauto. }
        apply list_lookup_singleton_Some in Hth' as [_ <-]. done.
      * intros t th' Hth'. simpl in Hth'. simpl.
        apply lookup_lt_is_Some. rewrite !length_alter.
        apply lookup_lt_is_Some.
        apply lookup_app_Some in Hth' as [Hth'|[_ Hth']]; [eauto|].
        apply list_lookup_singleton_Some in Hth' as [_ <-]. simpl. eauto.
  - destruct (WaitForSingleObject _ ch s); simpl in H; simplify_eq.
    apply binding_inv_goto. by apply (binding_inv_frame ws s).
  - destruct ch; try done. simplify_eq. apply binding_inv_goto.
    by apply (binding_inv_frame ws s).
  - destruct ch; try done. simplify_eq. apply binding_inv_goto.
    by apply (binding_inv_assign ws
                (set_hThreadStarted INVALID_HANDLE_VALUE) this s).
  - destruct ch; try done. simplify_eq. by apply binding_inv_returns.
Qed.


Lemma binding_inv_PostThreadMessage ws tid m s :
  binding_inv ws s → binding_inv ws (Win32.PostThreadMessage tid m s).2.
Proof.
  intros I. unfold Win32.PostThreadMessage. simpl.
  destruct (Win32.receiver tid s) as [t|].
  - apply (binding_inv_alter ws (Win32.enqueue m) t s); try done.
    intros th _ ?. by left.
  - by apply (binding_inv_frame ws s).
Qed.

Lemma binding_inv_TerminateThread ws h s :
  binding_inv ws s → binding_inv ws (Win32.TerminateThread h s).
Proof.
  intros I. unfold Win32.TerminateThread.
  destruct (Win32.thread_of h s) as [t|].
  - apply (binding_inv_alter ws Win32.kill t s); try done.
    intros th _ ?. by left.
  - by apply (binding_inv_frame ws s).
Qed.

Lemma binding_inv_ExitThread ws c this pc ch s s' :
  ExitThread c this pc ch s = Some s' →
  binding_inv ws s → binding_inv ws s'.
Proof.
  unfold ExitThread, PostThreadMessage. intros H I.
  destruct (objs s !! this) as [tw|] eqn:Htw; simpl in H; [|done].
  destruct pc.
  - destruct ch; try done.
    case_bool_decide; simplify_eq;
      [by apply binding_inv_goto|by apply binding_inv_returns].
  - destruct (Win32.CreateEvent _ ch s) as [[h s1]|] eqn:E; simpl in H; [|done].
    apply CreateEvent_frame in E as (Eo & _ & Et & _). simplify_eq.
    apply binding_inv_goto.
    apply (binding_inv_assign ws (set_hThreadExited h) this s); try done.
    simpl. by rewrite Eo.
  - destruct ch; try done. simplify_eq. apply binding_inv_goto.
    by apply binding_inv_PostThreadMessage.
  - destruct (WaitForSingleObject _ ch s) as [err|]; simpl in H; [|done].
    destruct (is_WAIT_TIMEOUT err); simplify_eq; by apply binding_inv_goto.
  - destruct ch; try done. simplify_eq. apply binding_inv_goto.
    by apply binding_inv_TerminateThread.
  - destruct ch; try done. simplify_eq. apply binding_inv_goto.
    by apply (binding_inv_frame ws s).
  - destruct ch; try done. simplify_eq. apply binding_inv_goto.
    by apply (binding_inv_assign ws (set_hThread INVALID_HANDLE_VALUE) this s).
  - destruct ch; try done. simplify_eq. apply binding_inv_goto.
    by apply (binding_inv_frame ws s).
  - destruct ch; try done. simplify_eq. apply binding_inv_returns.
    by apply (binding_inv_assign ws
                (set_hThreadExited INVALID_HANDLE_VALUE) this s).
Qed.

Lemma binding_inv_coord_step ws c ch s s' :
  coord_step c ch s = Some s' →
  binding_inv ws s → binding_inv ws s'.
Proof.
  unfold coord_step. intros H I.
  destruct (coords s !! c) as [co|]; simpl in H; [|done].
  destruct (c_pc co).
  - destruct (head (c_script co)) as [call|]; simpl in H; [|done].
    assert (binding_inv ws (with_coords (alter pop_call c) s)) as I0
      by (by apply (binding_inv_frame ws s)).
    destruct call.
    + by eapply binding_inv_CreateThread.
    + destruct ch; try done. simplify_eq.
      unfold StartAllThreads, Win32.SetEvent.
      by apply (binding_inv_frame ws s).
    + destruct ch; try done. unfold NewThreadMsg in H.
      destruct (_ && _); simplify_eq. by apply (binding_inv_frame ws s).
    + destruct ch; try done. unfold PostThreadMessage in H. simpl in H.
      destruct (objs s !! o) as [tw|]; simpl in H; [|done]. simplify_eq.
      apply binding_inv_returns. by apply binding_inv_PostThreadMessage.
    + destruct ch; by simplify_eq.
    + by eapply binding_inv_ExitThread.
  - by eapply binding_inv_CreateThread.
  - by eapply binding_inv_ExitThread.
Qed.

Lemma binding_inv_RunProcess ws t ch s s' :
  RunProcess t ch s = Some s' →
  binding_inv ws s → binding_inv ws s'.
Proof.
  unfold RunProcess. intros H I.
  destruct (threads s !! t) as [th|] eqn:Hth; simpl in H; [|done].
  destruct (th_alive th) eqn:Ha; simpl in H; [|done].
  destruct (objs s !! th_this th) as [tw|] eqn:Htw; simpl in H; [|done].
  destruct (th_pc th) eqn:Hpc.
  - destruct ch; try done. simplify_eq.
    apply (binding_inv_jump ws _ _ _ (Win32.PeekMessage t s)); try done.
    apply (binding_inv_alter ws Win32.make_queue t s); try done.
    intros th' _ ?. by left.
  - destruct ch; try done. unfold Win32.SetEvent in H. simplify_eq.
    apply (binding_inv_jump ws _ _ _ s); try done.
    intros th' Hth' E. assert (th' = th) as -> by congruence.
    exists tw. split; [done|]. by destruct (SYNC_START tw).
  - destruct (WaitForSingleObject _ ch s); simpl in H; simplify_eq.
    by apply (binding_inv_jump ws _ _ _ s).
  - destruct ch; try done. unfold Process in H.
    destruct (GetMessage t s) as [[msg s1]|] eqn:E; simpl in H; [|done].
    apply GetMessage_Some in E as [-> _].
    assert (binding_inv ws (with_threads (alter dequeue t) s)) as I1.
    { apply (binding_inv_alter ws dequeue t s); try done.
      intros th' _ ?. by left. }
    destruct (message msg).
    + case_bool_decide.
      * destruct (heap _ !! _); simplify_eq;
          by apply (binding_inv_frame ws (with_threads (alter dequeue t) s)).
      * simplify_eq.
        by apply (binding_inv_frame ws (with_threads (alter dequeue t) s)).
    + simplify_eq.
      by apply (binding_inv_jump ws _ _ _ (with_threads (alter dequeue t) s)).
    + simplify_eq.
      by apply (binding_inv_frame ws (with_threads (alter dequeue t) s)).
  - destruct ch; try done. unfold Win32.SetEvent in H. simplify_eq.
    by apply (binding_inv_jump ws _ _ _ s).
  - destruct ch; try done. simplify_eq.
    apply (binding_inv_alter ws finish t s); try done.
  - by destruct ch.
Qed.

Lemma binding_inv_step ws l s s' :
  step l s = Some s' → binding_inv ws s → binding_inv ws s'.
Proof.
  unfold step. destruct (fault s); [done|]. destruct l as [[c|t] ch].
  - apply binding_inv_coord_step.
  - apply binding_inv_RunProcess.
Qed.

Lemma binding_inv_boot hS ws progs : binding_inv ws (boot hS ws progs).
Proof.
  constructor; try done.
  - intros o tw Ho. unfold boot, objs in Ho.
    apply list_lookup_fmap_Some in Ho as (w & -> & Hw). simpl.
    by destruct w.
  - intros o tw t Ho. unfold boot, objs in Ho.
    by apply list_lookup_fmap_Some in Ho as (w & -> & Hw).
Qed.

Lemma reachable_binding_inv hS ws progs s :
  reachable hS ws progs s → binding_inv ws s.
Proof.
  apply reachable_ind; [apply binding_inv_boot|].
  intros s0 l s1 _ I Hs. by eapply binding_inv_step.
Qed.

(** ** Intended use *)







Lemma keeps_queue_finish : keeps_queue finish.
Proof. by intros th q' i m Hq Hi. Qed.




Lemma pops_queue_dequeue : pops_queue dequeue.
Proof. done. Qed.

Lemma pops_queue_set_th_pc pc : pops_queue (set_th_pc pc ∘ dequeue).
Proof. done. Qed.



(** *** The queued messages *)





(** *** The program and the payload at hand *)



(** *** Threads that have been told to stop *)








(** *** Exit events *)

(** No exit event exists in [s'] that did not exist in [s]. *)
Lemma exit_only_alter f e0 e s s' :
  events s' = alter f e0 (events s) →
  (∀ ev, ev_name (f ev) = ev_name ev
         ∧ (ev_open (f ev) ≠ 0 → ev_open ev ≠ 0)) →
  exit_only e s → exit_only e s'.
Proof.
  intros E Hf I j ev' Hj Hn Ho. rewrite E in Hj.
  destruct (decide (e0 = j)) as [->|Hne].
  - rewrite list_lookup_alter_eq in Hj.
    destruct (events s !! j) as [ev|] eqn:Hev; simplify_eq/=.
    destruct (Hf ev) as [E1 E2]. rewrite E1 in Hn. eauto.
  - rewrite list_lookup_alter_ne in Hj by done. eauto.
Qed.

Lemma exit_only_frame e s s' :
  events s' = events s → exit_only e s → exit_only e s'.
Proof. intros E I j ev'. rewrite E. apply I. Qed.

Lemma exit_only_CloseHandle e h s :
  exit_only e s → exit_only e (Win32.CloseHandle h s).
Proof.
  unfold Win32.CloseHandle. destruct (Win32.event_of h s) as [e0|].
  - apply (exit_only_alter Win32.release e0); [done|].
    intros ev. split; [done|]. simpl. lia.
  - by apply exit_only_frame.
Qed.

Lemma exit_only_SetEvent e h s :
  exit_only e s → exit_only e (Win32.SetEvent h s).2.
Proof.
  unfold Win32.SetEvent. simpl. destruct (Win32.event_of h s) as [e0|].
  - by apply (exit_only_alter Win32.signal e0).
  - by apply exit_only_frame.
Qed.

Lemma exit_at_quiet pc s :
  (∀ o pc', pc = InExitThread o pc' → pc' = ET_Enter ∨ pc' = ET_CreateEvent
                                      ∨ pc' = ET_InvalExited) →
  exit_at pc s ↔ exit_only None s.
Proof.
  intros H. destruct pc as [|o pc|o pc]; try done.
  destruct pc; try done;
    destruct (H o _ eq_refl) as [?|[?|?]]; discriminate.
Qed.




(** *** Steps of the coordinator *)







Lemma exit_only_release e ev s s' :
  events s' = alter Win32.release e (events s) →
  events s !! e = Some ev → ev_open ev = 1 →
  exit_only (Some e) s → exit_only None s'.
Proof.
  intros E Hev Ho Hx e' ev' He' Hn' Ho'. exfalso. rewrite E in He'.
  destruct (decide (e = e')) as [<-|Hne].
  - rewrite list_lookup_alter_eq, Hev in He'. simplify_eq/=. lia.
  - rewrite list_lookup_alter_ne in He' by done.
    specialize (Hx e' ev' He' Hn' Ho'). congruence.
Qed.

(** The exit event between lines 311 and 322, when a handle is closed. *)
Lemma exit_window_CloseHandle h o s :
  (∃ tw, objs s !! o = Some tw
     ∧ (exit_only None s
        ∨ ∃ e ev, handles s !! m_hThreadExited tw = Some (KEvent e)
            ∧ events s !! e = Some ev ∧ ev_open ev = 1
            ∧ exit_only (Some e) s)) →
  ∃ tw, objs (Win32.CloseHandle h s) !! o = Some tw
     ∧ (exit_only None (Win32.CloseHandle h s)
        ∨ ∃ e ev,
            handles (Win32.CloseHandle h s) !! m_hThreadExited tw
            = Some (KEvent e)
            ∧ events (Win32.CloseHandle h s) !! e = Some ev
            ∧ ev_open ev = 1
            ∧ exit_only (Some e) (Win32.CloseHandle h s)).
Proof.
  intros (tw & Htw & H). exists tw. split; [done|].
  destruct H as [H|(e & ev & Hh & Hev & Ho & Hx)].
  { left. by apply exit_only_CloseHandle. }
  pose proof (exit_only_CloseHandle _ h s Hx) as Hx'.
  unfold Win32.CloseHandle in *. unfold Win32.event_of in *.
  destruct (decide (h = m_hThreadExited tw)) as [->|Hne].
  - left. rewrite Hh. by apply (exit_only_release e ev s).
  - destruct (handles s !! h) as [[e0|t0]|] eqn:Hh0.
    + destruct (decide (e0 = e)) as [->|Hne'].
      * left. by apply (exit_only_release e ev s).
      * right. exists e, ev. simpl.
        rewrite lookup_delete_ne, list_lookup_alter_ne by done. done.
    + right. exists e, ev. simpl. by rewrite lookup_delete_ne.
    + right. exists e, ev. simpl. by rewrite lookup_delete_ne.
Qed.




(** *** Steps of a thread *)










(** ** The end of the handshake *)

Lemma goto_pc pc s co co' :
  coords s !! 0 = Some co → coords (goto 0 pc s) !! 0 = Some co' →
  c_pc co' = pc ∨ c_pc co' = c_pc co.
Proof.
  intros Hco. unfold goto. destruct (running s); simpl.
  - rewrite list_lookup_alter_eq, Hco. intros [= <-]. by left.
  - rewrite Hco. intros [= <-]. by right.
Qed.

Lemma returns_pc r s co co' :
  coords s !! 0 = Some co → coords (returns 0 r s) !! 0 = Some co' →
  c_pc co' = PC_Idle ∨ c_pc co' = c_pc co.
Proof.
  intros Hco. unfold returns. destruct (running s); simpl.
  - rewrite list_lookup_alter_eq, Hco. intros [= <-]. by left.
  - rewrite Hco. intros [= <-]. by right.
Qed.

(** The only ways into the wait of line 234: from the call of line 228
    that has started a thread, or by staying there. *)
Lemma CreateThread_to_wait this pc ch s s' co co' o :
  fault s = None → coords s !! 0 = Some co →
  pc = CT_Enter ∧ c_pc co = PC_Idle ∨ c_pc co = InCreateThread this pc →
  CreateThread 0 this pc ch s = Some s' →
  coords s' !! 0 = Some co' → c_pc co' = InCreateThread o CT_Wait →
  o = this
  ∧ (pc = CT_Spawn ∧ has_fresh s'
     ∨ pc = CT_Wait ∧ threads s' = threads s ∧ objs s' = objs s
       ∧ handles s' = handles s ∧ events s' = events s).
Proof.
  intros Hf Hco Hpc H Hco' Hpc'. unfold CreateThread in H.
  destruct (objs s !! this) as [tw|] eqn:Htw; simpl in H; [|done].
  destruct pc.
  - destruct ch; try done. exfalso.
    destruct (negb _); simplify_eq.
    + destruct (goto_pc _ _ _ _ Hco Hco') as [E|E]; rewrite E in Hpc';
        destruct Hpc as [[_ Hpc]|Hpc]; congruence.
    + destruct (returns_pc _ _ _ _ Hco Hco') as [E|E]; rewrite E in Hpc';
        destruct Hpc as [[_ Hpc]|Hpc]; congruence.
  - destruct Hpc as [[? _]|Hpc]; [done|]. exfalso.
    destruct (Win32.CreateEvent _ ch s) as [[h s1]|] eqn:E; simpl in H; [|done].
    apply CreateEvent_frame in E as (_ & Ef & _ & Ec & _). simplify_eq.
    assert (coords (assign this (set_hThreadStarted h) s1) !! 0 = Some co)
      as Hco1 by (simpl; by rewrite Ec).
    destruct (goto_pc _ _ _ _ Hco1 Hco') as [E|E]; rewrite E in Hpc';
      congruence.
  - destruct Hpc as [[? _]|Hpc]; [done|].
    destruct (Win32.CreateThread _ _ ch s) as [[[h tid] s1]|] eqn:E;
      simpl in H; [|done].
    simplify_eq.
    apply CreateThread_Some in E as [(-> & -> & -> & ->)|
      (-> & ? & ? & Hh & -> & ->)].
    + exfalso. revert Hco'. unfold goto, running. simpl. rewrite Hco.
      intros [= <-]. congruence.
    + revert Hco'. unfold goto, ASSERT_TRUE, running. simpl. rewrite ?Hf.
      rewrite bool_decide_eq_true_2 by done. simpl. rewrite ?Hf.
      rewrite list_lookup_alter_eq, Hco. intros [= <-]. simpl in Hpc'.
      split; [congruence|]. left. split; [done|].
      exists (length (threads s)),
        (mkThread this RP_PeekMessage true None [] []).
      split; [|done]. simpl. by apply list_lookup_middle.
  - destruct Hpc as [[? _]|Hpc]; [done|].
    destruct (WaitForSingleObject _ ch s) as [err|] eqn:E; simpl in H; [|done].
    simplify_eq.
    destruct (goto_pc _ (ASSERT_TRUE 235 (is_WAIT_OBJECT_0 err) s) co co'
                Hco Hco') as [E'|E']; rewrite E' in Hpc'; [done|].
    split; [congruence|]. by right.
  - destruct Hpc as [[? _]|Hpc]; [done|]. exfalso.
    destruct ch; try done. simplify_eq.
    assert (coords (Win32.CloseHandle (m_hThreadStarted tw) s) !! 0 = Some co)
      as Hco1.
    { unfold Win32.CloseHandle. by repeat case_match. }
    destruct (goto_pc _ _ _ _ Hco1 Hco') as [E|E]; rewrite E in Hpc';
      congruence.
  - destruct Hpc as [[? _]|Hpc]; [done|]. exfalso.
    destruct ch; try done. simplify_eq.
    assert (coords (assign this (set_hThreadStarted INVALID_HANDLE_VALUE) s)
              !! 0 = Some co) as Hco1 by done.
    destruct (goto_pc _ _ _ _ Hco1 Hco') as [E|E]; rewrite E in Hpc';
      congruence.
  - destruct Hpc as [[? _]|Hpc]; [done|]. exfalso.
    destruct ch; try done. simplify_eq.
    destruct (returns_pc _ _ _ _ Hco Hco') as [E|E]; rewrite E in Hpc';
      congruence.
Qed.

Lemma ExitThread_to_wait this pc ch s s' co co' o :
  coords s !! 0 = Some co →
  pc = ET_Enter ∧ c_pc co = PC_Idle ∨ c_pc co = InExitThread this pc →
  ExitThread 0 this pc ch s = Some s' →
  coords s' !! 0 = Some co' → c_pc co' ≠ InCreateThread o CT_Wait.
Proof.
  intros Hco Hpc H Hco'. unfold ExitThread, PostThreadMessage in H.
  destruct (objs s !! this) as [tw|] eqn:Htw; simpl in H; [|done].
  assert (∀ pc1 s1, coords s1 = coords s →
            coords (goto 0 (InExitThread this pc1) s1) !! 0 = Some co' →
            c_pc co' ≠ InCreateThread o CT_Wait) as Hgoto.
  { intros pc1 s1 E1 H1. rewrite <- E1 in Hco.
    destruct (goto_pc _ _ _ _ Hco H1) as [E|E]; rewrite E;
      destruct Hpc as [[_ Hpc]|Hpc]; congruence. }
  assert (∀ r s1, coords s1 = coords s →
            coords (returns 0 r s1) !! 0 = Some co' →
            c_pc co' ≠ InCreateThread o CT_Wait) as Hret.
  { intros r s1 E1 H1. rewrite <- E1 in Hco.
    destruct (returns_pc _ _ _ _ Hco H1) as [E|E]; rewrite E;
      destruct Hpc as [[_ Hpc]|Hpc]; congruence. }
  destruct pc.
  - destruct ch; try done. case_bool_decide; simplify_eq.
    + (eapply Hgoto; [|exact Hco']; done).
    + (eapply Hret; [|exact Hco']; done).
  - destruct (Win32.CreateEvent _ ch s) as [[h s1]|] eqn:E; simpl in H; [|done].
    apply CreateEvent_frame in E as (_ & _ & _ & Ec & _). simplify_eq.
    (eapply Hgoto; [|exact Hco']; done).
  - destruct ch; try done. simplify_eq. (eapply Hgoto; [|exact Hco']; done).
  - destruct (WaitForSingleObject _ ch s) as [err|]; simpl in H; [|done].
    destruct (is_WAIT_TIMEOUT err); simplify_eq; (eapply Hgoto; [|exact Hco']; done).
  - destruct ch; try done. simplify_eq. (eapply Hgoto; [|exact Hco']; done).
  - destruct ch; try done. simplify_eq. eapply Hgoto; [|exact Hco'].
    unfold Win32.CloseHandle. by repeat case_match.
  - destruct ch; try done. simplify_eq. (eapply Hgoto; [|exact Hco']; done).
  - destruct ch; try done. simplify_eq. eapply Hgoto; [|exact Hco'].
    unfold Win32.CloseHandle. by repeat case_match.
  - destruct ch; try done. simplify_eq. (eapply Hret; [|exact Hco']; done).
Qed.

Lemma coord_step_to_wait ch s s' co co' o :
  fault s = None → coords s !! 0 = Some co →
  coord_step 0 ch s = Some s' →
  coords s' !! 0 = Some co' → c_pc co' = InCreateThread o CT_Wait →
  c_pc co = InCreateThread o CT_Spawn ∧ has_fresh s'
  ∨ c_pc co = InCreateThread o CT_Wait ∧ threads s' = threads s
    ∧ objs s' = objs s ∧ handles s' = handles s ∧ events s' = events s.
Proof.
  intros Hf Hco H Hco' Hpc'. unfold coord_step in H. rewrite Hco in H.
  simpl in H.
  destruct (c_pc co) as [|this pc|this pc] eqn:Hpc.
  - exfalso.
    destruct (head (c_script co)) as [call|]; simpl in H; [|done].
    assert (coords (with_coords (alter pop_call 0) s) !! 0
            = Some (pop_call co)) as Hco0.
    { simpl. by rewrite list_lookup_alter_eq, Hco. }
    destruct call.
    + eapply (CreateThread_to_wait _ _ _ _ _ (pop_call co)) in H as [_ H];
        [|done|done| |done|done].
      * by destruct H as [[? _]|[? _]].
      * left. split; [done|]. simpl. by rewrite Hpc.
    + destruct ch; try done. simplify_eq. unfold StartAllThreads in Hco'.
      simpl in Hco'. rewrite list_lookup_alter_eq, Hco in Hco'.
      simplify_eq/=. congruence.
    + destruct ch; try done. unfold NewThreadMsg in H.
      destruct (_ && _); simplify_eq. simpl in Hco'.
      rewrite !list_lookup_alter_eq, Hco in Hco'. simplify_eq/=. congruence.
    + destruct ch; try done. unfold PostThreadMessage in H. simpl in H.
      destruct (objs s !! o0) as [tw|]; simpl in H; [|done]. simplify_eq.
      destruct (returns_pc _ _ _ _ Hco0 Hco') as [E|E]; rewrite E in Hpc';
        simpl in Hpc'; congruence.
    + destruct ch; try done. simplify_eq. simpl in Hco'.
      rewrite list_lookup_alter_eq, Hco in Hco'. simplify_eq/=. congruence.
    + eapply (ExitThread_to_wait _ _ _ _ _ (pop_call co) co' o) in H;
        [done|done| |done].
      left. split; [done|]. simpl. by rewrite Hpc.
  - eapply (CreateThread_to_wait _ _ _ _ _ co co' o) in H;
      [|done|done| |done|done].
    + destruct H as [-> [[-> ?]|[-> ?]]]; [by left|by right].
    + right. by rewrite Hpc.
  - exfalso. eapply (ExitThread_to_wait _ _ _ _ _ co co' o) in H;
      [done|done| |done].
    right. by rewrite Hpc.
Qed.

Lemma probe_kept h s s' :
  signals_kept s s' →
  Win32.probe h s = Win32.WAIT_OBJECT_0 →
  Win32.probe h s' = Win32.WAIT_OBJECT_0.
Proof.
  intros (Eh & He & Ht). unfold Win32.probe. rewrite Eh.
  destruct (handles s !! h) as [[e|t]|]; [| |done].
  - destruct (events s !! e) as [ev|] eqn:E; [|done].
    destruct (He e ev E) as (ev' & -> & Hs).
    destruct (ev_signaled ev); [|done]. by rewrite Hs.
  - destruct (threads s !! t) as [th|] eqn:E; [|done].
    destruct (Ht t th E) as (th' & -> & Ha).
    destruct (th_alive th); [done|]. by rewrite Ha.
Qed.

Lemma jump_shape t pc s s1 f :
  threads s1 = alter f t (threads s) → keeps_dead f →
  ∃ f', threads (jump t pc s1) = alter f' t (threads s) ∧ keeps_dead f'.
Proof.
  intros E Hf. unfold jump. destruct (running s1); simpl.
  - exists (set_th_pc pc ∘ f). rewrite E, list_alter_alter. split; [done|].
    intros th Hth. simpl. by apply Hf.
  - by exists f.
Qed.

(** A step of thread [t] changes no other thread, starts no thread again
    and resets no event. *)
Lemma RunProcess_shape t ch s s' :
  RunProcess t ch s = Some s' →
  (∃ f, threads s' = alter f t (threads s) ∧ keeps_dead f)
  ∧ (events s' = events s ∨ ∃ e, events s' = alter Win32.signal e (events s)).
Proof.
  unfold RunProcess, Process. intros H.
  destruct (threads s !! t) as [th|]; simpl in H; [|done].
  destruct (th_alive th); simpl in H; [|done].
  destruct (objs s !! th_this th) as [tw|]; simpl in H; [|done].
  destruct (th_pc th) eqn:Hpc.
  - destruct ch; try done. simplify_eq. split; [|by left].
    apply (jump_shape _ _ s _ Win32.make_queue); [done|by intros ?].
  - destruct ch; try done. simplify_eq. unfold Win32.SetEvent. split.
    + apply (jump_shape _ _ s _ id); [by rewrite list_alter_id|by intros ?].
    + simpl. destruct (Win32.event_of _ s); [right; by eexists|by left].
  - destruct (WaitForSingleObject _ ch s); simpl in H; [|done]. simplify_eq.
    split; [|by left]. apply (jump_shape _ _ s _ id); [by rewrite list_alter_id|by intros ?].
  - destruct ch; try done.
    destruct (GetMessage t s) as [[msg s1]|] eqn:E; simpl in H; [|done].
    apply GetMessage_Some in E as [-> _].
    assert (keeps_dead dequeue) as Hd by (by intros ?).
    destruct (message msg); simplify_eq.
    + case_bool_decide; simplify_eq.
      * simpl in H. destruct (heap s !! wParam msg); simplify_eq;
          (split; [by exists dequeue|by left]).
      * split; [by exists dequeue|by left].
    + split; [|by left]. by apply (jump_shape _ _ s _ dequeue).
    + split; [by exists dequeue|by left].
  - destruct ch; try done. simplify_eq. unfold Win32.SetEvent. split.
    + apply (jump_shape _ _ s _ id); [by rewrite list_alter_id|by intros ?].
    + simpl. destruct (Win32.event_of _ s); [right; by eexists|by left].
  - destruct ch; try done. simplify_eq. split; [|by left].
    exists finish. split; [done|]. by intros ?.
  - by destruct ch.
Qed.

Lemma RunProcess_signals_kept t ch s s' :
  RunProcess t ch s = Some s' → signals_kept s s'.
Proof.
  intros H. destruct (RunProcess_shape _ _ _ _ H) as [(f & Et & Hf) Hev].
  apply RunProcess_frame in H as (_ & _ & Eh & _).
  split; [done|]. split.
  - intros e ev He. destruct Hev as [->|[e' ->]]; [by eauto|].
    destruct (decide (e = e')) as [->|Hne].
    + rewrite list_lookup_alter_eq, He. by eexists.
    + rewrite list_lookup_alter_ne by done. by eauto.
  - intros t0 th Hth. rewrite Et.
    destruct (decide (t0 = t)) as [->|Hne].
    + rewrite list_lookup_alter_eq, Hth. eexists. split; [done|]. apply Hf.
    + rewrite list_lookup_alter_ne by done. by eauto.
Qed.

Lemma wait_inv_RunProcess t ch s s' :
  fault s = None → handshake_inv s → wait_inv s →
  RunProcess t ch s = Some s' → wait_inv s'.
Proof.
  intros Hf (Hl & Hb & co0 & Hco0 & Hat) I H co o tw Hco Hpc Htw.
  pose proof (RunProcess_frame _ _ _ _ H) as (Eo & Ec & Eh & _).
  rewrite Ec in Hco. rewrite Eo in Htw.
  assert (co0 = co) as -> by congruence.
  rewrite Hpc in Hat. destruct Hat as [Hfr Hst].
  destruct (I co o tw Hco Hpc Htw) as [(t0 & th0 & Hth0 & Hfr0)|Hp].
  2:{ right. eapply probe_kept; [by eapply RunProcess_signals_kept|done]. }
  destruct (decide (t0 = t)) as [->|Hne].
  2:{ left. exists t0, th0. split; [|done].
      destruct (RunProcess_shape _ _ _ _ H) as [(f & -> & _) _].
      by rewrite list_lookup_alter_ne. }
  destruct (Hfr t th0 Hth0 Hfr0) as [Hlast Hthis].
  unfold RunProcess in H. rewrite Hth0 in H. simpl in H.
  unfold fresh in Hfr0. destruct (th_alive th0) eqn:Ha; [|done].
  simpl in H, Hfr0. rewrite Hthis, Htw in H. simpl in H.
  destruct (th_pc th0) eqn:Hpc0; try done.
  - destruct ch; try done. simplify_eq. left.
    exists t, (set_th_pc RP_SetStarted (Win32.make_queue th0)). split.
    + unfold jump, running. simpl. rewrite Hf. simpl.
      by rewrite !list_lookup_alter_eq, Hth0.
    + unfold fresh. simpl. by rewrite Ha.
  - destruct ch; try done. simplify_eq.
    unfold Win32.SetEvent, Win32.event_behind.
    destruct (Win32.event_of (m_hThreadStarted tw) s) as [e|] eqn:Ee; simpl.
    + destruct (events s !! e) as [ev|] eqn:Eev.
      * right. unfold Win32.probe, jump. simpl.
        unfold Win32.event_of in Ee.
        destruct (handles s !! m_hThreadStarted tw) as [[e'|]|]; simplify_eq.
        by rewrite list_lookup_alter_eq, Eev.
      * left. exists t, th0. split; [|by unfold fresh; rewrite Ha, Hpc0].
        unfold jump, ASSERT_TRUE, running. simpl.
        done.
    + left. exists t, th0. split; [|by unfold fresh; rewrite Ha, Hpc0].
      unfold jump, ASSERT_TRUE, running. simpl. done.
Qed.

Lemma wait_inv_coord_step c ch s s' :
  fault s = None → handshake_inv s → wait_inv s →
  coord_step c ch s = Some s' → wait_inv s'.
Proof.
  intros Hf (Hl & _ & co & Hco & _) I H.
  assert (c = 0) as ->.
  { unfold coord_step in H.
    destruct (coords s !! c) as [co'|] eqn:Hco'; simpl in H; [|done].
    apply lookup_lt_Some in Hco'. lia. }
  intros co' o tw Hco' Hpc' Htw.
  destruct (coord_step_to_wait _ _ _ _ _ _ Hf Hco H Hco' Hpc')
    as [[_ ?]|(Hpc & Et & Eo & Eh & Ee)]; [by left|].
  rewrite Eo in Htw. destruct (I co o tw Hco Hpc Htw) as [(t & th & ? & ?)|Hp].
  - left. exists t, th. by rewrite Et.
  - right. revert Hp. unfold Win32.probe. by rewrite Eh, Ee, Et.
Qed.

Lemma wait_inv_step s l s' :
  handshake_inv s → wait_inv s → step l s = Some s' → wait_inv s'.
Proof.
  intros Hh I H. unfold step in H.
  destruct (fault s) eqn:Hf; [done|]. destruct l as [[c|t] ch].
  - by eapply wait_inv_coord_step.
  - by eapply wait_inv_RunProcess.
Qed.

Lemma reachable_wait_inv hS ws p s :
  hS ≠ NULL → hS ≠ INVALID_HANDLE_VALUE →
  reachable hS ws [p] s → wait_inv s.
Proof.
  intros H1 H2. apply reachable_ind.
  - intros co o tw Hco Hpc. by simplify_eq/=.
  - intros s0 l s1 Hr I Hs.
    eapply wait_inv_step; [|done..]. by eapply reachable_handshake_inv.
Qed.

Lemma wait_over s co o tw :
  fault s = None → coords s !! 0 = Some co →
  c_pc co = InCreateThread o CT_Wait → objs s !! o = Some tw →
  Win32.probe (m_hThreadStarted tw) s = Win32.WAIT_OBJECT_0 →
  ∃ s', step (Coordinator 0, Go) s = Some s' ∧ fault s' = None
        ∧ pc_of 0 s' = Some (InCreateThread o CT_Close).
Proof.
  intros Hf Hco Hpc Htw Hp.
  unfold step, coord_step, CreateThread, WaitForSingleObject.
  rewrite Hf, Hco. simpl. rewrite Hpc, Htw. simpl. rewrite Hp. simpl.
  eexists. split; [done|].
  unfold goto, ASSERT_TRUE, running, pc_of. simpl. rewrite Hf. simpl.
  split; [done|]. by rewrite list_lookup_alter_eq, Hco.
Qed.

Lemma SetStarted_step s t th tw e ev :
  fault s = None → threads s !! t = Some th → th_alive th = true →
  th_pc th = RP_SetStarted → objs s !! th_this th = Some tw →
  handles s !! m_hThreadStarted tw = Some (KEvent e) →
  events s !! e = Some ev →
  ∃ s1, step (Worker t, Go) s = Some s1 ∧ fault s1 = None
        ∧ coords s1 = coords s ∧ objs s1 = objs s
        ∧ Win32.probe (m_hThreadStarted tw) s1 = Win32.WAIT_OBJECT_0.
Proof.
  intros Hf Hth Ha Hpc Htw Hh Hev.
  unfold step, RunProcess, Win32.SetEvent, Win32.event_behind,
    Win32.event_of.
  rewrite Hf, Hth. simpl. rewrite Ha, Htw. simpl. rewrite Hpc, Hh. simpl.
  rewrite Hev. simpl. eexists. split; [done|].
  unfold jump, ASSERT_TRUE, running, Win32.probe. simpl. rewrite Hf. simpl.
  split_and!; try done. by rewrite Hh, list_lookup_alter_eq, Hev.
Qed.

Lemma PeekMessage_step s t th tw :
  fault s = None → threads s !! t = Some th → th_alive th = true →
  th_pc th = RP_PeekMessage → objs s !! th_this th = Some tw →
  ∃ s1 th1, step (Worker t, Go) s = Some s1 ∧ fault s1 = None
    ∧ coords s1 = coords s ∧ objs s1 = objs s ∧ handles s1 = handles s
    ∧ events s1 = events s ∧ threads s1 !! t = Some th1
    ∧ th_alive th1 = true ∧ th_pc th1 = RP_SetStarted
    ∧ th_this th1 = th_this th.
Proof.
  intros Hf Hth Ha Hpc Htw. unfold step, RunProcess.
  rewrite Hf, Hth. simpl. rewrite Ha, Htw. simpl. rewrite Hpc.
  eexists _, (set_th_pc RP_SetStarted (Win32.make_queue th)).
  split; [done|].
  unfold jump, Win32.PeekMessage, running. simpl. rewrite Hf. simpl.
  split_and!; try done. by rewrite !list_lookup_alter_eq, Hth.
Qed.

(** ** Events between calls *)

Lemma names_alter f e s s' :
  events s' = alter f e (events s) →
  (∀ ev, ev_name (f ev) = ev_name ev) → names s' = names s.
Proof.
  intros E Hf. unfold names. rewrite E.
  rewrite (list_fmap_alter ev_name f id).
  - by apply list_alter_id.
  - apply Forall_forall. intros ev _. apply Hf.
Qed.

Lemma CloseHandle_names h s : names (Win32.CloseHandle h s) = names s.
Proof.
  unfold Win32.CloseHandle. destruct (Win32.event_of h s) as [e|]; [|done].
  by apply (names_alter Win32.release e).
Qed.

Lemma SetEvent_names h s : names (Win32.SetEvent h s).2 = names s.
Proof.
  unfold Win32.SetEvent. simpl.
  destruct (Win32.event_of h s) as [e|]; [|done].
  by apply (names_alter Win32.signal e).
Qed.

Lemma CreateEvent_names name ch s h s1 :
  Win32.CreateEvent name ch s = Some (h, s1) →
  names s1 = names s ∨ names s1 = names s ++ [name].
Proof.
  intros [(-> & -> & ->)|(-> & ? & ? & Hh &
    [(e & ev & Hev & Hn & Ho & _ & ->)|(_ & ->)])]%CreateEvent_Some.
  - by left.
  - left. unfold names. simpl. rewrite list_fmap_insert. simpl.
    apply list_insert_id. by rewrite list_lookup_fmap, Hev.
  - right. unfold names. simpl. by rewrite fmap_app.
Qed.

Lemma CreateThread_names c this pc ch s s' :
  CreateThread c this pc ch s = Some s' → names_grow s s'.
Proof.
  intros H. unfold CreateThread in H.
  destruct (objs s !! this) as [tw|]; simpl in H; [|done].
  destruct pc.
  - destruct ch; try done. destruct (negb _); simplify_eq; by left.
  - destruct (Win32.CreateEvent _ ch s) as [[h s1]|] eqn:E; simpl in H; [|done].
    simplify_eq. apply CreateEvent_names in E as [E|E]; [by left|].
    right. eexists. split; [by left|done].
  - destruct (Win32.CreateThread _ _ ch s) as [[[h tid] s1]|] eqn:E;
      simpl in H; [|done].
    simplify_eq.
    apply CreateThread_Some in E as [(-> & -> & -> & ->)|
      (-> & ? & ? & Hh & -> & ->)]; by left.
  - destruct (WaitForSingleObject _ ch s); simpl in H; [|done].
    simplify_eq. by left.
  - destruct ch; try done. simplify_eq. left.
    apply (CloseHandle_names (m_hThreadStarted tw) s).
  - destruct ch; try done. simplify_eq. by left.
  - destruct ch; try done. simplify_eq. by left.
Qed.

Lemma ExitThread_names c this pc ch s s' :
  ExitThread c this pc ch s = Some s' → names_grow s s'.
Proof.
  intros H. unfold ExitThread, PostThreadMessage in H.
  destruct (objs s !! this) as [tw|]; simpl in H; [|done].
  destruct pc.
  - destruct ch; try done. case_bool_decide; simplify_eq; by left.
  - destruct (Win32.CreateEvent _ ch s) as [[h s1]|] eqn:E; simpl in H; [|done].
    simplify_eq. apply CreateEvent_names in E as [E|E]; [by left|].
    right. eexists. split; [by right|done].
  - destruct ch; try done. simplify_eq. by left.
  - destruct (WaitForSingleObject _ ch s) as [err|]; simpl in H; [|done].
    destruct (is_WAIT_TIMEOUT err); simplify_eq; by left.
  - destruct ch; try done. simplify_eq. by left.
  - destruct ch; try done. simplify_eq. left.
    apply (CloseHandle_names (m_hThread tw) s).
  - destruct ch; try done. simplify_eq. by left.
  - destruct ch; try done. simplify_eq. left.
    apply (CloseHandle_names (m_hThreadExited tw) s).
  - destruct ch; try done. simplify_eq. by left.
Qed.

Lemma coord_step_names c ch s s' :
  coord_step c ch s = Some s' → names_grow s s'.
Proof.
  intros H. unfold coord_step in H.
  destruct (coords s !! c) as [co|]; simpl in H; [|done].
  destruct (c_pc co) as [|o pc|o pc].
  - destruct (head (c_script co)) as [call|]; simpl in H; [|done].
    destruct call.
    + by apply CreateThread_names in H.
    + destruct ch; try done. simplify_eq. left.
      apply (SetEvent_names (m_hStartAllThreads s) s).
    + destruct ch; try done. unfold NewThreadMsg in H.
      destruct (_ && _); simplify_eq. by left.
    + destruct ch; try done. unfold PostThreadMessage in H. simpl in H.
      destruct (objs s !! o) as [tw|]; simpl in H; [|done]. simplify_eq.
      by left.
    + destruct ch; try done. simplify_eq. by left.
    + by apply ExitThread_names in H.
  - by apply CreateThread_names in H.
  - by apply ExitThread_names in H.
Qed.

Lemma step_names l s s' : step l s = Some s' → names_grow s s'.
Proof.
  unfold step. destruct (fault s); [done|]. destruct l as [[c|t] ch].
  - apply coord_step_names.
  - intros H. left.
    destruct (RunProcess_shape _ _ _ _ H) as [_ [E|[e E]]].
    + unfold names. by rewrite E.
    + by apply (names_alter Win32.signal e).
Qed.

Lemma reachable_events_named hS ws progs s :
  reachable hS ws progs s → events_named s.
Proof.
  apply reachable_ind.
  - exists []. by split.
  - intros s0 l s1 _ (ns & E & Hns) [E1|(n & Hn & E1)]%step_names.
    + exists ns. by rewrite E1.
    + exists (ns ++ [n]). rewrite E1, E. split; [done|].
      apply Forall_app. split; [done|]. by apply Forall_singleton.
Qed.

(** *** The exit event in any run *)

Lemma exit_only_kept e s s' :
  events s' = events s ∨ (∃ e0, events s' = alter Win32.signal e0 (events s)) →
  exit_only e s → exit_only e s'.
Proof.
  intros [E|[e0 E]]; [by apply exit_only_frame|].
  by apply (exit_only_alter Win32.signal e0).
Qed.

Lemma exit_open_kept o s s' :
  handles s' = handles s →
  (∀ o, m_hThreadExited <$> objs s' !! o = m_hThreadExited <$> objs s !! o) →
  events s' = events s ∨ (∃ e0, events s' = alter Win32.signal e0 (events s)) →
  exit_open o s → exit_open o s'.
Proof.
  intros Eh Eo Ee (tw & Htw & H).
  pose proof (Eo o) as E. rewrite Htw in E.
  destruct (objs s' !! o) as [tw'|] eqn:Htw'; simplify_eq/=.
  exists tw'. split; [done|]. rewrite E, Eh.
  destruct H as [H|(e & ev & Hh & Hev & Ho & Hx)].
  { left. by apply (exit_only_kept _ s). }
  right. pose proof (exit_only_kept _ s s' Ee Hx) as Hx'.
  destruct Ee as [->|[e0 ->]]; [by exists e, ev|].
  destruct (decide (e0 = e)) as [->|Hne].
  - exists e, (Win32.signal ev). by rewrite list_lookup_alter_eq, Hev.
  - exists e, ev. by rewrite list_lookup_alter_ne.
Qed.

Lemma exit_window_kept pc s s' :
  handles s' = handles s →
  (∀ o, m_hThreadExited <$> objs s' !! o = m_hThreadExited <$> objs s !! o) →
  events s' = events s ∨ (∃ e0, events s' = alter Win32.signal e0 (events s)) →
  exit_window pc s → exit_window pc s'.
Proof.
  intros Eh Eo Ee.
  destruct pc as [|o pc|o pc]; simpl; try (by apply exit_only_kept).
  destruct pc; first [by apply exit_only_kept | by apply exit_open_kept].
Qed.

Lemma exit_window_none pc s :
  (∀ o pc', pc ≠ InExitThread o pc') →
  exit_only None s → exit_window pc s.
Proof. intros H. destruct pc as [|o pc|o pc]; try done. by destruct (H o pc). Qed.

Lemma exit_inv_goto pc s co :
  fault s = None → coords s !! 0 = Some co →
  exit_window pc s → exit_inv (goto 0 pc s).
Proof.
  intros Hf Hco H. unfold goto, running. rewrite Hf.
  exists (set_c_pc pc co). simpl. by rewrite list_lookup_alter_eq, Hco.
Qed.

Lemma exit_inv_returns r s co :
  fault s = None → coords s !! 0 = Some co →
  exit_only None s → exit_inv (returns 0 r s).
Proof.
  intros Hf Hco H. unfold returns, running. rewrite Hf.
  exists (give_back r co). simpl. by rewrite list_lookup_alter_eq, Hco.
Qed.

(** Outside [ExitThread], with or without a failed assertion. *)
Lemma exit_inv_quiet_goto pc s co :
  coords s !! 0 = Some co →
  (∀ o pc', pc ≠ InExitThread o pc') →
  (∀ o pc', c_pc co ≠ InExitThread o pc') →
  exit_only None s → exit_inv (goto 0 pc s).
Proof.
  intros Hco Hpc Hpc0 H. unfold goto. destruct (running s).
  - exists (set_c_pc pc co). simpl. rewrite list_lookup_alter_eq, Hco.
    split; [done|]. by apply exit_window_none.
  - exists co. split; [done|]. by apply exit_window_none.
Qed.

Lemma exit_inv_quiet_returns r s co :
  coords s !! 0 = Some co →
  (∀ o pc', c_pc co ≠ InExitThread o pc') →
  exit_only None s → exit_inv (returns 0 r s).
Proof.
  intros Hco Hpc0 H. unfold returns. destruct (running s).
  - exists (give_back r co). simpl. by rewrite list_lookup_alter_eq, Hco.
  - exists co. split; [done|]. by apply exit_window_none.
Qed.

Lemma exit_only_CreateEvent name ch s h s1 e :
  name ≠ "ThreadExitedEvent" →
  Win32.CreateEvent name ch s = Some (h, s1) →
  exit_only e s → exit_only e s1.
Proof.
  intros Hname [(-> & -> & ->)|(-> & ? & ? & Hh &
    [(e0 & ev & Hev & Hn & Ho & _ & ->)|(_ & ->)])]%CreateEvent_Some I;
    [done| |].
  - intros j ev' Hj Hn' Ho'. simpl in Hj.
    apply list_lookup_insert_Some in Hj as [(-> & <- & _)|[_ Hj]].
    + simpl in Hn'. congruence.
    + eauto.
  - intros j ev' Hj Hn' Ho'. simpl in Hj.
    apply lookup_app_Some in Hj as [Hj|[_ Hj]]; [eauto|].
    apply list_lookup_singleton_Some in Hj as [_ <-]. done.
Qed.

Lemma exit_CreateThread this pc ch s s' co :
  coords s !! 0 = Some co →
  (∀ o pc', c_pc co ≠ InExitThread o pc') →
  exit_only None s →
  CreateThread 0 this pc ch s = Some s' → exit_inv s'.
Proof.
  intros Hco Hpc He H. unfold CreateThread in H.
  destruct (objs s !! this) as [tw|] eqn:Htw; simpl in H; [|done].
  destruct pc.
  - destruct ch; try done. destruct (negb _); simplify_eq.
    + by apply (exit_inv_quiet_goto _ _ co).
    + by apply (exit_inv_quiet_returns _ _ co).
  - destruct (Win32.CreateEvent _ ch s) as [[h s1]|] eqn:E; simpl in H; [|done].
    simplify_eq.
    assert ("ThreadCreatedEvent" ≠ "ThreadExitedEvent") as Hne by done.
    pose proof (exit_only_CreateEvent _ _ _ _ _ None Hne E He) as He1.
    apply CreateEvent_frame in E as (_ & _ & _ & Ec & _).
    apply (exit_inv_quiet_goto _ _ co); try done. simpl. by rewrite Ec.
  - destruct (Win32.CreateThread _ _ ch s) as [[[h tid] s1]|] eqn:E;
      simpl in H; [|done].
    simplify_eq.
    apply CreateThread_Some in E as [(-> & -> & -> & ->)|
      (-> & ? & ? & Hh & -> & ->)];
      by apply (exit_inv_quiet_goto _ _ co).
  - destruct (WaitForSingleObject _ ch s); simpl in H; [|done].
    simplify_eq. by apply (exit_inv_quiet_goto _ _ co).
  - destruct ch; try done. simplify_eq.
    apply (exit_inv_quiet_goto _ _ co); try done.
    by apply exit_only_CloseHandle.
  - destruct ch; try done. simplify_eq.
    by apply (exit_inv_quiet_goto _ _ co).
  - destruct ch; try done. simplify_eq.
    by apply (exit_inv_quiet_returns _ _ co).
Qed.

Lemma exit_open_frame o s s' :
  handles s' = handles s → events s' = events s →
  (∀ o, m_hThreadExited <$> objs s' !! o = m_hThreadExited <$> objs s !! o) →
  exit_open o s → exit_open o s'.
Proof. intros Eh Ee Eo. apply exit_open_kept; try done. by left. Qed.

Lemma exit_ExitThread this pc ch s s' co :
  fault s = None → coords s !! 0 = Some co →
  exit_window (InExitThread this pc) s →
  ExitThread 0 this pc ch s = Some s' → exit_inv s'.
Proof.
  intros Hf Hco He H. unfold ExitThread, PostThreadMessage in H.
  destruct (objs s !! this) as [tw|] eqn:Htw; simpl in H; [|done].
  destruct pc; simpl in He.
  - destruct ch; try done. case_bool_decide; simplify_eq.
    + by apply (exit_inv_goto _ _ co).
    + by apply (exit_inv_returns _ _ co).
  - destruct (Win32.CreateEvent _ ch s) as [[h s1]|] eqn:E; simpl in H; [|done].
    simplify_eq.
    apply CreateEvent_Some in E as [(-> & -> & ->)|(-> & ? & ? & Hh &
      [(e & ev & Hev & Hn & Ho & _ & ->)|(_ & ->)])].
    + apply (exit_inv_goto _ _ co); try done.
      exists (set_hThreadExited NULL tw). simpl.
      rewrite list_lookup_alter_eq, Htw. split; [done|]. by left.
    + by specialize (He e ev Hev Hn Ho).
    + apply (exit_inv_goto _ _ co); try done.
      exists (set_hThreadExited h tw). simpl.
      rewrite list_lookup_alter_eq, Htw. split; [done|]. right.
      exists (length (events s)), (mkEvent "ThreadExitedEvent" false 1).
      simpl. split_and!; try done.
      * apply lookup_insert_eq.
      * by apply list_lookup_middle.
      * intros e' ev' He' Hn' Ho'. simpl in He'.
        apply lookup_app_Some in He' as [He'|[? He']].
        { by specialize (He e' ev' He' Hn' Ho'). }
        apply list_lookup_singleton_Some in He' as [? _]. f_equal. lia.
  - destruct ch; try done. simplify_eq.
    by apply (exit_inv_goto _ _ co).
  - destruct (WaitForSingleObject _ ch s) as [err|]; simpl in H; [|done].
    destruct (is_WAIT_TIMEOUT err); simplify_eq;
      by apply (exit_inv_goto _ _ co).
  - destruct ch; try done. simplify_eq.
    by apply (exit_inv_goto _ _ co).
  - destruct ch; try done. simplify_eq.
    apply (exit_inv_goto _ _ co); try done.
    by apply exit_window_CloseHandle.
  - destruct ch; try done. simplify_eq.
    apply (exit_inv_goto _ _ co); try done.
    revert He. apply exit_open_frame; try done.
    intros o. simpl. destruct (decide (this = o)) as [<-|?].
    + rewrite list_lookup_alter_eq. by destruct (objs s !! this).
    + by rewrite list_lookup_alter_ne.
  - destruct ch; try done. simplify_eq.
    apply (exit_inv_goto _ _ co); try done.
    destruct He as (tw' & Htw' & He).
    assert (tw' = tw) as -> by congruence.
    destruct He as [He|(e & ev & Hh & Hev & Ho & Hx)].
    { by apply exit_only_CloseHandle. }
    unfold Win32.CloseHandle, Win32.event_of. rewrite Hh.
    by apply (exit_only_release e ev s).
  - destruct ch; try done. simplify_eq.
    by apply (exit_inv_returns _ _ co).
Qed.

Lemma exit_coord_step c ch s s' :
  fault s = None → length (coords s) = 1 → exit_inv s →
  coord_step c ch s = Some s' → exit_inv s'.
Proof.
  intros Hf Hl (co & Hco & He) H. unfold coord_step in H.
  destruct (coords s !! c) as [co'|] eqn:Hco'; simpl in H; [|done].
  assert (c = 0) as ->.
  { apply lookup_lt_Some in Hco'. lia. }
  assert (co' = co) as -> by congruence.
  destruct (c_pc co) as [|o pc|o pc] eqn:Hpc.
  - destruct (head (c_script co)) as [call|]; simpl in H; [|done].
    assert (coords (with_coords (alter pop_call 0) s) !! 0
            = Some (pop_call co)) as Hco0.
    { simpl. by rewrite list_lookup_alter_eq, Hco. }
    assert (∀ o pc', c_pc (pop_call co) ≠ InExitThread o pc') as Hq.
    { intros o pc'. simpl. by rewrite Hpc. }
    simpl in He.
    destruct call.
    + by apply (exit_CreateThread _ _ _ _ _ (pop_call co)) in H.
    + destruct ch; try done. simplify_eq. unfold StartAllThreads.
      exists (pop_call co). split; [done|]. simpl. rewrite Hpc.
      by apply (exit_only_SetEvent None (m_hStartAllThreads s) s).
    + destruct ch; try done. unfold NewThreadMsg in H.
      destruct (_ && _); simplify_eq.
      exists (set_threadMsg h (pop_call co)). simpl.
      rewrite !list_lookup_alter_eq, Hco. split; [done|]. simpl.
      by rewrite Hpc.
    + destruct ch; try done. unfold PostThreadMessage in H. simpl in H.
      destruct (objs s !! o) as [tw|]; simpl in H; [|done]. simplify_eq.
      by apply (exit_inv_quiet_returns _ _ (pop_call co)).
    + destruct ch; try done. simplify_eq.
      exists (pop_call co). split; [done|]. simpl. by rewrite Hpc.
    + by apply (exit_ExitThread _ _ _ _ _ (pop_call co)) in H.
  - apply (exit_CreateThread _ _ _ _ _ co) in H; try done.
    intros o' pc'. by rewrite Hpc.
  - by apply (exit_ExitThread _ _ _ _ _ co) in H.
Qed.

Lemma exit_RunProcess t ch s s' :
  exit_inv s → RunProcess t ch s = Some s' → exit_inv s'.
Proof.
  intros (co & Hco & He) H.
  destruct (RunProcess_shape _ _ _ _ H) as [_ Hev].
  apply RunProcess_frame in H as (Eo & Ec & Eh & _).
  exists co. rewrite Ec. split; [done|]. revert He.
  apply exit_window_kept; try done. intros o. by rewrite Eo.
Qed.

Lemma reachable_exit_inv hS ws p s :
  hS ≠ NULL → hS ≠ INVALID_HANDLE_VALUE →
  reachable hS ws [p] s → exit_inv s.
Proof.
  intros H1 H2. apply reachable_ind.
  - eexists. split; [done|]. simpl.
    intros [|e'] ev' He' Hn; simplify_eq/=.
  - intros s0 l s1 Hr I Hs.
    destruct (reachable_handshake_inv _ _ _ _ H1 H2 Hr) as (Hl & _).
    unfold step in Hs. destruct (fault s0) eqn:Hf; [done|].
    destruct l as [[c|t] ch].
    + by eapply exit_coord_step.
    + by eapply exit_RunProcess.
Qed.

(** ** The call of [CreateThread] behind its wait *)

Lemma CT_Return_returns c this co tw s :
  fault s = None → coords s !! c = Some co →
  c_pc co = InCreateThread this CT_Return →
  objs s !! this = Some tw → m_hThread tw ≠ NULL →
  returns_TRUE c this co 1 s.
Proof.
  intros Hf Hco Hpc Htw Hh. unfold returns_TRUE. cbn [go replicate run].
  unfold step, coord_step, CreateThread.
  rewrite Hf, Hco. simpl. rewrite Hpc, Htw. simpl.
  rewrite bool_decide_eq_true_2 by done.
  eexists. split; [done|]. unfold returns, running. simpl. rewrite Hf.
  split; [done|]. by rewrite list_lookup_alter_eq, Hco.
Qed.

Lemma returns_TRUE_step c this co co1 n s s1 :
  step (Coordinator c, Go) s = Some s1 →
  give_back (RetCreateThread this TRUE) co1
  = give_back (RetCreateThread this TRUE) co →
  returns_TRUE c this co1 n s1 → returns_TRUE c this co (S n) s.
Proof.
  intros Hs E (s' & Hrun & Hf & Hco). exists s'.
  cbn [go replicate run] in *. rewrite Hs. by rewrite <- E.
Qed.

Lemma CT_Invalidate_returns c this co tw s :
  fault s = None → coords s !! c = Some co →
  c_pc co = InCreateThread this CT_Invalidate →
  objs s !! this = Some tw → m_hThread tw ≠ NULL →
  returns_TRUE c this co 2 s.
Proof.
  intros Hf Hco Hpc Htw Hh.
  eapply (returns_TRUE_step _ _ _
            (set_c_pc (InCreateThread this CT_Return) co)).
  - unfold step, coord_step, CreateThread.
    rewrite Hf, Hco. simpl. rewrite Hpc, Htw. simpl. done.
  - done.
  - apply (CT_Return_returns _ _ _
             (set_hThreadStarted INVALID_HANDLE_VALUE tw)); try done.
    + unfold goto, running. simpl. rewrite Hf. simpl.
      by rewrite list_lookup_alter_eq, Hco.
    + unfold goto. simpl. by rewrite list_lookup_alter_eq, Htw.
Qed.

Lemma CT_Close_returns c this co tw s :
  fault s = None → coords s !! c = Some co →
  c_pc co = InCreateThread this CT_Close →
  objs s !! this = Some tw → m_hThread tw ≠ NULL →
  returns_TRUE c this co 3 s.
Proof.
  intros Hf Hco Hpc Htw Hh.
  eapply (returns_TRUE_step _ _ _
            (set_c_pc (InCreateThread this CT_Invalidate) co)).
  - unfold step, coord_step, CreateThread.
    rewrite Hf, Hco. simpl. rewrite Hpc, Htw. simpl. done.
  - done.
  - apply (CT_Invalidate_returns _ _ _ tw); try done.
    unfold goto, running. simpl. rewrite Hf. simpl.
    by rewrite list_lookup_alter_eq, Hco.
Qed.

Lemma CT_Wait_returns c this co tw s :
  fault s = None → coords s !! c = Some co →
  c_pc co = InCreateThread this CT_Wait →
  objs s !! this = Some tw → m_hThread tw ≠ NULL →
  Win32.probe (m_hThreadStarted tw) s = Win32.WAIT_OBJECT_0 →
  returns_TRUE c this co 4 s.
Proof.
  intros Hf Hco Hpc Htw Hh Hp.
  eapply (returns_TRUE_step _ _ _
            (set_c_pc (InCreateThread this CT_Close) co)).
  - unfold step, coord_step, CreateThread, WaitForSingleObject.
    rewrite Hf, Hco. simpl. rewrite Hpc, Htw. simpl. rewrite Hp. done.
  - done.
  - apply (CT_Close_returns _ _ _ tw); try done.
    unfold goto, ASSERT_TRUE, running. simpl. rewrite Hf. simpl.
    by rewrite list_lookup_alter_eq, Hco.
Qed.

(** ** Posts and what the work loop gets *)

Lemma ended_kept_refl s : ended_kept s s.
Proof. intros t th ? ?. by exists th. Qed.

Lemma ended_kept_trans s1 s2 s3 :
  ended_kept s1 s2 → ended_kept s2 s3 → ended_kept s1 s3.
Proof.
  intros H12 H23 t th Hth Ha.
  destruct (H12 t th Hth Ha) as (th2 & Hth2 & Ha2 & E2).
  destruct (H23 t th2 Hth2 Ha2) as (th3 & Hth3 & Ha3 & E3).
  exists th3. split_and!; [done..|]. congruence.
Qed.

Lemma ended_kept_frame s s' : threads s' = threads s → ended_kept s s'.
Proof. intros E t th ? ?. exists th. by rewrite E. Qed.

Lemma ended_kept_alter f t0 s s' :
  threads s' = alter f t0 (threads s) →
  (∀ th, th_alive th = false →
         th_alive (f th) = false ∧ th_got (f th) = th_got th) →
  ended_kept s s'.
Proof.
  intros E Hf t th Hth Ha. rewrite E.
  destruct (decide (t0 = t)) as [->|Hne].
  - rewrite list_lookup_alter_eq, Hth. exists (f th).
    destruct (Hf th Ha). done.
  - rewrite list_lookup_alter_ne by done. by exists th.
Qed.

Lemma ended_kept_app new s s' :
  threads s' = threads s ++ [new] → ended_kept s s'.
Proof.
  intros E t th Hth Ha. exists th. rewrite E.
  split; [|done]. by apply lookup_app_l_Some.
Qed.

Lemma ended_kept_goto c pc s1 s : ended_kept s s1 → ended_kept s (goto c pc s1).
Proof. done. Qed.

Lemma ended_kept_PostThreadMessage tid m s :
  ended_kept s (Win32.PostThreadMessage tid m s).2.
Proof.
  simpl. destruct (Win32.receiver tid s) as [t|] eqn:E;
    [|by apply ended_kept_frame].
  apply (ended_kept_alter (Win32.enqueue m) t); [done|]. by intros th ?.
Qed.

Lemma ended_kept_TerminateThread h s :
  ended_kept s (Win32.TerminateThread h s).
Proof.
  unfold Win32.TerminateThread.
  destruct (Win32.thread_of h s) as [t|]; [|by apply ended_kept_frame].
  by apply (ended_kept_alter Win32.kill t).
Qed.

Lemma ended_kept_CreateThread c this pc ch s s' :
  CreateThread c this pc ch s = Some s' → ended_kept s s'.
Proof.
  unfold CreateThread. intros H.
  destruct (objs s !! this) as [tw|]; simpl in H; [|done].
  destruct pc.
  - destruct ch; try done.
    destruct (negb _); simplify_eq; by apply ended_kept_frame.
  - destruct (Win32.CreateEvent _ ch s) as [[h s1]|] eqn:E; simpl in H; [|done].
    apply CreateEvent_frame in E as (_ & _ & Et & _). simplify_eq.
    by apply ended_kept_frame.
  - destruct (Win32.CreateThread _ _ ch s) as [[[h tid] s1]|] eqn:E;
      simpl in H; [|done].
    simplify_eq.
    apply CreateThread_Some in E as [(-> & -> & -> & ->)|
      (-> & ? & ? & Hh & -> & ->)].
    + by apply ended_kept_frame.
    + by eapply ended_kept_app.
  - destruct (WaitForSingleObject _ ch s); simpl in H; [|done].
    simplify_eq. by apply ended_kept_frame.
  - destruct ch; try done. simplify_eq. by apply ended_kept_frame.
  - destruct ch; try done. simplify_eq. by apply ended_kept_frame.
  - destruct ch; try done. simplify_eq. by apply ended_kept_frame.
Qed.

Lemma ended_kept_ExitThread c this pc ch s s' :
  ExitThread c this pc ch s = Some s' → ended_kept s s'.
Proof.
  unfold ExitThread, PostThreadMessage. intros H.
  destruct (objs s !! this) as [tw|]; simpl in H; [|done].
  destruct pc.
  - destruct ch; try done.
    case_bool_decide; simplify_eq; by apply ended_kept_frame.
  - destruct (Win32.CreateEvent _ ch s) as [[h s1]|] eqn:E; simpl in H; [|done].
    apply CreateEvent_frame in E as (_ & _ & Et & _). simplify_eq.
    by apply ended_kept_frame.
  - destruct ch; try done. simplify_eq.
    apply (ended_kept_PostThreadMessage (m_threadId tw)
             (mkMSG WM_EXIT_THREAD NULL) s).
  - destruct (WaitForSingleObject _ ch s) as [err|]; simpl in H; [|done].
    destruct (is_WAIT_TIMEOUT err); simplify_eq; by apply ended_kept_frame.
  - destruct ch; try done. simplify_eq.
    apply (ended_kept_TerminateThread (m_hThread tw) s).
  - destruct ch; try done. simplify_eq. by apply ended_kept_frame.
  - destruct ch; try done. simplify_eq. by apply ended_kept_frame.
  - destruct ch; try done. simplify_eq. by apply ended_kept_frame.
  - destruct ch; try done. simplify_eq. by apply ended_kept_frame.
Qed.

Lemma ended_kept_RunProcess t ch s s' :
  RunProcess t ch s = Some s' → ended_kept s s'.
Proof.
  intros H t0 th0 Hth0 Ha0.
  destruct (RunProcess_shape _ _ _ _ H) as [(f & E & _) _].
  exists th0. split; [|done]. rewrite E.
  destruct (decide (t = t0)) as [->|Hne]; [|by rewrite list_lookup_alter_ne].
  unfold RunProcess in H. rewrite Hth0 in H. simpl in H.
  by rewrite Ha0 in H.
Qed.

Lemma ended_kept_step l s s' : step l s = Some s' → ended_kept s s'.
Proof.
  unfold step. destruct (fault s); [done|]. destruct l as [[c|t] ch];
    [|apply ended_kept_RunProcess].
  unfold coord_step, PostThreadMessage, NewThreadMsg, StartAllThreads.
  intros H.
  destruct (coords s !! c) as [co|]; simpl in H; [|done].
  destruct (c_pc co).
  - destruct (head (c_script co)) as [call|]; simpl in H; [|done].
    destruct call.
    + by apply ended_kept_CreateThread in H.
    + destruct ch; try done. simplify_eq. by apply ended_kept_frame.
    + destruct ch; try done. destruct (_ && _); simplify_eq.
      by apply ended_kept_frame.
    + destruct ch; try done.
      destruct (objs s !! o) as [tw|]; simplify_eq/=.
      apply (ended_kept_PostThreadMessage (m_threadId tw) _ s).
    + destruct ch; try done. simplify_eq. by apply ended_kept_frame.
    + by apply ended_kept_ExitThread in H.
  - by apply ended_kept_CreateThread in H.
  - by apply ended_kept_ExitThread in H.
Qed.

Lemma ended_kept_run tr s s' : run tr s = Some s' → ended_kept s s'.
Proof.
  revert s. induction tr as [|l tr IH]; intros s H; simpl in H.
  - simplify_eq. apply ended_kept_refl.
  - destruct (step l s) as [s1|] eqn:E; [|done].
    eapply ended_kept_trans; [by eapply ended_kept_step|by apply IH].
Qed.

Lemma post_enqueues_any s : post_enqueues s.
Proof.
  intros c co o tw msg d rest Hf Hco Hpc Hscr Htw.
  unfold step, coord_step, PostThreadMessage, Win32.PostThreadMessage.
  rewrite Hf, Hco. simpl. rewrite Hpc, Hscr. simpl. rewrite Htw. simpl.
  set (m := mkMSG msg (data_of co d)).
  change (Win32.receiver (m_threadId tw) (with_coords (alter pop_call c) s))
    with (Win32.receiver (m_threadId tw) s).
  assert (∀ ok, give_back (RetPostThreadMessage o m ok) (pop_call co)
                = mkCoord PC_Idle rest (c_threadMsg co)
                    (c_rets co ++ [RetPostThreadMessage o m ok])) as Hret.
  { intros ok. unfold give_back, pop_call. simpl. by rewrite Hscr. }
  unfold returns, running. simpl. rewrite Hf. simpl.
  destruct (Win32.receiver (m_threadId tw) s) as [t|] eqn:E.
  - rewrite bool_decide_eq_true_2 by done.
    apply receiver_Some in E as (Hid & th & Hth & Ha & [q Hq]).
    eexists _, true. split; [done|]. simpl.
    rewrite list_alter_alter, list_lookup_alter_eq, Hco. simpl.
    split; [by rewrite <- Hret|]. split; [done|].
    exists t, th, q. split_and!; try done.
    + rewrite list_lookup_alter_eq, Hth. simpl.
      unfold Win32.enqueue. by rewrite Ha, Hq.
    + intros t' Hne. by rewrite list_lookup_alter_ne.
  - rewrite bool_decide_eq_false_2 by (by intros [? ?]).
    eexists _, false. split; [done|]. simpl.
    rewrite list_alter_alter, list_lookup_alter_eq, Hco. simpl.
    split; [by rewrite <- Hret|]. done.
Qed.

Lemma work_item_received_any s : work_item_received s.
Proof.
  intros t th tw p q text Hf Hth Ha Hpc Htw Hq Hp Hheap.
  unfold step, RunProcess, Process, GetMessage.
  rewrite Hf, Hth. simpl. rewrite Ha, Htw. simpl. rewrite Hpc. simpl.
  rewrite Hq. simpl. rewrite bool_decide_eq_true_2 by done.
  rewrite Hheap. eexists. split; [done|]. simpl.
  rewrite list_lookup_alter_eq, Hth. simpl.
  unfold dequeue. by rewrite Ha, Hpc, Hq.
Qed.

(** ** The thread handle and the thread identifier *)

Lemma hThread_ok_handles s s' tw :
  (∀ t, handles s !! m_hThread tw = Some (KThread t) →
        handles s' !! m_hThread tw = Some (KThread t)) →
  hThread_ok s tw → hThread_ok s' tw.
Proof.
  intros H [?|[?|(t & Ht & Hid)]]; [by left|by right; left|].
  right. right. exists t. auto.
Qed.

Lemma hThread_ok_members s tw tw' :
  m_hThread tw' = m_hThread tw → m_threadId tw' = m_threadId tw →
  hThread_ok s tw → hThread_ok s tw'.
Proof.
  intros E1 E2 [H|[H|(t & Ht & Hid)]].
  - left. congruence.
  - right. left. congruence.
  - right. right. exists t. split; congruence.
Qed.

Lemma hThread_ok_insert h k s s' tw :
  handles s' = <[h := k]> (handles s) → handles s !! h = None →
  hThread_ok s tw → hThread_ok s' tw.
Proof.
  intros E Hh. apply hThread_ok_handles. intros t Ht. rewrite E.
  rewrite lookup_insert_ne; [done|]. intros ->. congruence.
Qed.

Lemma hThread_ok_delete h s s' tw :
  handles s' = delete h (handles s) → not_thread h s →
  hThread_ok s tw → hThread_ok s' tw.
Proof.
  intros E Hh. apply hThread_ok_handles. intros t Ht. rewrite E.
  rewrite lookup_delete_ne; [done|]. intros ->. by destruct (Hh t).
Qed.

Lemma not_thread_frame h s s' :
  handles s' = handles s → not_thread h s → not_thread h s'.
Proof. unfold not_thread. by intros ->. Qed.

Lemma not_thread_delete h h0 s s' :
  handles s' = delete h0 (handles s) → not_thread h s → not_thread h s'.
Proof.
  intros E H t. rewrite E. destruct (decide (h0 = h)) as [->|Hne].
  - by rewrite lookup_delete_eq.
  - rewrite lookup_delete_ne by done. apply H.
Qed.

Lemma CloseHandle_handles h s :
  handles (Win32.CloseHandle h s) = delete h (handles s).
Proof. done. Qed.

Lemma hThread_at_plain pc s :
  plain pc = true → all_ok s → hThread_at pc s.
Proof.
  intros Hp H. destruct pc as [|o pc|o pc]; try done. by destruct pc.
Qed.

Lemma all_ok_frame s s' :
  handles s' = handles s → objs s' = objs s → all_ok s → all_ok s'.
Proof.
  intros Eh Eo I o tw Htw. rewrite Eo in Htw.
  apply (hThread_ok_handles s); [by rewrite Eh|]. by apply (I o).
Qed.

(** An assignment to a member of [this] that is not one of the two. *)
Lemma all_ok_assign this f s s' :
  handles s' = handles s → objs s' = alter f this (objs s) →
  (∀ tw, m_hThread (f tw) = m_hThread tw
         ∧ m_threadId (f tw) = m_threadId tw) →
  all_ok s → all_ok s'.
Proof.
  intros Eh Eo Hf I o tw' Htw'. rewrite Eo in Htw'.
  apply list_alter_Some_inv in Htw' as (tw & Htw & [->|[_ ->]]).
  - apply (hThread_ok_handles s); [by rewrite Eh|]. by apply (I o).
  - destruct (Hf tw) as [E1 E2].
    apply (hThread_ok_members _ tw); [done..|].
    apply (hThread_ok_handles s); [by rewrite Eh|]. by apply (I o).
Qed.

Lemma all_ok_insert h k s s' :
  handles s' = <[h := k]> (handles s) → handles s !! h = None →
  objs s' = objs s → all_ok s → all_ok s'.
Proof.
  intros Eh Hh Eo I o tw Htw. rewrite Eo in Htw.
  by apply (hThread_ok_insert h k s); [..|apply (I o)].
Qed.

Lemma all_ok_delete h s s' :
  handles s' = delete h (handles s) → not_thread h s →
  objs s' = objs s → all_ok s → all_ok s'.
Proof.
  intros Eh Hh Eo I o tw Htw. rewrite Eo in Htw.
  by apply (hThread_ok_delete h s); [..|apply (I o)].
Qed.

Lemma hThread_inv_goto pc s co :
  fault s = None → coords s !! 0 = Some co →
  hThread_at pc s → hThread_inv (goto 0 pc s).
Proof.
  intros Hf Hco H. unfold goto, running. rewrite Hf.
  exists (set_c_pc pc co). simpl. by rewrite list_lookup_alter_eq, Hco.
Qed.

Lemma hThread_inv_returns r s co :
  fault s = None → coords s !! 0 = Some co →
  all_ok s → hThread_inv (returns 0 r s).
Proof.
  intros Hf Hco H. unfold returns, running. rewrite Hf.
  exists (give_back r co). simpl. by rewrite list_lookup_alter_eq, Hco.
Qed.

(** Outside lines 313-322 of [ExitThread], with or without a failed
    assertion. *)
Lemma hThread_inv_plain_goto pc s co :
  coords s !! 0 = Some co → plain pc = true → plain (c_pc co) = true →
  all_ok s → hThread_inv (goto 0 pc s).
Proof.
  intros Hco Hpc Hpc0 H. unfold goto. destruct (running s).
  - exists (set_c_pc pc co). simpl. rewrite list_lookup_alter_eq, Hco.
    split; [done|]. by apply hThread_at_plain.
  - exists co. split; [done|]. by apply hThread_at_plain.
Qed.

Lemma hThread_inv_plain_returns r s co :
  coords s !! 0 = Some co → plain (c_pc co) = true →
  all_ok s → hThread_inv (returns 0 r s).
Proof.
  intros Hco Hpc0 H. unfold returns. destruct (running s).
  - exists (give_back r co). simpl. by rewrite list_lookup_alter_eq, Hco.
  - exists co. split; [done|]. by apply hThread_at_plain.
Qed.

Lemma started_not_thread clear o s tw :
  handshake_base s → started_ok clear o s → objs s !! o = Some tw →
  not_thread (m_hThreadStarted tw) s.
Proof.
  intros (Hnull & _) (tw' & Htw' & H) Htw t.
  assert (tw' = tw) as -> by congruence.
  destruct H as [[-> _]|(e & ev & -> & _)]; [by rewrite Hnull|done].
Qed.

Lemma hThread_CreateThread this pc ch s s' co :
  coords s !! 0 = Some co → plain (c_pc co) = true →
  handshake_base s →
  (pc = CT_Close → handshake_at (InCreateThread this CT_Close) s) →
  all_ok s →
  CreateThread 0 this pc ch s = Some s' → hThread_inv s'.
Proof.
  intros Hco Hp Hb Hat I H. unfold CreateThread in H.
  destruct (objs s !! this) as [tw|] eqn:Htw; simpl in H; [|done].
  destruct pc.
  - destruct ch; try done. destruct (negb _); simplify_eq.
    + by apply (hThread_inv_plain_goto _ _ co).
    + by apply (hThread_inv_plain_returns _ _ co).
  - destruct (Win32.CreateEvent _ ch s) as [[h s1]|] eqn:E; simpl in H; [|done].
    simplify_eq.
    pose proof (CreateEvent_frame _ _ _ _ _ E) as (Eo & _ & _ & Ec & _).
    apply (hThread_inv_plain_goto _ _ co); try done; [by simpl; rewrite Ec|].
    apply (all_ok_assign this (set_hThreadStarted h) s1); try done.
    apply CreateEvent_Some in E as [(-> & -> & ->)|(-> & ? & ? & Hh &
      [(e & ev & Hev & Hn & Ho & _ & ->)|(_ & ->)])]; [done| |].
    + by apply (all_ok_insert h (KEvent e) s).
    + by apply (all_ok_insert h (KEvent (length (events s))) s).
  - destruct (Win32.CreateThread _ _ ch s) as [[[h tid] s1]|] eqn:E;
      simpl in H; [|done].
    simplify_eq.
    apply CreateThread_Some in E as [(-> & -> & -> & ->)|
      (-> & ? & ? & Hh & -> & ->)].
    + apply (hThread_inv_plain_goto _ _ co); try done.
      intros o tw' Htw'. simpl in Htw'.
      rewrite list_alter_alter in Htw'.
      apply list_alter_Some_inv in Htw' as (tw0 & Htw0 & [->|[_ ->]]).
      * by apply (I o).
      * right. by left.
    + apply (hThread_inv_plain_goto _ _ co); try done.
      intros o tw' Htw'. simpl in Htw'.
      rewrite list_alter_alter in Htw'.
      apply list_alter_Some_inv in Htw' as (tw0 & Htw0 & [->|[_ ->]]).
      * apply (hThread_ok_insert h (KThread (length (threads s))) s);
          [done|done|]. by apply (I o).
      * right. right. exists (length (threads s)). simpl.
        by rewrite lookup_insert_eq.
  - destruct (WaitForSingleObject _ ch s); simpl in H; [|done].
    simplify_eq. by apply (hThread_inv_plain_goto _ _ co).
  - destruct ch; try done. simplify_eq.
    apply (hThread_inv_plain_goto _ _ co); try done.
    destruct (Hat eq_refl) as [_ Hst].
    apply (all_ok_delete (m_hThreadStarted tw) s); try done.
    by apply (started_not_thread False this).
  - destruct ch; try done. simplify_eq.
    apply (hThread_inv_plain_goto _ _ co); try done.
    by apply (all_ok_assign this (set_hThreadStarted INVALID_HANDLE_VALUE) s).
  - destruct ch; try done. simplify_eq.
    by apply (hThread_inv_plain_returns _ _ co).
Qed.

Lemma hThread_ExitThread ws this pc ch s s' co :
  fault s = None → coords s !! 0 = Some co →
  handshake_base s → binding_inv ws s →
  hThread_at (InExitThread this pc) s →
  ExitThread 0 this pc ch s = Some s' → hThread_inv s'.
Proof.
  intros Hf Hco Hb BI Hat H. unfold ExitThread, PostThreadMessage in H.
  destruct (objs s !! this) as [tw|] eqn:Htw; simpl in H; [|done].
  destruct Hb as (Hnull & Hinval & _).
  destruct pc; simpl in Hat.
  - destruct ch; try done. case_bool_decide; simplify_eq.
    + by apply (hThread_inv_goto _ _ co).
    + by apply (hThread_inv_returns _ _ co).
  - destruct (Win32.CreateEvent _ ch s) as [[h s1]|] eqn:E; simpl in H; [|done].
    simplify_eq.
    pose proof (CreateEvent_frame _ _ _ _ _ E) as (Eo & Ef & _ & Ec & _).
    apply (hThread_inv_goto _ _ co);
      [by simpl; rewrite Ef|by simpl; rewrite Ec|].
    assert (all_ok s1 ∧ not_thread h s1) as [I1 Hh1].
    { apply CreateEvent_Some in E as [(-> & -> & ->)|(-> & ? & ? & Hh &
        [(e & ev & Hev & Hn & Ho & _ & ->)|(_ & ->)])].
      - split; [done|]. intros t. by rewrite Hnull.
      - split; [by apply (all_ok_insert h (KEvent e) s)|].
        intros t. simpl. by rewrite lookup_insert_eq.
      - split; [by apply (all_ok_insert h (KEvent (length (events s))) s)|].
        intros t. simpl. by rewrite lookup_insert_eq. }
    split.
    + by apply (all_ok_assign this (set_hThreadExited h) s1).
    + intros tw' Htw'. simpl in Htw'. rewrite Eo in Htw'.
      rewrite list_lookup_alter_eq, Htw in Htw'. by simplify_eq/=.
  - destruct ch; try done. simplify_eq. by apply (hThread_inv_goto _ _ co).
  - destruct (WaitForSingleObject _ ch s) as [err|]; simpl in H; [|done].
    destruct (is_WAIT_TIMEOUT err); simplify_eq;
      by apply (hThread_inv_goto _ _ co).
  - destruct ch; try done. simplify_eq. by apply (hThread_inv_goto _ _ co).
  - destruct ch; try done. simplify_eq.
    destruct Hat as [I Hx].
    apply (hThread_inv_goto _ _ co); try done.
    split.
    + intros o' tw' Htw' Hne. simpl in Htw'.
      apply (hThread_ok_handles s); [|by apply (I o')].
      intros t' Ht'. simpl. rewrite lookup_delete_ne; [done|]. intros E.
      (* the two instances would hold the handle of one thread *)
      destruct (I this tw Htw) as [E1|[E1|(t & Ht & Hid)]];
        [rewrite <- E, E1, Hinval in Ht'; done
        |rewrite <- E, E1, Hnull in Ht'; done|].
      destruct (I o' tw' Htw') as [E1|[E1|(t0 & Ht0 & Hid')]];
        [rewrite E1, Hinval in Ht'; done
        |rewrite E1, Hnull in Ht'; done|].
      assert (t0 = t) as -> by congruence.
      destruct (bi_id _ _ BI this tw t Htw Hid) as (th & Hth & Hthis).
      destruct (bi_id _ _ BI o' tw' t Htw' Hid') as (th' & Hth' & Hthis').
      congruence.
    + intros tw' Htw'. simpl in Htw'. assert (tw' = tw) as -> by congruence.
      split; [simpl; by rewrite lookup_delete_eq|].
      apply (not_thread_delete _ (m_hThread tw) s); [done|]. by apply Hx.
  - destruct ch; try done. simplify_eq.
    destruct Hat as [I Hx]. destruct (Hx tw Htw) as [_ Hexit].
    apply (hThread_inv_goto _ _ co); try done.
    split.
    + intros o tw' Htw'. simpl in Htw'.
      destruct (decide (o = this)) as [->|Hne].
      * rewrite list_lookup_alter_eq, Htw in Htw'. simplify_eq/=. by left.
      * rewrite list_lookup_alter_ne in Htw' by done. by apply (I o).
    + intros tw' Htw'. simpl in Htw'.
      rewrite list_lookup_alter_eq, Htw in Htw'. by simplify_eq/=.
  - destruct ch; try done. simplify_eq.
    destruct Hat as [I Hx].
    apply (hThread_inv_goto _ _ co); try done.
    apply (all_ok_delete (m_hThreadExited tw) s); try done. by apply Hx.
  - destruct ch; try done. simplify_eq.
    apply (hThread_inv_returns _ _ co); try done.
    by apply (all_ok_assign this (set_hThreadExited INVALID_HANDLE_VALUE) s).
Qed.

Lemma hThread_coord_step ws c ch s s' :
  fault s = None → handshake_inv s → binding_inv ws s → hThread_inv s →
  coord_step c ch s = Some s' → hThread_inv s'.
Proof.
  intros Hf (Hl & Hb & co & Hco & Hat) BI (co0 & Hco0 & I) H.
  assert (co0 = co) as -> by congruence.
  unfold coord_step in H.
  destruct (coords s !! c) as [co'|] eqn:Hco'; simpl in H; [|done].
  assert (c = 0) as ->.
  { apply lookup_lt_Some in Hco'. lia. }
  assert (co' = co) as -> by congruence.
  destruct (c_pc co) as [|o pc|o pc] eqn:Hpc.
  - destruct (head (c_script co)) as [call|]; simpl in H; [|done].
    assert (coords (with_coords (alter pop_call 0) s) !! 0
            = Some (pop_call co)) as Hco1.
    { simpl. by rewrite list_lookup_alter_eq, Hco. }
    assert (plain (c_pc (pop_call co)) = true) as Hq.
    { simpl. by rewrite Hpc. }
    simpl in I.
    destruct call.
    + by apply (hThread_CreateThread _ _ _ _ _ (pop_call co)) in H.
    + destruct ch; try done. simplify_eq. unfold StartAllThreads.
      exists (pop_call co). split; [done|]. simpl. by rewrite Hpc.
    + destruct ch; try done. unfold NewThreadMsg in H.
      destruct (_ && _); simplify_eq.
      exists (set_threadMsg h (pop_call co)). simpl.
      rewrite !list_lookup_alter_eq, Hco. split; [done|]. simpl.
      by rewrite Hpc.
    + destruct ch; try done. unfold PostThreadMessage in H. simpl in H.
      destruct (objs s !! o) as [tw|]; simpl in H; [|done]. simplify_eq.
      by apply (hThread_inv_plain_returns _ _ (pop_call co)).
    + destruct ch; try done. simplify_eq.
      exists (pop_call co). split; [done|]. simpl. by rewrite Hpc.
    + apply (hThread_ExitThread ws _ _ _ _ _ (pop_call co)) in H; try done.
      by apply (binding_inv_frame ws s).
  - apply (hThread_CreateThread _ _ _ _ _ co) in H; try done.
    + by rewrite Hpc.
    + by intros ->.
  - by apply (hThread_ExitThread ws _ _ _ _ _ co) in H.
Qed.

Lemma hThread_RunProcess t ch s s' :
  hThread_inv s → RunProcess t ch s = Some s' → hThread_inv s'.
Proof.
  intros (co & Hco & I) H.
  apply RunProcess_frame in H as (Eo & Ec & Eh & _).
  exists co. rewrite Ec. split; [done|].
  unfold hThread_at, all_ok, hThread_ok, not_thread in *.
  rewrite Eo, Eh. done.
Qed.

Lemma reachable_hThread_inv hS ws p s :
  hS ≠ NULL → hS ≠ INVALID_HANDLE_VALUE →
  reachable hS ws [p] s → hThread_inv s.
Proof.
  intros H1 H2. apply reachable_ind.
  - eexists. split; [done|]. simpl. intros o tw Htw.
    apply list_lookup_fmap_Some in Htw as (w & -> & _). by left.
  - intros s0 l s1 Hr I Hs.
    pose proof (reachable_handshake_inv _ _ _ _ H1 H2 Hr) as Hh.
    pose proof (reachable_binding_inv _ _ _ _ Hr) as BI.
    unfold step in Hs. destruct (fault s0) eqn:Hf; [done|].
    destruct l as [[c|t] ch].
    + by eapply hThread_coord_step.
    + by eapply hThread_RunProcess.
Qed.

(** An instance that holds an open handle of a thread. *)
Lemma hThread_open hS ws p s o tw t :
  hS ≠ NULL → hS ≠ INVALID_HANDLE_VALUE →
  reachable hS ws [p] s → objs s !! o = Some tw →
  handles s !! m_hThread tw = Some (KThread t) →
  m_threadId tw = S t.
Proof.
  intros H1 H2 Hr Htw Ht.
  destruct (reachable_handshake_inv _ _ _ _ H1 H2 Hr)
    as (_ & (Hnull & Hinval & _) & _).
  destruct (reachable_hThread_inv _ _ _ _ H1 H2 Hr) as (co & Hco & I).
  assert (hThread_ok s tw) as [E|[E|(t' & Ht' & Hid)]].
  { destruct (c_pc co) as [|o' pc|o' pc]; simpl in I; try by apply (I o).
    destruct pc; try (by apply (I o)); try (by apply (proj1 I o)).
    destruct I as [I Hx]. destruct (decide (o = o')) as [->|Hne].
    - destruct (Hx tw Htw) as [Hclosed _]. congruence.
    - by apply (I o). }
  - by rewrite E, Hinval in Ht.
  - by rewrite E, Hnull in Ht.
  - congruence.
Qed.

(** * The claims *)

(** The run of [main] of the scenario: both threads are created and
    released, each prints the text posted to it under its own name, both
    are exited, and no assertion fails. *)
Example main_runs :
  ∃ s, run main_schedule (boot 4 workers [main]) = Some s
    ∧ fault s = None
    ∧ cout s = [("Hello world!", "WorkerThread1");
                ("Hello world!", "WorkerThread2")]
    ∧ (∀ t th, threads s !! t = Some th → th_pc th = RP_Exited)
    ∧ (c_rets <$> coords s)
      = [[RetCreateThread 0 TRUE; RetCreateThread 1 TRUE;
          RetPostThreadMessage 0 (mkMSG WM_THREAD_MSG 100) true;
          RetPostThreadMessage 1 (mkMSG WM_THREAD_MSG 104) true;
          RetExitThread 0; RetExitThread 1]].
Proof.
  eexists. split; [vm_compute; reflexivity|]. split_and!; try reflexivity.
  intros [|[|t]] th Hth; simpl in Hth; by simplify_eq.
Qed.

(** C1: the thread entry function signals the created event only after
    [PeekMessage] has made the queue, so that a post after a successful
    [CreateThread] never fails for want of a queue.  The code does not
    keep this when two coordinators create the threads of two instances
    at the same time: both calls of [CreateEvent] name the event
    ["ThreadCreatedEvent"], so the second coordinator waits on the event
    object of the first, and the thread of the first instance releases it.
    In the run below [CreateThread] on instance 1 returns [TRUE], the
    thread of instance 1 is alive and has not yet called [PeekMessage], and
    the post to it fails. *)
Theorem post_fails_after_create :
  ∃ s co tw th,
    run race_schedule (boot 4 workers two_creators) = Some s
    ∧ fault s = None
    ∧ coords s !! 1 = Some co
    ∧ c_rets co
      = [RetCreateThread 1 TRUE;
         RetPostThreadMessage 1 (mkMSG WM_THREAD_MSG 100) false]
    ∧ objs s !! 1 = Some tw
    ∧ Win32.thread_of_id (m_threadId tw) = Some 1
    ∧ threads s !! 1 = Some th
    ∧ th_this th = 1 ∧ th_alive th = true
    ∧ th_pc th = RP_PeekMessage ∧ th_queue th = None.
Proof.
  eexists _, _, _, _. split; [vm_compute; reflexivity|].
  split_and!; reflexivity.
Qed.



(** C3, as stated: a call of [CreateThread] whose wait for the new thread
    times out signals a fatal condition and returns failure.  In the run
    below the wait times out and the assertion of line 235 fails; the
    process stops there, nothing is returned to the caller, and the thread
    handle that line 240 would test is not null. *)
Lemma create_timeout_returns_nothing :
  ∃ s co tw,
    run timeout_schedule (boot 4 workers [[CallCreateThread 0]]) = Some s
    ∧ fault s = Some (AssertAt 235)
    ∧ (∀ l, step l s = None)
    ∧ coords s !! 0 = Some co ∧ c_rets co = []
    ∧ objs s !! 0 = Some tw ∧ m_hThread tw ≠ NULL.
Proof.
  eexists _, _, _. split; [vm_compute; reflexivity|].
  split; [reflexivity|]. split; [by intros [[c|t] ch]|].
  split; [reflexivity|]. split; [reflexivity|]. split; [reflexivity|].
  done.
Qed.

(** C3, amended: [CreateThread] on an instance that is not created makes
    the created-event, starts the thread and keeps its caller at the wait
    of line 234 until the event is signaled or the timeout runs out.  When
    the event is signaled the call goes on through lines 237 and 238 and
    returns [TRUE] at line 240.  When the wait times out or fails, and
    when no thread could be started, an assertion fails (lines 235 and
    231): the process stops and the caller gets no value.  Line 240 tests
    the thread handle and nothing else. *)
Theorem CreateThread_outcomes hS ws progs s c co this tw :
  reachable hS ws progs s → fault s = None →
  coords s !! c = Some co → objs s !! this = Some tw →
  (* line 223: the call is entered *)
  (∀ rest, c_pc co = PC_Idle → c_script co = CallCreateThread this :: rest →
     IsCreated tw = false →
     ∃ s', step (Coordinator c, Go) s = Some s' ∧ fault s' = None
           ∧ pc_of c s' = Some (InCreateThread this CT_CreateEvent))
  (* line 225: with or without an event, the call goes on *)
  ∧ (c_pc co = InCreateThread this CT_CreateEvent →
     (∃ s', step (Coordinator c, Fail) s = Some s')
     ∧ (∀ h, Win32.fresh_handle h s = true →
             ∃ s', step (Coordinator c, Fresh h) s = Some s')
     ∧ ∀ ch s', step (Coordinator c, ch) s = Some s' →
         fault s' = None
         ∧ pc_of c s' = Some (InCreateThread this CT_Spawn))
  (* lines 228-231: a thread is started, or the assertion fails *)
  ∧ (c_pc co = InCreateThread this CT_Spawn →
     (∀ h, Win32.fresh_handle h s = true →
        ∃ s', step (Coordinator c, Fresh h) s = Some s' ∧ fault s' = None
              ∧ pc_of c s' = Some (InCreateThread this CT_Wait)
              ∧ length (threads s') = S (length (threads s)))
     ∧ ∃ s', step (Coordinator c, Fail) s = Some s'
             ∧ fault s' = Some (AssertAt 231) ∧ coords s' = coords s)
  (* lines 234-235: the wait *)
  ∧ (c_pc co = InCreateThread this CT_Wait →
     match Win32.probe (m_hThreadStarted tw) s with
     | Win32.WAIT_OBJECT_0 =>
         step (Coordinator c, Timeout) s = None
         ∧ returns_TRUE c this co 4 s
     | Win32.WAIT_TIMEOUT =>
         step (Coordinator c, Go) s = None
         ∧ ∃ s', step (Coordinator c, Timeout) s = Some s'
                 ∧ fault s' = Some (AssertAt 235) ∧ coords s' = coords s
     | Win32.WAIT_FAILED =>
         ∃ s', step (Coordinator c, Go) s = Some s'
               ∧ fault s' = Some (AssertAt 235) ∧ coords s' = coords s
     end)
  (* lines 237-240: behind the wait the call returns TRUE *)
  ∧ (∀ pc n, c_pc co = InCreateThread this pc →
             steps_to_return pc = Some n → returns_TRUE c this co n s)
  (* line 240 in any state: the value is that of the test of m_hThread *)
  ∧ (∀ s0 co0 tw0,
       fault s0 = None → coords s0 !! c = Some co0 →
       c_pc co0 = InCreateThread this CT_Return →
       objs s0 !! this = Some tw0 →
       ∃ s', step (Coordinator c, Go) s0 = Some s'
         ∧ coords s' !! c
           = Some (give_back
                     (RetCreateThread this
                        (if bool_decide (m_hThread tw0 = NULL)
                         then FALSE else TRUE)) co0))
  (* the fault handler: nothing moves any more *)
  ∧ (∀ l s0, fault s0 ≠ None → step l s0 = None).
Proof.
  intros Hr Hf Hco Htw.
  assert (m_hThread tw ≠ NULL) as Hh
    by (by eapply (reachable_spawned_inv _ _ _ _ Hr)).
  split_and!.
  - intros rest Hpc Hscr Hinv. unfold step, coord_step.
    rewrite Hf, Hco. simpl. rewrite Hpc, Hscr. simpl.
    unfold CreateThread. simpl. rewrite Htw. simpl. rewrite Hinv. simpl.
    eexists. split; [done|]. unfold pc_of, goto, running. simpl.
    rewrite Hf. simpl. split; [done|].
    by rewrite list_alter_alter, list_lookup_alter_eq, Hco.
  - intros Hpc.
    assert (∀ ch s', step (Coordinator c, ch) s = Some s' →
              fault s' = None
              ∧ pc_of c s' = Some (InCreateThread this CT_Spawn)) as Hall.
    { intros ch s'. unfold step, coord_step.
      rewrite Hf, Hco. simpl. rewrite Hpc. unfold CreateThread.
      rewrite Htw. simpl.
      destruct (Win32.CreateEvent _ ch s) as [[h s1]|] eqn:E; simpl; [|done].
      intros [= <-].
      apply CreateEvent_frame in E as (_ & Ef & _ & Ec & _).
      unfold pc_of, goto, running. simpl. rewrite Ef, Hf. simpl.
      split; [done|]. by rewrite list_lookup_alter_eq, Ec, Hco. }
    split_and!; [| |done].
    + unfold step, coord_step. rewrite Hf, Hco. simpl. rewrite Hpc.
      unfold CreateThread. rewrite Htw. simpl. by eexists.
    + intros h Hfresh. unfold step, coord_step.
      rewrite Hf, Hco. simpl. rewrite Hpc.
      unfold CreateThread, Win32.CreateEvent. rewrite Htw. simpl.
      rewrite Hfresh. destruct (Win32.find_event _ _) as [[e ev]|];
        by eexists.
  - intros Hpc. split.
    + intros h Hfresh. unfold step, coord_step.
      rewrite Hf, Hco. simpl. rewrite Hpc.
      unfold CreateThread, Win32.CreateThread. rewrite Htw. simpl.
      rewrite Hfresh. simpl. eexists. split; [done|].
      assert (h ≠ NULL) as Hn.
      { unfold Win32.fresh_handle in Hfresh.
        apply andb_prop in Hfresh as [[H1 _]%andb_prop _].
        by apply bool_decide_eq_true in H1. }
      unfold pc_of, goto, ASSERT_TRUE, running. simpl.
      rewrite bool_decide_eq_true_2 by done. rewrite Hf. simpl.
      rewrite list_lookup_alter_eq, Hco. simpl.
      split_and!; [done..|]. rewrite length_app. simpl. lia.
    + unfold step, coord_step. rewrite Hf, Hco. simpl. rewrite Hpc.
      unfold CreateThread. rewrite Htw. simpl. eexists. split; [done|]. done.
  - intros Hpc.
    destruct (Win32.probe (m_hThreadStarted tw) s) eqn:Hp.
    + split; [|by apply (CT_Wait_returns _ _ _ tw)].
      unfold step, coord_step. rewrite Hf, Hco. simpl. rewrite Hpc.
      unfold CreateThread, WaitForSingleObject. rewrite Htw. simpl.
      by rewrite Hp.
    + unfold step, coord_step. rewrite Hf, Hco. simpl. rewrite Hpc.
      unfold CreateThread, WaitForSingleObject. rewrite Htw. simpl.
      rewrite Hp. simpl. split; [done|]. eexists. split; [done|]. done.
    + unfold step, coord_step. rewrite Hf, Hco. simpl. rewrite Hpc.
      unfold CreateThread, WaitForSingleObject. rewrite Htw. simpl.
      rewrite Hp. simpl. eexists. split; [done|]. done.
  - intros pc n Hpc Hn. destruct pc; simplify_eq/=.
    + by apply (CT_Close_returns _ _ _ tw).
    + by apply (CT_Invalidate_returns _ _ _ tw).
    + by apply (CT_Return_returns _ _ _ tw).
  - intros s0 co0 tw0 Hf0 Hco0 Hpc0 Htw0. unfold step, coord_step.
    rewrite Hf0, Hco0. simpl. rewrite Hpc0. unfold CreateThread.
    rewrite Htw0. simpl. eexists. split; [done|].
    unfold returns, running. simpl. rewrite Hf0. simpl.
    rewrite list_lookup_alter_eq, Hco0. simpl.
    by repeat case_bool_decide.
  - intros l s0 Hs0. unfold step. by destruct (fault s0).
Qed.

Lemma CreateThread_outcomes_witness :
  let s := state_after (take 3 main_schedule) [main] in
  reachable 4 workers [main] s
  ∧ pc_of 0 s = Some (InCreateThread 0 CT_Wait)
  ∧ step (Coordinator 0, Go) s = None
  ∧ ∃ s', step (Coordinator 0, Timeout) s = Some s'
          ∧ fault s' = Some (AssertAt 235) ∧ coords s' = coords s.
Proof.
  intros s.
  assert (reachable 4 workers [main] s) as Hr
    by (exists (take 3 main_schedule); vm_compute; reflexivity).
  assert (fault s = None) as Hf by reflexivity.
  eassert (coords s !! 0 = Some _) as Hco by reflexivity.
  eassert (objs s !! 0 = Some _) as Htw by reflexivity.
  split; [exact Hr|]. split; [reflexivity|].
  exact (proj1 (proj2 (proj2 (proj2
           (CreateThread_outcomes 4 workers [main] s 0 _ 0 _
              Hr Hf Hco Htw)))) eq_refl).
Defined.

(** C4: [ExitThread] is idempotent.  Under the assumption the design
    makes, that one coordinator makes all the lifecycle calls on the
    instance: once a call of [ExitThread] on the instance has returned,
    its thread handle and its exit event handle are
    [INVALID_HANDLE_VALUE]; and a call on an instance in that state
    returns at once and changes neither the handle table, nor an event,
    nor a thread, nor an instance, so nothing is closed a second time. *)
Theorem ExitThread_idempotent hS ws progs c o s co tw rest :
  o < length ws →
  (∀ c' p call, c' ≠ c → progs !! c' = Some p → call ∈ p →
                lifecycle_object call ≠ Some o) →
  reachable hS ws progs s → fault s = None →
  coords s !! c = Some co → c_pc co = PC_Idle → objs s !! o = Some tw →
  (last (c_rets co) = Some (RetExitThread o) →
   m_hThread tw = INVALID_HANDLE_VALUE
   ∧ m_hThreadExited tw = INVALID_HANDLE_VALUE)
  ∧ (m_hThread tw = INVALID_HANDLE_VALUE →
     c_script co = CallExitThread o :: rest →
     ∃ s', step (Coordinator c, Go) s = Some s'
       ∧ coords s' !! c
         = Some (mkCoord PC_Idle rest (c_threadMsg co)
                   (c_rets co ++ [RetExitThread o]))
       ∧ same_objects s s').
Proof.
  intros Ho Hprogs Hr Hf Hco Hpc Htw. split.
  - intros Hlast.
    pose proof (reachable_ownership_inv c o _ _ _ _ Ho Hprogs Hr c co Hco) as I.
    rewrite decide_True in I by done. destruct I as (tw' & ? & Hok).
    simplify_eq. unfold owner_ok in Hok. rewrite Hpc in Hok.
    destruct Hok as [? Hok]. auto.
  - intros Hinv Hscr. unfold step, coord_step. rewrite Hf, Hco.
    simpl. rewrite Hpc, Hscr. simpl. unfold ExitThread. simpl. rewrite Htw.
    simpl. rewrite bool_decide_eq_false_2 by (by intros []).
    eexists. split; [done|]. split; [|done].
    unfold returns, running. simpl. rewrite Hf. simpl.
    rewrite list_alter_alter, list_lookup_alter_eq, Hco. simpl.
    unfold give_back, pop_call. simpl. by rewrite Hscr.
Qed.

Lemma ExitThread_idempotent_witness :
  let s := state_after exit_once_schedule [exit_twice] in
  reachable 4 workers [exit_twice] s
  ∧ (c_script <$> coords s) = [[CallExitThread 0]]
  ∧ (c_rets <$> coords s)
    = [[RetCreateThread 0 TRUE; RetExitThread 0]]
  ∧ (m_hThread <$> objs s !! 0) = Some INVALID_HANDLE_VALUE
  ∧ (m_hThreadExited <$> objs s !! 0) = Some INVALID_HANDLE_VALUE
  ∧ ∃ s', step (Coordinator 0, Go) s = Some s'
      ∧ coords s' !! 0
        = Some (mkCoord PC_Idle [] NULL
                  [RetCreateThread 0 TRUE; RetExitThread 0; RetExitThread 0])
      ∧ same_objects s s'.
Proof.
  assert (0 < length workers) as Hlen by (simpl; lia).
  assert (∀ c' p call, c' ≠ 0 → [exit_twice] !! c' = Some p → call ∈ p →
                       lifecycle_object call ≠ Some 0) as Hown
    by (intros [|c'] p call Hc Hp; [by destruct Hc|];
        simpl in Hp; destruct c'; discriminate Hp).
  intros s.
  assert (reachable 4 workers [exit_twice] s) as Hr
    by (exists exit_once_schedule; vm_compute; reflexivity).
  assert (fault s = None) as Hf by reflexivity.
  eassert (coords s !! 0 = Some _) as Hco by reflexivity.
  eassert (objs s !! 0 = Some _) as Htw by reflexivity.
  destruct (ExitThread_idempotent 4 workers [exit_twice] 0 0 s _ _ []
              Hlen Hown Hr Hf Hco eq_refl Htw) as [H1 H2].
  split; [exact Hr|]. split; [reflexivity|]. split; [reflexivity|].
  split; [reflexivity|]. split; [reflexivity|].
  exact (H2 eq_refl eq_refl).
Defined.

(** C5: the shared start event is signaled once in effect.  A call of
    [StartAllThreads] never fails and leaves the event signaled; after a
    first call the event stays signaled in every later state, and a
    further call changes nothing but the count of calls. *)
Theorem StartAllThreads_idempotent hS ws progs s :
  hS ≠ NULL → hS ≠ INVALID_HANDLE_VALUE →
  reachable hS ws progs s →
  fault (StartAllThreads s) = fault s
  ∧ Win32.probe (m_hStartAllThreads s) (StartAllThreads s)
    = Win32.WAIT_OBJECT_0
  ∧ (releases s ≠ 0 →
     Win32.probe (m_hStartAllThreads s) s = Win32.WAIT_OBJECT_0
     ∧ StartAllThreads s = with_releases S s).
Proof.
  intros H1 H2 Hr. pose proof (reachable_start_inv _ _ _ _ H1 H2 Hr) as I.
  pose proof (start_inv_StartAllThreads _ I) as I'.
  pose proof (probe_start _ I') as Hp.
  rewrite (StartAllThreads_spec _ I) in *. simpl in *.
  split; [done|]. split; [done|]. intros Hrel.
  rewrite (probe_start _ I), bool_decide_eq_true_2 by done.
  split; [done|].
  destruct I as [Hv Hhs Ho (ev0 & Hev0 & Hn0 & Hsig) Hm Ht Hb].
  unfold with_events. simpl.
  rewrite (list_alter_same _ _ _ _ Hev0); [done|].
  destruct ev0 as [n sg op]. unfold Win32.signal. simpl in *.
  f_equal. symmetry. by apply Hsig.
Qed.

Lemma StartAllThreads_idempotent_witness :
  let s := state_after released_schedule [main] in
  reachable 4 workers [main] s
  ∧ releases s = 1
  ∧ Win32.probe (m_hStartAllThreads s) s = Win32.WAIT_OBJECT_0
  ∧ StartAllThreads s = with_releases S s.
Proof.
  intros s.
  assert (reachable 4 workers [main] s) as Hr
    by (exists released_schedule; vm_compute; reflexivity).
  assert (4%Z ≠ NULL) as H1 by done.
  assert (4%Z ≠ INVALID_HANDLE_VALUE) as H2 by done.
  assert (releases s ≠ 0) as H3 by (vm_compute; lia).
  destruct (StartAllThreads_idempotent 4 workers [main] s H1 H2 Hr)
    as (_ & _ & H).
  split; [exact Hr|]. split; [reflexivity|]. exact (H H3).
Defined.

(** C6: when the wait of [ExitThread] for the exit event times out, the
    thread is terminated by force and the teardown goes through to its
    end: both handles are closed, both members are
    [INVALID_HANDLE_VALUE], the call returns and no assertion has failed
    on the way.  The caller is never kept at the wait: whatever the state
    of the exit event, the wait has a way to end. *)
Theorem ExitThread_timeout_teardown s c co this tw :
  fault s = None → coords s !! c = Some co → objs s !! this = Some tw →
  c_pc co = InExitThread this ET_Wait →
  (∃ ch s1, step (Coordinator c, ch) s = Some s1)
  ∧ (Win32.probe (m_hThreadExited tw) s = Win32.WAIT_TIMEOUT →
     step (Coordinator c, Go) s = None
     ∧ ∃ s' tw',
         run (forced_teardown c) s = Some s'
         ∧ fault s' = None
         ∧ coords s' !! c = Some (give_back (RetExitThread this) co)
         ∧ objs s' !! this = Some tw'
         ∧ m_hThread tw' = INVALID_HANDLE_VALUE
         ∧ m_hThreadExited tw' = INVALID_HANDLE_VALUE
         ∧ handles s' !! m_hThread tw = None
         ∧ handles s' !! m_hThreadExited tw = None
         ∧ ∀ t th, Win32.thread_of (m_hThread tw) s = Some t →
                   threads s' !! t = Some th → th_alive th = false).
Proof.
  intros Hf Hco Htw Hpc. split.
  { unfold step, coord_step. rewrite Hf, Hco. simpl. rewrite Hpc.
    unfold ExitThread, WaitForSingleObject. rewrite Htw. simpl.
    destruct (Win32.probe _ s); [exists Go|exists Timeout|exists Go];
      simpl; eauto. }
  intros Hprobe. split.
  { unfold step, coord_step. rewrite Hf, Hco. simpl. rewrite Hpc.
    unfold ExitThread, WaitForSingleObject. rewrite Htw. simpl.
    by rewrite Hprobe. }
  unfold forced_teardown. simpl.
  (* the wait times out *)
  unfold step at 1. unfold coord_step. rewrite Hf, Hco. simpl. rewrite Hpc.
  unfold ExitThread at 1. unfold WaitForSingleObject. rewrite Htw. simpl.
  rewrite Hprobe. simpl.
  do 5 (unfold step at 1; unfold coord_step, goto, returns, running; simpl;
        rewrite ?Hf; simpl; rewrite !list_lookup_alter_eq, ?Hco; simpl;
        unfold ExitThread at 1; simpl;
        rewrite ?list_lookup_alter_eq, ?Htw; simpl).
  eexists _, _. split; [done|]. unfold returns, running. simpl.
  rewrite Hf. simpl. rewrite !list_lookup_alter_eq, Hco, Htw. simpl.
  split; [done|]. split; [done|]. split; [done|]. split; [done|].
  split; [done|]. split; [apply delete_delete_lookup|].
  split; [apply delete_delete_lookup|].
  intros t th Ht.
  change (Win32.thread_of (m_hThread tw) (with_coords _ s))
    with (Win32.thread_of (m_hThread tw) s).
  rewrite Ht, list_lookup_alter_eq.
  destruct (threads s !! t); simpl; [|done]. by intros [= <-].
Qed.

Lemma ExitThread_timeout_teardown_witness :
  let s := state_after exit_wait_schedule [exit_twice] in
  pc_of 0 s = Some (InExitThread 0 ET_Wait)
  ∧ step (Coordinator 0, Go) s = None
  ∧ ∃ s', run (forced_teardown 0) s = Some s'
      ∧ fault s' = None
      ∧ (c_rets <$> coords s')
        = [[RetCreateThread 0 TRUE; RetExitThread 0]]
      ∧ (m_hThread <$> objs s' !! 0) = Some INVALID_HANDLE_VALUE
      ∧ (m_hThreadExited <$> objs s' !! 0) = Some INVALID_HANDLE_VALUE
      ∧ handles s' !! 12%Z = None ∧ handles s' !! 16%Z = None
      ∧ (th_alive <$> threads s') = [false].
Proof.
  intros s.
  assert (fault s = None) as Hf by reflexivity.
  eassert (coords s !! 0 = Some _) as Hco by reflexivity.
  eassert (objs s !! 0 = Some _) as Htw by reflexivity.
  destruct (ExitThread_timeout_teardown s 0 _ 0 _ Hf Hco Htw eq_refl)
    as [_ H].
  destruct (H eq_refl) as (H1 & s' & tw' & Hrun & H2 & H3 & H4 & H5 & H6
                           & H7 & H8 & H9).
  split; [reflexivity|]. split; [exact H1|].
  exists s'. split; [exact Hrun|].
  assert (Some s' = run (forced_teardown 0) s) as Hs' by (by rewrite Hrun).
  vm_compute in Hs'. injection Hs' as ->.
  split_and!; reflexivity.
Defined.

(** C7: when the work loop returns, the thread signals a valid exit
    event as its last act, also when the loop returns before
    [ExitThread] has created that event.  The code does not do this: the
    event exists only between lines 311 and 322 of [ExitThread].  In the
    run below the work loop returns on a stop message that was posted
    without a call of [ExitThread]; [m_hThreadExited] is
    [INVALID_HANDLE_VALUE], no exit event exists, [SetEvent] fails and the
    assertion of line 290 stops the process. *)
Theorem exit_signal_not_created :
  ∃ s th tw,
    run early_stop_schedule (boot 4 workers [early_stop]) = Some s
    ∧ threads s !! 0 = Some th
    ∧ th_got th = [mkMSG WM_EXIT_THREAD NULL]
    ∧ th_pc th = RP_SetExited
    ∧ objs s !! 0 = Some tw
    ∧ m_hThreadExited tw = INVALID_HANDLE_VALUE
    ∧ Win32.event_behind (m_hThreadExited tw) s = None
    ∧ Forall (λ ev, ev_name ev ≠ "ThreadExitedEvent") (events s)
    ∧ fault s = Some (AssertAt 290).
Proof.
  eexists _, _, _. split; [vm_compute; reflexivity|].
  split_and!; try reflexivity.
  repeat constructor; simpl; congruence.
Qed.

(** C8: the created event of an instance is owned by that instance alone
    and is no event of another instance.  The code does not keep this
    when two calls of [CreateThread] overlap: line 225 names every such
    event ["ThreadCreatedEvent"], so the second call gets a second handle
    of the event object of the first.  In the run below the members
    [m_hThreadStarted] of the two instances hold different handles of one
    event object, and that object becomes signaled to the creator of
    instance 1 by the thread of instance 0 while the thread of instance 1
    has not run at all. *)
Theorem created_event_shared :
  ∃ s tw0 tw1 e s2 th1,
    run overlap_schedule (boot 4 workers two_creators) = Some s
    ∧ objs s !! 0 = Some tw0 ∧ objs s !! 1 = Some tw1
    ∧ m_hThreadStarted tw0 ≠ m_hThreadStarted tw1
    ∧ Win32.event_of (m_hThreadStarted tw0) s = Some e
    ∧ Win32.event_of (m_hThreadStarted tw1) s = Some e
    ∧ Win32.probe (m_hThreadStarted tw1) s = Win32.WAIT_TIMEOUT
    ∧ run (go (Worker 0) 2) s = Some s2
    ∧ Win32.probe (m_hThreadStarted tw1) s2 = Win32.WAIT_OBJECT_0
    ∧ threads s2 !! 1 = Some th1
    ∧ th_this th1 = 1 ∧ th_pc th1 = RP_PeekMessage.
Proof.
  eexists _, _, _, _, _, _. split; [vm_compute; reflexivity|].
  split; [reflexivity|]. split; [reflexivity|]. split; [done|].
  split; [reflexivity|]. split; [reflexivity|]. split; [reflexivity|].
  split; [vm_compute; reflexivity|].
  split_and!; reflexivity.
Qed.

(** C9, as stated: every work item posted to the queue of a thread is
    received by the work loop exactly once.  In the run below the thread
    is in its work loop when the coordinator posts the item, and the post
    is accepted; the thread does not get to run before the wait of
    [ExitThread] has timed out, and line 317 terminates it.  In the final
    state, from which nothing can move any more, the loop has got nothing
    of what its queue accepted, and the payload is still on the heap. *)
Lemma posted_payload_never_received :
  ∃ s0 th0 s co th,
    run stalled_post_schedule (boot 4 workers [stalled]) = Some s0
    ∧ threads s0 !! 0 = Some th0
    ∧ th_alive th0 = true ∧ th_pc th0 = RP_Process ∧ th_queue th0 = Some []
    ∧ run stalled_schedule (boot 4 workers [stalled]) = Some s
    ∧ fault s = None
    ∧ coords s !! 0 = Some co
    ∧ c_rets co = [RetCreateThread 0 TRUE;
                   RetPostThreadMessage 0 (mkMSG WM_THREAD_MSG 100) true;
                   RetExitThread 0]
    ∧ (∀ l, step l s = None)
    ∧ threads s = [th] ∧ th_alive th = false
    ∧ th_posted th = [mkMSG WM_THREAD_MSG 100; mkMSG WM_EXIT_THREAD NULL]
    ∧ th_got th = []
    ∧ heap s !! 100%Z = Some "lost".
Proof.
  eexists _, _, _, _, _. split; [vm_compute; reflexivity|].
  split; [reflexivity|]. split; [reflexivity|]. split; [reflexivity|].
  split; [reflexivity|]. split; [vm_compute; reflexivity|].
  split; [reflexivity|]. split; [reflexivity|]. split; [reflexivity|].
  split; [by intros [[[|c]|[|t]] ch]|].
  split_and!; reflexivity.
Qed.

(** C9, amended: a post that is accepted puts the message, with the
    payload it was posted with, at the end of the queue; the work loop
    gets the messages of its queue in the order of their arrival, each
    one at most once; a work item it gets has the payload of the post,
    the loop prints its text and deletes it.  A thread that has ended or
    has been terminated gets nothing more, whatever its queue had
    accepted.  No step of a coordinator reads, changes or frees a payload
    that is on the heap. *)
Theorem payload_round_trip hS ws progs s :
  reachable hS ws progs s →
  post_enqueues s
  ∧ (∀ t th, threads s !! t = Some th → got_in_order th)
  ∧ work_item_received s
  ∧ ended_gets_nothing s
  ∧ payloads_untouched s
  ∧ payloads_unread s.
Proof.
  intros Hr. split_and!.
  - apply post_enqueues_any.
  - intros t th Hth.
    pose proof (reachable_queue_inv _ _ _ _ Hr t th Hth) as Hq.
    unfold queue_ok, got_in_order in *.
    destruct (th_queue th) as [q|].
    + exists q. split; [done|]. by intros ? [= <-].
    + destruct Hq as [_ (rest & ?)]. by exists rest.
  - apply work_item_received_any.
  - intros tr s'. apply ended_kept_run.
  - intros c ch s' p text Hs. unfold step in Hs.
    destruct (fault s); [done|]. by eapply coord_step_heap.
  - intros c ch h' Hdom. unfold step. simpl.
    destruct (fault s); [done|]. by apply coord_step_unread.
Qed.

Lemma payload_round_trip_witness :
  let s := state_after stalled_post_schedule [stalled] in
  reachable 4 workers [stalled] s
  ∧ post_enqueues s
  ∧ (∀ t th, threads s !! t = Some th → got_in_order th)
  ∧ work_item_received s ∧ ended_gets_nothing s
  ∧ payloads_untouched s ∧ payloads_unread s.
Proof.
  intros s.
  assert (reachable 4 workers [stalled] s) as Hr
    by (exists stalled_post_schedule; vm_compute; reflexivity).
  split; [exact Hr|].
  exact (payload_round_trip 4 workers [stalled] s Hr).
Defined.

(** C10: [CreateThread] on an instance that is already created returns
    [FALSE] and changes nothing: no thread is started, no event is
    created, and the members of the instance, the thread handle and the
    thread identifier among them, are as they were. *)
Theorem CreateThread_already_created s c co this tw rest :
  fault s = None →
  coords s !! c = Some co → c_pc co = PC_Idle →
  c_script co = CallCreateThread this :: rest →
  objs s !! this = Some tw → IsCreated tw = true →
  (∀ ch, ch ≠ Go → step (Coordinator c, ch) s = None)
  ∧ ∃ s', step (Coordinator c, Go) s = Some s'
      ∧ coords s' !! c
        = Some (mkCoord PC_Idle rest (c_threadMsg co)
                  (c_rets co ++ [RetCreateThread this FALSE]))
      ∧ same_objects s s'.
Proof.
  intros Hf Hco Hpc Hscr Htw Hcr. unfold step, coord_step. rewrite Hf, Hco.
  simpl. rewrite Hpc, Hscr. simpl. unfold CreateThread. simpl. rewrite Htw.
  simpl. rewrite Hcr. simpl. split.
  - by intros [].
  - eexists. split; [done|]. split; [|done].
    unfold returns, running. simpl. rewrite Hf. simpl.
    rewrite list_alter_alter, list_lookup_alter_eq, Hco. simpl.
    unfold give_back, pop_call. simpl. by rewrite Hscr.
Qed.

Lemma CreateThread_already_created_witness :
  let s := state_after (create_ok 0 0 8 12) [create_twice] in
  (IsCreated <$> objs s !! 0) = Some true
  ∧ (∀ ch, ch ≠ Go → step (Coordinator 0, ch) s = None)
  ∧ ∃ s', step (Coordinator 0, Go) s = Some s'
      ∧ coords s' !! 0
        = Some (mkCoord PC_Idle [] NULL
                  [RetCreateThread 0 TRUE; RetCreateThread 0 FALSE])
      ∧ same_objects s s'.
Proof.
  intros s.
  assert (fault s = None) as Hf by reflexivity.
  eassert (coords s !! 0 = Some _) as Hco by reflexivity.
  eassert (objs s !! 0 = Some _) as Htw by reflexivity.
  split; [reflexivity|].
  exact (CreateThread_already_created s 0 _ 0 _ []
           Hf Hco eq_refl eq_refl Htw eq_refl).
Defined.

(** * Further properties *)



(** No step of a coordinator depends on what the [ThreadMsg] objects on
    the heap hold: with other contents at the same addresses the
    coordinator takes the same step, and the contents stay with the heap. *)
Theorem coordinator_ignores_payload_contents s : payloads_unread s.
Proof.
  intros c ch h' Hdom. unfold step. simpl.
  destruct (fault s); [done|]. by apply coord_step_unread.
Qed.

(** A [ThreadMsg] leaves the heap in one way only: the work loop of a
    thread takes the work item that carries it (line 41).  Every other
    step of every thread leaves it where it is and as it is. *)
Theorem payload_freed_only_by_Process l s s' p text :
  step l s = Some s' → heap s !! p = Some text →
  heap s' !! p = Some text
  ∨ ∃ t th q, l = (Worker t, Go) ∧ threads s !! t = Some th
      ∧ th_alive th = true ∧ th_pc th = RP_Process
      ∧ th_queue th = Some (mkMSG WM_THREAD_MSG p :: q)
      ∧ heap s' !! p = None.
Proof.
  unfold step. intros H Hp. destruct (fault s); [done|].
  destruct l as [[c|t] ch].
  - left. by eapply coord_step_heap.
  - destruct (RunProcess_heap _ _ _ _ _ _ H Hp)
      as [?|(th & q & -> & ? & ? & ? & ? & ?)]; [by left|].
    right. exists t, th, q. done.
Qed.

Lemma payload_freed_only_by_Process_witness :
  let s := state_after (take 23 main_schedule) [main] in
  ∃ s', step (Worker 0, Go) s = Some s'
    ∧ heap s !! 100%Z = Some "Hello world!"
    ∧ (heap s' !! 100%Z = Some "Hello world!"
       ∨ ∃ t th q, (Worker 0, Go) = (Worker t, Go) ∧ threads s !! t = Some th
           ∧ th_alive th = true ∧ th_pc th = RP_Process
           ∧ th_queue th = Some (mkMSG WM_THREAD_MSG 100 :: q)
           ∧ heap s' !! 100%Z = None).
Proof.
  intros s.
  eassert (step (Worker 0, Go) s = Some _) as Hs by (vm_compute; reflexivity).
  assert (heap s !! 100%Z = Some "Hello world!") as Hp
    by (vm_compute; reflexivity).
  eexists. split; [exact Hs|]. split; [exact Hp|].
  exact (payload_freed_only_by_Process _ _ _ _ _ Hs Hp).
Defined.

(** A thread that waits at the barrier while [StartAllThreads] has not
    been called cannot go on: the wait never fails, it can only run into
    its timeout, and then the assertion of line 282 fails with the thread
    still at the barrier. *)
Theorem barrier_timeout_asserts hS ws progs s t th :
  hS ≠ NULL → hS ≠ INVALID_HANDLE_VALUE →
  reachable hS ws progs s → fault s = None →
  threads s !! t = Some th → th_alive th = true →
  th_pc th = RP_WaitStart → releases s = 0 →
  step (Worker t, Go) s = None
  ∧ ∃ s', step (Worker t, Timeout) s = Some s'
      ∧ fault s' = Some (AssertAt 282) ∧ threads s' = threads s.
Proof.
  intros H1 H2 Hr Hf Hth Ha Hpc Hrel.
  pose proof (reachable_start_inv _ _ _ _ H1 H2 Hr) as I.
  destruct (si_this _ I _ _ Hth) as [tw Htw].
  unfold step, RunProcess, WaitForSingleObject.
  rewrite Hf, Hth; simpl. rewrite Ha, Htw; simpl. rewrite Hpc.
  rewrite (probe_start _ I), bool_decide_eq_false_2 by (by intros []).
  simpl. split; [done|]. eexists. split; [done|]. done.
Qed.

Lemma barrier_timeout_asserts_witness :
  let s := state_after (take 9 main_schedule) [main] in
  step (Worker 0, Go) s = None
  ∧ ∃ s', step (Worker 0, Timeout) s = Some s'
      ∧ fault s' = Some (AssertAt 282) ∧ threads s' = threads s.
Proof.
  intros s.
  assert (reachable 4 workers [main] s) as Hr
    by (exists (take 9 main_schedule); vm_compute; reflexivity).
  assert (4%Z ≠ NULL) as H1 by done.
  assert (4%Z ≠ INVALID_HANDLE_VALUE) as H2 by done.
  assert (fault s = None) as Hf by (vm_compute; reflexivity).
  eassert (threads s !! 0 = Some _) as Hth by (vm_compute; reflexivity).
  assert (releases s = 0) as Hrel by (vm_compute; reflexivity).
  exact (barrier_timeout_asserts 4 workers [main] s 0 _ H1 H2 Hr Hf Hth
           eq_refl eq_refl Hrel).
Defined.

(** When the wait of [ExitThread] does not time out, the thread is not
    terminated: the wait cannot end by its timeout, and the five following
    steps of the caller close both handles, invalidate both members and
    return, with every thread left as it is and no assertion on the way.
    This is the path of a signaled exit event, and also that of an exit
    event that could not be created (the wait fails at once). *)
Theorem ExitThread_plain_teardown s c co this tw :
  fault s = None → coords s !! c = Some co → objs s !! this = Some tw →
  c_pc co = InExitThread this ET_Wait →
  Win32.probe (m_hThreadExited tw) s ≠ Win32.WAIT_TIMEOUT →
  step (Coordinator c, Timeout) s = None
  ∧ ∃ s' tw',
      run (plain_teardown c) s = Some s'
      ∧ fault s' = None
      ∧ coords s' !! c = Some (give_back (RetExitThread this) co)
      ∧ objs s' !! this = Some tw'
      ∧ m_hThread tw' = INVALID_HANDLE_VALUE
      ∧ m_hThreadExited tw' = INVALID_HANDLE_VALUE
      ∧ handles s' !! m_hThread tw = None
      ∧ handles s' !! m_hThreadExited tw = None
      ∧ threads s' = threads s.
Proof.
  intros Hf Hco Htw Hpc Hprobe.
  assert (∃ r, WaitForSingleObject (m_hThreadExited tw) Go s = Some r
               ∧ is_WAIT_TIMEOUT r = false
               ∧ WaitForSingleObject (m_hThreadExited tw) Timeout s = None)
    as (r & Hgo & Hr & Hto).
  { unfold WaitForSingleObject.
    destruct (Win32.probe _ s); [by eexists|done|by eexists]. }
  split.
  { unfold step, coord_step. rewrite Hf, Hco. simpl. rewrite Hpc.
    unfold ExitThread. rewrite Htw. simpl. by rewrite Hto. }
  unfold plain_teardown. simpl.
  unfold step at 1. unfold coord_step. rewrite Hf, Hco. simpl. rewrite Hpc.
  unfold ExitThread at 1. rewrite Htw. simpl. rewrite Hgo. simpl.
  rewrite Hr. simpl.
  do 4 (unfold step at 1; unfold coord_step, goto, returns, running; simpl;
        rewrite ?Hf; simpl; rewrite !list_lookup_alter_eq, ?Hco; simpl;
        unfold ExitThread at 1; simpl;
        rewrite ?list_lookup_alter_eq, ?Htw; simpl).
  eexists _, _. split; [done|]. unfold returns, running. simpl.
  rewrite Hf. simpl. rewrite !list_lookup_alter_eq, Hco, Htw. simpl.
  split; [done|]. split; [done|]. split; [done|]. split; [done|].
  split; [done|]. split; [apply delete_delete_lookup|].
  split; [apply delete_delete_lookup|]. done.
Qed.

Lemma ExitThread_plain_teardown_witness :
  let s := state_after exit_signaled_schedule [exit_twice] in
  pc_of 0 s = Some (InExitThread 0 ET_Wait)
  ∧ step (Coordinator 0, Timeout) s = None
  ∧ ∃ s', run (plain_teardown 0) s = Some s'
      ∧ fault s' = None
      ∧ (m_hThread <$> objs s' !! 0) = Some INVALID_HANDLE_VALUE
      ∧ (m_hThreadExited <$> objs s' !! 0) = Some INVALID_HANDLE_VALUE
      ∧ threads s' = threads s.
Proof.
  intros s.
  assert (fault s = None) as Hf by (vm_compute; reflexivity).
  eassert (coords s !! 0 = Some _) as Hco by (vm_compute; reflexivity).
  eassert (objs s !! 0 = Some _) as Htw by (vm_compute; reflexivity).
  assert (Win32.probe 16 s ≠ Win32.WAIT_TIMEOUT) as Hp
    by (vm_compute; discriminate).
  destruct (ExitThread_plain_teardown s 0 _ 0 _ Hf Hco Htw eq_refl Hp)
    as (H1 & s' & tw' & Hrun & H2 & H3 & H4 & H5 & H6 & H7 & H8 & H9).
  split; [vm_compute; reflexivity|]. split; [exact H1|].
  exists s'. split; [exact Hrun|]. split; [exact H2|].
  rewrite H4. simpl. rewrite H5, H6.
  split; [reflexivity|]. split; [reflexivity|]. exact H9.
Defined.

(** The work loop on an empty queue and on messages it cannot handle.
    With nothing in the queue [GetMessage] keeps the thread where it is.
    A work item without a payload fails the assertion of line 32 and a
    message that is neither a work item nor the stop message that of line
    49; in both cases the message is gone from the queue and nothing has
    been printed or deleted. *)
Theorem Process_edge_cases s t th tw :
  fault s = None → threads s !! t = Some th → th_alive th = true →
  th_pc th = RP_Process → objs s !! th_this th = Some tw →
  (th_queue th = Some [] → ∀ ch, step (Worker t, ch) s = None)
  ∧ (∀ m q, th_queue th = Some (m :: q) →
       (m = mkMSG WM_THREAD_MSG NULL ∨ ∃ k w, m = mkMSG (WM_USER_OTHER k) w) →
       ∃ s', step (Worker t, Go) s = Some s'
         ∧ fault s'
           = Some (AssertAt (match message m with
                             | WM_USER_OTHER _ => 49
                             | _ => 32
                             end))
         ∧ threads s' !! t = Some (dequeue th)
         ∧ heap s' = heap s ∧ cout s' = cout s).
Proof.
  intros Hf Hth Ha Hpc Htw. split.
  - intros Hq ch. unfold step, RunProcess, Process, GetMessage.
    rewrite Hf, Hth. simpl. rewrite Ha, Htw. simpl. rewrite Hpc, Hq.
    by destruct ch.
  - intros m q Hq Hm. unfold step, RunProcess, Process, GetMessage.
    rewrite Hf, Hth. simpl. rewrite Ha, Htw. simpl. rewrite Hpc, Hq. simpl.
    destruct Hm as [->|(k & w & ->)]; simpl.
    + eexists. split; [done|]. simpl.
      by rewrite list_lookup_alter_eq, Hth.
    + eexists. split; [done|]. simpl.
      by rewrite list_lookup_alter_eq, Hth.
Qed.

Lemma Process_edge_cases_witness :
  let s := state_after null_post_schedule [null_poster] in
  ∃ s', step (Worker 0, Go) s = Some s'
    ∧ fault s' = Some (AssertAt 32)
    ∧ (th_queue <$> threads s' !! 0) = Some (Some [])
    ∧ heap s' = heap s ∧ cout s' = cout s.
Proof.
  intros s.
  assert (fault s = None) as Hf by (vm_compute; reflexivity).
  eassert (threads s !! 0 = Some _) as Hth by (vm_compute; reflexivity).
  eassert (objs s !! 0 = Some _) as Htw by (vm_compute; reflexivity).
  destruct (proj2 (Process_edge_cases s 0 _ _ Hf Hth eq_refl eq_refl Htw)
              (mkMSG WM_THREAD_MSG NULL) [] eq_refl (or_introl eq_refl))
    as (s' & Hs & Hfault & Ht & Hh & Hc).
  exists s'. split; [exact Hs|]. split; [exact Hfault|].
  rewrite Ht. split; [reflexivity|]. split; [exact Hh|exact Hc].
Defined.

(** A message posted through an instance goes to the thread of this
    instance or to none.  With one coordinator, as long as the instance
    holds an open handle of a thread in [m_hThread], from line 230 until
    line 319 closes it: [m_threadId] is the identifier of the thread
    behind the handle, this thread has been started for the instance,
    and it is the only thread that accepts what is posted through the
    instance, which it does when it runs and has its queue.  The open
    handle keeps the thread object, so that the system gives its
    identifier to no other thread. *)
Theorem message_reaches_own_thread hS ws p s o tw t0 :
  hS ≠ NULL → hS ≠ INVALID_HANDLE_VALUE →
  reachable hS ws [p] s → objs s !! o = Some tw →
  handles s !! m_hThread tw = Some (KThread t0) →
  m_threadId tw = S t0
  ∧ ∃ th0, threads s !! t0 = Some th0 ∧ th_this th0 = o
      ∧ ∀ t, Win32.receiver (m_threadId tw) s = Some t →
             t = t0 ∧ th_alive th0 = true ∧ is_Some (th_queue th0).
Proof.
  intros H1 H2 Hr Htw Ht.
  pose proof (hThread_open _ _ _ _ _ _ _ H1 H2 Hr Htw Ht) as Hid.
  split; [done|].
  destruct (bi_id _ _ (reachable_binding_inv _ _ _ _ Hr) o tw t0 Htw Hid)
    as (th0 & Hth0 & Hthis).
  exists th0. split_and!; [done..|].
  intros t [Hid' (th & Hth & Ha & Hq)]%receiver_Some.
  assert (t = t0) as -> by congruence.
  assert (th = th0) as -> by congruence. done.
Qed.

Lemma message_reaches_own_thread_witness :
  let s := state_after released_schedule [main] in
  ∃ tw, objs s !! 1 = Some tw ∧ m_threadId tw = 2
    ∧ ∃ th0, threads s !! 1 = Some th0 ∧ th_this th0 = 1
        ∧ ∀ t, Win32.receiver (m_threadId tw) s = Some t →
               t = 1 ∧ th_alive th0 = true ∧ is_Some (th_queue th0).
Proof.
  intros s.
  assert (4%Z ≠ NULL) as H1 by done.
  assert (4%Z ≠ INVALID_HANDLE_VALUE) as H2 by done.
  assert (reachable 4 workers [main] s) as Hr
    by (exists released_schedule; vm_compute; reflexivity).
  eassert (objs s !! 1 = Some _) as Htw by (vm_compute; reflexivity).
  eexists. split; [exact Htw|].
  refine (message_reaches_own_thread 4 workers main s 1 _ 1 H1 H2 Hr Htw _).
  vm_compute. reflexivity.
Defined.







(** [CreateThread] does not hang on its handshake.  With one coordinator,
    whenever it waits at line 234 for the created-event of an instance,
    the event was created at line 225 and no assertion has failed, the
    thread started last has at most two steps to take, which it can
    always take, and after them the wait returns [WAIT_OBJECT_0]: the
    assertion of line 235 holds and the call goes on to close the event.
    No other thread and no call of [StartAllThreads] is needed. *)
Theorem handshake_completes hS ws p s o tw :
  hS ≠ NULL → hS ≠ INVALID_HANDLE_VALUE →
  reachable hS ws [p] s → fault s = None →
  pc_of 0 s = Some (InCreateThread o CT_Wait) →
  objs s !! o = Some tw → m_hThreadStarted tw ≠ NULL →
  ∃ n s', n ≤ 2
    ∧ run (go (Worker (pred (length (threads s)))) n
           ++ [(Coordinator 0, Go)]) s = Some s'
    ∧ fault s' = None
    ∧ pc_of 0 s' = Some (InCreateThread o CT_Close).
Proof.
  intros H1 H2 Hr Hf Hpc Htw Hnull.
  pose proof (reachable_handshake_inv _ _ _ _ H1 H2 Hr)
    as (_ & _ & co & Hco & Hat).
  pose proof (reachable_wait_inv _ _ _ _ H1 H2 Hr) as Hw.
  unfold pc_of in Hpc. rewrite Hco in Hpc. simpl in Hpc.
  injection Hpc as Hpc. rewrite Hpc in Hat.
  destruct Hat as [Hlast (tw' & Htw' & Hev)].
  assert (tw' = tw) as -> by congruence.
  destruct Hev as [[? _]|(e & ev & Hh & Hev & _)]; [done|].
  destruct (Hw co o tw Hco Hpc Htw) as [(t & th & Hth & Hfr)|Hp].
  2:{ destruct (wait_over s co o tw Hf Hco Hpc Htw Hp) as (s' & Hs & ? & ?).
      exists 0, s'. split; [lia|]. cbn [go replicate app run].
      by rewrite Hs. }
  destruct (Hlast t th Hth Hfr) as [Hlen Hthis]. rewrite <- Hlen. simpl.
  unfold fresh in Hfr. destruct (th_alive th) eqn:Ha; [|done].
  simpl in Hfr. rewrite <- Hthis in Htw.
  destruct (th_pc th) eqn:Hpct; try done.
  - destruct (PeekMessage_step s t th tw Hf Hth Ha Hpct Htw)
      as (s1 & th1 & Hs1 & Hf1 & Ec1 & Eo1 & Eh1 & Ee1 & Hth1 & Ha1 & Hpc1
          & Hthis1).
    rewrite <- Eo1, <- Hthis1 in Htw. rewrite <- Eh1 in Hh.
    rewrite <- Ee1 in Hev.
    destruct (SetStarted_step s1 t th1 tw e ev Hf1 Hth1 Ha1 Hpc1 Htw Hh Hev)
      as (s2 & Hs2 & Hf2 & Ec2 & Eo2 & Hp2).
    rewrite <- Ec1, <- Ec2 in Hco.
    rewrite Hthis1, Hthis, <- Eo2 in Htw.
    destruct (wait_over s2 co o tw Hf2 Hco Hpc Htw Hp2) as (s' & Hs & ? & ?).
    exists 2, s'. split; [lia|]. cbn [go replicate app run].
    by rewrite Hs1, Hs2, Hs.
  - destruct (SetStarted_step s t th tw e ev Hf Hth Ha Hpct Htw Hh Hev)
      as (s2 & Hs2 & Hf2 & Ec2 & Eo2 & Hp2).
    rewrite <- Ec2 in Hco. rewrite Hthis, <- Eo2 in Htw.
    destruct (wait_over s2 co o tw Hf2 Hco Hpc Htw Hp2) as (s' & Hs & ? & ?).
    exists 1, s'. split; [lia|]. cbn [go replicate app run].
    by rewrite Hs2, Hs.
Qed.

Lemma handshake_completes_witness :
  let s := state_after (take 3 main_schedule) [main] in
  ∃ n s', n ≤ 2
    ∧ run (go (Worker 0) n ++ [(Coordinator 0, Go)]) s = Some s'
    ∧ fault s' = None
    ∧ pc_of 0 s' = Some (InCreateThread 0 CT_Close).
Proof.
  intros s.
  assert (4%Z ≠ NULL) as H1 by done.
  assert (4%Z ≠ INVALID_HANDLE_VALUE) as H2 by done.
  assert (reachable 4 workers [main] s) as Hr
    by (exists (take 3 main_schedule); vm_compute; reflexivity).
  assert (fault s = None) as Hf by (vm_compute; reflexivity).
  assert (pc_of 0 s = Some (InCreateThread 0 CT_Wait)) as Hpc
    by (vm_compute; reflexivity).
  eassert (objs s !! 0 = Some _) as Htw by (vm_compute; reflexivity).
  refine (handshake_completes 4 workers main s 0 _ H1 H2 Hr Hf Hpc Htw _).
  vm_compute. discriminate.
Defined.

(** The class leaves no event object behind.  With one coordinator, in
    every state of every run, whatever fails or times out: while the
    coordinator is in none of the calls, the only event object that has
    an open handle is the first one, the event of the barrier; the event
    [CreateThread] made at line 225 has been closed at line 237 and the one
    [ExitThread] made at line 311 at line 322. *)
Theorem events_closed_between_calls hS ws p s e ev :
  hS ≠ NULL → hS ≠ INVALID_HANDLE_VALUE →
  reachable hS ws [p] s →
  pc_of 0 s = Some PC_Idle →
  events s !! e = Some ev → ev_open ev ≠ 0 →
  e = 0 ∧ ev_name ev = "StartAllThreadsEvent".
Proof.
  intros H1 H2 Hr Hpc Hev Ho.
  destruct (reachable_handshake_inv _ _ _ _ H1 H2 Hr)
    as (_ & _ & co & Hco & Hat).
  destruct (reachable_exit_inv _ _ _ _ H1 H2 Hr) as (co' & Hco' & Hx).
  assert (co' = co) as -> by congruence.
  unfold pc_of in Hpc. rewrite Hco in Hpc. injection Hpc as Hpc.
  rewrite Hpc in Hat, Hx. destruct Hat as [_ Hc]. simpl in Hx.
  destruct (reachable_events_named _ _ _ _ Hr) as (l & En & Hl).
  assert (names s !! e = Some (ev_name ev)) as Hn.
  { unfold names. by rewrite list_lookup_fmap, Hev. }
  rewrite En in Hn. destruct e as [|e]; [by simplify_eq/=|].
  exfalso. simpl in Hn.
  destruct (proj1 (Forall_lookup _ _) Hl e _ Hn) as [E|E].
  - by specialize (Hc _ _ Hev E Ho).
  - by specialize (Hx _ _ Hev E Ho).
Qed.

Lemma events_closed_between_calls_witness :
  let s := state_after main_schedule [main] in
  ∃ ev, events s !! 0 = Some ev ∧ ev_open ev ≠ 0
        ∧ ev_name ev = "StartAllThreadsEvent".
Proof.
  intros s.
  assert (4%Z ≠ NULL) as H1 by done.
  assert (4%Z ≠ INVALID_HANDLE_VALUE) as H2 by done.
  assert (reachable 4 workers [main] s) as Hr
    by (exists main_schedule; vm_compute; reflexivity).
  assert (pc_of 0 s = Some PC_Idle) as Hpc by (vm_compute; reflexivity).
  eassert (events s !! 0 = Some _) as Hev by (vm_compute; reflexivity).
  eexists. split; [exact Hev|].
  assert (1 ≠ 0) as Ho by lia.
  split; [exact Ho|].
  exact (proj2 (events_closed_between_calls 4 workers main s 0 _
                  H1 H2 Hr Hpc Hev Ho)).
Defined.


